(** * Centralized federated learning on non-IID shards: a shallow embedding

    The development follows [main.py]: the partitioner
    [dataset_to_nodes_partitioning], the aggregator [average_weights], the
    evaluator [evaluate], the local trainer [local_training] and the round
    loop of [__main__].

    Modelling conventions.
    - Python exceptions are values of [exn]; a computation is a function from
      a state to an outcome and a state (the state survives an exception).
    - Python [int]s are [Z] at the interface and [nat] once the code has
      established that they are counts.
    - The partitioner's [int(len(list) * data_fraction)] decides how many
      records a device gets: it is computed in binary64, with Rocq's
      primitive floats and their IEEE 754 specification.  Losses and
      accuracies, which the code only averages and prints, are modelled by
      exact rationals [Qc]: their rounding is not modelled; the split
      [int(len(data) * 0.8)] of [train_val_split] is taken on the exact
      fraction 4/5.
    - NumPy's and torch's generators, the network, the loss and the optimiser
      are collaborators outside the repository; they are taken as interfaces
      (type classes), with the few laws their documentation guarantees. *)

From Stdlib Require Import ZArith QArith Qcanon Qround Lia Lqa List.
From Stdlib Require Import Floats.
From Stdlib Require Uint63.

(** Decimal fractions such as [0.2] denote the nearest binary64 number, as
    they do in Python. *)
Set Warnings "-inexact-float".
From stdpp Require Import base tactics option numbers list gmap strings.

Local Open Scope Z_scope.
Local Open Scope nat_scope.

(** ** Exceptions and the state-and-exception monad *)

Inductive exn : Set :=
  | ZeroDivisionError
  | ValueError
  | IndexError
  | KeyError
  | RuntimeError
  | OverflowError.

Inductive outcome (A : Type) : Type :=
  | Ok (a : A)
  | Raise (e : exn).
Arguments Ok {A} a.
Arguments Raise {A} e.

Definition M (S A : Type) : Type := S -> outcome A * S.

Definition ret {S A} (a : A) : M S A := fun s => (Ok a, s).

Definition raise {S A} (e : exn) : M S A := fun s => (Raise e, s).

Definition bind {S A B} (m : M S A) (k : A -> M S B) : M S B :=
  fun s => match m s with
           | (Ok a, s') => k a s'
           | (Raise e, s') => (Raise e, s')
           end.

Definition get_state {S} : M S S := fun s => (Ok s, s).

Definition put_state {S} (s : S) : M S unit := fun _ => (Ok tt, s).

Declare Scope py_scope.
Delimit Scope py_scope with py.
Notation "'let*' x ':=' c 'in' k" := (bind c (fun x => k))
  (at level 10, x name, c at level 100, k at level 200) : py_scope.
Notation "'let*' ' x ':=' c 'in' k" := (bind c (fun x => k))
  (at level 10, x strict pattern, c at level 100, k at level 200) : py_scope.
Notation "c ';;' k" := (bind c (fun _ => k))
  (at level 100, k at level 200, right associativity) : py_scope.
Local Open Scope py_scope.

(** [for x in l: acc = body(acc, x)] *)
Fixpoint for_fold {S A B} (body : A -> B -> M S A) (l : list B) (acc : A)
  : M S A :=
  match l with
  | [] => ret acc
  | x :: l' => let* acc' := body acc x in for_fold body l' acc'
  end.

Definition for_each {S B} (body : B -> M S unit) (l : list B) : M S unit :=
  for_fold (fun _ x => body x) l tt.

(** [l[i]] for a non-negative [i] *)
Definition list_index {S A} (l : list A) (i : nat) : M S A :=
  match l !! i with
  | Some x => ret x
  | None => raise IndexError
  end.

(** ** Numbers *)

(** [int(x)] of an exact rational: truncation towards zero. *)
Definition int_of_Qc (q : Qc) : Z := Z.quot (Qnum q) (Zpos (Qden q)).

Definition Qc_of_nat (n : nat) : Qc := Qc_of_Z (Z.of_nat n).

(** [float(n)] for [n = len(...)]: a length is a [Py_ssize_t], below
    [2^63]; the conversion is exact below [2^53] and rounds to nearest
    above. *)
Definition float_of_len (n : nat) : float :=
  of_uint63 (Uint63.of_Z (Z.of_nat n)).

(** [int(x)] of a binary64 [x]: truncation towards zero; an infinity
    raises [OverflowError] and a NaN [ValueError]. *)
Definition int_of_float (x : float) : outcome Z :=
  match Prim2SF x with
  | S754_zero _ => Ok 0%Z
  | S754_finite s m e => Ok (cond_Zopp s (Z.shiftl (Zpos m) e))
  | S754_infinity _ => Raise OverflowError
  | S754_nan => Raise ValueError
  end.

Definition of_outcome {S A} (r : outcome A) : M S A :=
  match r with Ok a => ret a | Raise e => raise e end.

(** [int(a / b)] on Python ints: true division, then truncation. *)
Definition int_true_div {S} (a b : Z) : M S Z :=
  if Z.eqb b 0 then raise ZeroDivisionError else ret (Z.quot a b).

(** [a % b] on non-negative Python ints. *)
Definition py_mod {S} (a b : nat) : M S nat :=
  if Nat.eqb b 0 then raise ZeroDivisionError else ret (a mod b).

(** ** NumPy: [array_split], [arange], fancy indexing *)

(** Consecutive slices [ary[st:end]] of the given lengths. *)
Fixpoint slices {A} (sizes : list nat) (l : list A) : list (list A) :=
  match sizes with
  | [] => []
  | n :: sizes' => take n l :: slices sizes' (drop n l)
  end.

(** [section_sizes] of [np.array_split]: the first [Ntotal mod Nsections]
    sections have one element more. *)
Definition section_sizes (total sections : nat) : list nat :=
  replicate (total mod sections) (S (total / sections))
  ++ replicate (sections - total mod sections) (total / sections).

Definition array_split {A} (l : list A) (sections : nat) : list (list A) :=
  slices (section_sizes (length l) sections) l.

(** [np.array_split(ary, n)]: raises [ValueError] unless [n > 0]. *)
Definition np_array_split {S A} (l : list A) (n : Z) : M S (list (list A)) :=
  if Z.leb n 0 then raise ValueError
  else ret (array_split l (Z.to_nat n)).

(** [np.arange(n)]: empty when [n <= 0]. *)
Definition np_arange (n : Z) : list nat := seq 0 (Z.to_nat n).

(** [np.array(l)[indexes].tolist()] with non-negative indexes. *)
Fixpoint fancy_index {S A} (l : list A) (indexes : list nat) : M S (list A) :=
  match indexes with
  | [] => ret []
  | i :: is' =>
      let* x := list_index l i in
      let* xs := fancy_index l is' in
      ret (x :: xs)
  end.

(** ** NumPy's global generator *)

(** The legacy global generator of [np.random], as an interface: [G] is the
    generator's state.  [np_choice a size] is [np.random.choice(a, size)]
    for an int [a], sampling with replacement. *)
Class NumpyRandom (G : Type) := {
  np_seeded : Z -> G;
  np_shuffle : list nat -> G -> list nat * G;
  np_choice : nat -> nat -> G -> list nat * G;
  np_shuffle_perm : forall l g, (np_shuffle l g).1 ≡ₚ l;
  np_choice_length : forall a size g, length (np_choice a size g).1 = size;
  np_choice_bound : forall a size g,
      Forall (fun i => i < a) (np_choice a size g).1 \/ a = 0;
}.

(** [index_mapping]: from a device to its record indexes and its labels. *)
Abbreviation index_mapping := (gmap nat (list nat * list nat)).

Section Partitioner.
Context {G : Type} `{NumpyRandom G}.
Context {Image : Type}.

(** The MNIST training set, as a sequence of (image, label) records, and
    [len(train_dataset.classes)]. *)
Variable train_dataset : list (Image * nat).
Variable classes_count : nat.

(** [np.random.seed(seed)]: the seed must fit in 32 bits. *)
Definition np_random_seed (seed : Z) : M G unit :=
  if (Z.leb 0 seed && Z.ltb seed (2 ^ 32))%Z%bool
  then put_state (np_seeded seed)
  else raise ValueError.

Definition np_random_shuffle (l : list nat) : M G (list nat) :=
  fun g => let '(l', g') := np_shuffle l g in (Ok l', g').

(** [np.random.choice(a, size)]: a negative [size] and an empty population
    with a non-zero [size] raise [ValueError]. *)
Definition np_random_choice (a : nat) (size : Z) : M G (list nat) :=
  if Z.ltb size 0 then raise ValueError
  else if Nat.eqb a 0 && negb (Z.eqb size 0) then raise ValueError
  else fun g => let '(l, g') := np_choice a (Z.to_nat size) g in (Ok l, g').

Definition enumerate {A} (l : list A) : list (nat * A) :=
  zip (seq 0 (length l)) l.

(** [[index for index, (_, lab) in enumerate(train_dataset) if lab in classes]] *)
Definition records_per_class (classes : list nat) : list nat :=
  (filter (fun r => r.2.2 ∈ classes) (enumerate train_dataset)).*1.

(** The body of [for node in nodes]. *)
Definition node_body (nodes_per_area : nat) (data_fraction : float)
    (split_record_per_node : list (list nat)) (classes : list nat)
    (mapping : index_mapping) (node : nat) : M G index_mapping :=
  let* position := py_mod node nodes_per_area in
  let* list := list_index split_record_per_node position in
  let* bound :=
    of_outcome (int_of_float (float_of_len (length list) * data_fraction)) in
  let* indexes := np_random_choice (length list) bound in
  let* picked := fancy_index list indexes in
  ret (<[node := (picked, classes)]> mapping).

(** The body of [for index, (nodes, classes) in enumerate(nodes_and_classes)]. *)
Definition area_body (nodes_per_area : Z) (shuffling : bool)
    (data_fraction : float) (mapping : index_mapping)
    (area : list nat * list nat) : M G index_mapping :=
  let '(nodes, classes) := area in
  let records := records_per_class classes in
  let* records :=
    if shuffling then np_random_shuffle records else ret records in
  let* split_record_per_node := np_array_split records nodes_per_area in
  for_fold
    (node_body (Z.to_nat nodes_per_area) data_fraction
       split_record_per_node classes)
    nodes mapping.

Definition dataset_to_nodes_partitioning (nodes_count areas random_seed : Z)
    (shuffling : bool) (data_fraction : float) : M G index_mapping :=
  np_random_seed random_seed;;
  let* nodes_per_area := int_true_div nodes_count areas in
  let dataset_labels_count := Z.of_nat classes_count in
  let* split_nodes_per_area :=
    np_array_split (np_arange nodes_count) areas in
  let* split_classes_per_area :=
    np_array_split (np_arange dataset_labels_count) areas in
  let nodes_and_classes := zip split_nodes_per_area split_classes_per_area in
  for_fold (area_body nodes_per_area shuffling data_fraction)
    nodes_and_classes ∅.

End Partitioner.

(** ** Tensors and the object store *)

(** A torch tensor: its shape and its entries in row-major order. *)
Record tensor : Type := Tensor { t_shape : list nat; t_data : list Qc }.

Definition numel (shape : list nat) : nat := foldr Nat.mul 1 shape.

(** The entries of a tensor of shape [sh] expanded to shape [target], as
    torch broadcasting does for the argument of an in-place operation:
    shapes are aligned on the right, a missing or 1-sized dimension is
    repeated, any other mismatch is refused. *)
Fixpoint expand (target sh : list nat) (d : list Qc) : option (list Qc) :=
  match target with
  | [] => match sh with [] => Some d | _ :: _ => None end
  | n :: target' =>
      if length sh <? length target then
        r ← expand target' sh d; Some (concat (replicate n r))
      else
        match sh with
        | [] => None
        | m :: sh' =>
            if m =? n then
              rs ← mapM (expand target' sh')
                        (slices (replicate m (numel sh')) d);
              Some (concat rs)
            else if m =? 1 then
              r ← expand target' sh' d; Some (concat (replicate n r))
            else None
        end
  end.

(** An in-place operation cannot change the shape of its target. *)
Definition broadcast_to (target : list nat) (other : tensor)
  : option (list Qc) :=
  if length target <? length (t_shape other) then None
  else expand target (t_shape other) (t_data other).

(** A state_dict: an insertion-ordered dict from parameter names to tensor
    objects (references into the store). *)
Abbreviation state_dict := (list (string * nat)).

(** The store: tensor objects and dict objects, by address. *)
Record heap : Type := Heap { tensors : list tensor; dicts : list state_dict }.

(** Every reference of a Python program points to a live object; the lookup
    of a dangling address (which no Python program can produce) is mapped to
    [RuntimeError]. *)
Definition load_tensor (a : nat) : M heap tensor :=
  fun h => match tensors h !! a with
           | Some t => (Ok t, h)
           | None => (Raise RuntimeError, h)
           end.

Definition store_tensor (a : nat) (t : tensor) : M heap unit :=
  fun h => (Ok tt, Heap (<[a := t]> (tensors h)) (dicts h)).

Definition alloc_tensor (t : tensor) : M heap nat :=
  fun h => (Ok (length (tensors h)), Heap (tensors h ++ [t]) (dicts h)).

Definition load_dict (d : nat) : M heap state_dict :=
  fun h => match dicts h !! d with
           | Some sd => (Ok sd, h)
           | None => (Raise RuntimeError, h)
           end.

Definition store_dict (d : nat) (sd : state_dict) : M heap unit :=
  fun h => (Ok tt, Heap (tensors h) (<[d := sd]> (dicts h))).

Definition alloc_dict (sd : state_dict) : M heap nat :=
  fun h => (Ok (length (dicts h)), Heap (tensors h) (dicts h ++ [sd])).

Fixpoint assoc {K V} `{EqDecision K} (k : K) (l : list (K * V)) : option V :=
  match l with
  | [] => None
  | (k', v) :: l' => if decide (k = k') then Some v else assoc k l'
  end.

(** [d[k] = v] on an insertion-ordered dict: an existing key keeps its
    position, a new key goes last. *)
Fixpoint assoc_set {K V} `{EqDecision K} (k : K) (v : V) (l : list (K * V))
  : list (K * V) :=
  match l with
  | [] => [(k, v)]
  | (k', v') :: l' =>
      if decide (k = k') then (k, v) :: l' else (k', v') :: assoc_set k v l'
  end.

(** [d[key]] *)
Definition dict_getitem (d : nat) (key : string) : M heap nat :=
  let* sd := load_dict d in
  match assoc key sd with
  | Some a => ret a
  | None => raise KeyError
  end.

(** [d[key] = a] *)
Definition dict_setitem (d : nat) (key : string) (a : nat) : M heap unit :=
  let* sd := load_dict d in
  store_dict d (assoc_set key a sd).

(** [list(d.keys())] *)
Definition dict_keys (d : nat) : M heap (list string) :=
  let* sd := load_dict d in ret (sd.*1).

(** [copy.deepcopy] of the items of a dict of tensors.  The memo keeps one
    copy per source object: two names bound to the same tensor are bound to
    the same copy. *)
Fixpoint deepcopy_items (items : state_dict) (memo : list (nat * nat))
  : M heap state_dict :=
  match items with
  | [] => ret []
  | (key, a) :: items' =>
      match assoc a memo with
      | Some a' =>
          let* rest := deepcopy_items items' memo in
          ret ((key, a') :: rest)
      | None =>
          let* t := load_tensor a in
          let* a' := alloc_tensor t in
          let* rest := deepcopy_items items' ((a, a') :: memo) in
          ret ((key, a') :: rest)
      end
  end.

(** [copy.deepcopy(d)] for a state_dict object. *)
Definition deepcopy (d : nat) : M heap nat :=
  let* sd := load_dict d in
  let* sd' := deepcopy_items sd [] in
  alloc_dict sd'.

(** [self += other] on tensors: in place, [other] broadcast to [self]. *)
Definition tensor_iadd (a b : nat) : M heap unit :=
  let* self := load_tensor a in
  let* other := load_tensor b in
  match broadcast_to (t_shape self) other with
  | Some d =>
      store_tensor a (Tensor (t_shape self) (zip_with Qcplus (t_data self) d))
  | None => raise RuntimeError
  end.

(** [torch.div(input, n)] for a Python int [n]: a new tensor. *)
Definition torch_div (a : nat) (n : nat) : M heap nat :=
  let* input := load_tensor a in
  alloc_tensor
    (Tensor (t_shape input) ((fun x => x / Qc_of_nat n)%Qc <$> t_data input)).

(** ** The aggregator *)

(** [w_avg[key] += models[i][key]] *)
Definition accumulate (models : list nat) (w_avg : nat) (key : string)
    (i : nat) : M heap unit :=
  let* a := dict_getitem w_avg key in
  let* m := list_index models i in
  let* b := dict_getitem m key in
  tensor_iadd a b;;
  dict_setitem w_avg key a.

Definition average_key (models : list nat) (w_avg : nat) (key : string)
  : M heap unit :=
  for_each (accumulate models w_avg key) (seq 1 (length models - 1));;
  let* a := dict_getitem w_avg key in
  let* r := torch_div a (length models) in
  dict_setitem w_avg key r.

Definition average_weights (models : list nat) : M heap nat :=
  let* m0 := list_index models 0 in
  let* w_avg := deepcopy m0 in
  let* keys := dict_keys w_avg in
  for_each (average_key models w_avg) keys;;
  ret w_avg.

(** Reading a state_dict out of the store, by value. *)
Definition read_param (h : heap) (d : nat) (key : string) : option tensor :=
  sd ← dicts h !! d; a ← assoc key sd; tensors h !! a.

Definition param_names (h : heap) (d : nat) : list string :=
  match dicts h !! d with Some sd => sd.*1 | None => [] end.

(** ** Parameter mappings by value *)

(** A state_dict by value: parameter names with their tensors, in the order
    of the dict. *)
Abbreviation weights := (list (string * tensor)).

(** A fresh tensor object for every parameter of a mapping. *)
Fixpoint alloc_weights (w : weights) : M heap state_dict :=
  match w with
  | [] => ret []
  | (key, t) :: w' =>
      let* a := alloc_tensor t in
      let* rest := alloc_weights w' in
      ret ((key, a) :: rest)
  end.

Definition alloc_state_dict (w : weights) : M heap nat :=
  let* sd := alloc_weights w in alloc_dict sd.

Fixpoint alloc_models (ws : list weights) : M heap (list nat) :=
  match ws with
  | [] => ret []
  | w :: ws' =>
      let* d := alloc_state_dict w in
      let* rest := alloc_models ws' in
      ret (d :: rest)
  end.

Definition read_state_dict (h : heap) (d : nat) : option weights :=
  sd ← dicts h !! d;
  mapM (fun '(key, a) => t ← tensors h !! a; Some (key, t)) sd.

(** [average_weights] on a list of independent state_dicts (as the deep
    copies collected by the round loop are): the objects are laid out in a
    store, the aggregator runs, and its result is read back. *)
Definition average_weights_value (ws : list weights) : outcome weights :=
  match (let* models := alloc_models ws in average_weights models)
          (Heap [] []) with
  | (Ok d, h) =>
      match read_state_dict h d with
      | Some w => Ok w
      | None => Raise RuntimeError
      end
  | (Raise e, _) => Raise e
  end.

(** ** Datasets and loaders *)

Section Data.
Context {Image : Type}.

(** The [Dataset] protocol: [__len__] and [__getitem__]. *)
Record dataset : Type :=
  Dataset { ds_len : nat; ds_get : nat -> outcome (Image * nat) }.

Definition list_dataset (l : list (Image * nat)) : dataset :=
  Dataset (length l)
    (fun i => match l !! i with Some r => Ok r | None => Raise IndexError end).

(** [DatasetSplit(dataset, idxs)]; [torch.utils.data.Subset] reads its
    items the same way. *)
Definition DatasetSplit (ds : dataset) (idxs : list nat) : dataset :=
  Dataset (length idxs)
    (fun item => match idxs !! item with
                 | Some i => ds_get ds i
                 | None => Raise IndexError
                 end).

(** The batches of a loader, as index lists: [batch_size] items each, the
    last one shorter ([drop_last=False]). *)
Definition batch_sizes (total batch_size : nat) : list nat :=
  replicate (total / batch_size) batch_size
  ++ (if total mod batch_size =? 0 then [] else [total mod batch_size]).

Definition batches (order : list nat) (batch_size : nat) : list (list nat) :=
  slices (batch_sizes (length order) batch_size) order.

(** Collating one batch: the items are read in order. *)
Fixpoint fetch {S} (ds : dataset) (batch : list nat)
  : M S (list (Image * nat)) :=
  match batch with
  | [] => ret []
  | i :: batch' =>
      match ds_get ds i with
      | Ok r => let* rest := fetch ds batch' in ret (r :: rest)
      | Raise e => raise e
      end
  end.
End Data.
Arguments dataset : clear implicits.

(** ** Torch *)

(** The collaborators from torch, as an interface: [X] is the state of
    torch's global generator, [Opt] the state of the optimiser.
    - [torch_manual_seed s] is the state after [torch.manual_seed(s)];
    - [cnn_mnist] is [CNNMnist()]: freshly initialised parameters;
    - [arch_accepts w] tells whether [load_state_dict(w)] accepts [w];
    - [net_eval w x] is the output row of the network with parameters [w]
      on the example [x] in evaluation mode;
    - [nll_loss outputs labels] is [criterion(outputs, labels).item()];
    - [torch_argmax row] is the index returned by [torch.max(outputs, 1)];
    - [adam w] is the initial state of [torch.optim.Adam];
    - [train_step] is one pass of zero_grad, forward (in training mode, so
      with dropout), loss, backward and [optimizer.step()]; it returns the
      updated parameters, the optimiser state and [loss.item()];
    - [randperm n] is [torch.randperm(n)], used by [random_split];
    - [shuffled_order n] is the order of a [DataLoader(shuffle=True)] pass
      over [n] items. *)
Class Torch (X Image Opt : Type) := {
  torch_manual_seed : Z -> X;
  cnn_mnist : X -> weights * X;
  arch_accepts : weights -> bool;
  net_eval : weights -> Image -> list Qc;
  nll_loss : list (list Qc) -> list nat -> Qc;
  torch_argmax : list Qc -> nat;
  adam : weights -> Opt;
  train_step :
    weights -> Opt -> list (Image * nat) -> X -> (weights * Opt * Qc) * X;
  randperm : nat -> X -> list nat * X;
  shuffled_order : nat -> X -> outcome (list nat) * X;
  randperm_perm : forall n x, (randperm n x).1 ≡ₚ seq 0 n;
}.

Section Learning.
Context {X Image Opt : Type} `{Torch X Image Opt}.

Definition lift_total {A} (f : X -> A * X) : M X A :=
  fun x => let '(a, x') := f x in (Ok a, x').

(** [model.load_state_dict(w)] *)
Definition load_state_dict (w : weights) : M X weights :=
  if arch_accepts w then ret w else raise RuntimeError.

(** [DataLoader(data, batch_size=batch_size, shuffle=...)]: the batch size
    must be positive. *)
Definition DataLoader (batch_size : Z) : M X nat :=
  if Z.leb batch_size 0 then raise ValueError
  else ret (Z.to_nat batch_size).

(** [DataLoader(data, batch_size=batch_size, shuffle=True)]: the random
    sampler of a shuffling loader refuses an empty data set when the
    loader is built, and the batch size must be positive. *)
Definition shuffling_DataLoader (data : dataset Image) (batch_size : Z)
  : M X nat :=
  if Nat.eqb (ds_len data) 0 then raise ValueError
  else DataLoader batch_size.

(** [a / b] on Python floats. *)
Definition float_div {S} (a b : Qc) : M S Qc :=
  if decide (b = 0%Qc) then raise ZeroDivisionError else ret (a / b)%Qc.

(** [sum(l)] *)
Definition sum_Qc (l : list Qc) : Qc := foldl Qcplus 0%Qc l.

(** [torch.sum(torch.eq(pred_labels, labels)).item()] *)
Definition count_eq (pred_labels labels : list nat) : nat :=
  length (filter (fun p => p.1 = p.2) (zip pred_labels labels)).

(** The body of the evaluation loop, on the accumulators
    [(loss, total, correct)]. *)
Definition evaluate_batch (model_w : weights) (data : dataset Image)
    (acc : Qc * Qc * Qc) (batch : list nat) : M X (Qc * Qc * Qc) :=
  let '(loss, total, correct) := acc in
  let* items := fetch data batch in
  let images := items.*1 in
  let labels := items.*2 in
  let outputs := net_eval model_w <$> images in
  let batch_loss := nll_loss outputs labels in
  let loss := (loss + batch_loss)%Qc in
  let pred_labels := torch_argmax <$> outputs in
  let correct := (correct + Qc_of_nat (count_eq pred_labels labels))%Qc in
  let total := (total + Qc_of_nat (length labels))%Qc in
  ret (loss, total, correct).

Definition evaluate (model_w : weights) (data : dataset Image)
    (batch_size : Z) : M X (Qc * Qc) :=
  lift_total cnn_mnist;;
  let* model := load_state_dict model_w in
  let* size := DataLoader batch_size in
  let data_loader := batches (seq 0 (ds_len data)) size in
  let* '(loss, total, correct) :=
    for_fold (evaluate_batch model data) data_loader (0, 0, 0)%Qc in
  let* accuracy := float_div correct total in
  ret (accuracy, loss).

(** [int(len(data) * 0.8)] and [random_split]. *)
Definition train_val_split (data : dataset Image)
  : M X (dataset Image * dataset Image) :=
  let train_size :=
    Z.to_nat (int_of_Qc (Qc_of_nat (ds_len data) * Q2Qc (4 # 5))) in
  let* perm := lift_total (randperm (ds_len data)) in
  ret (DatasetSplit data (take train_size perm),
       DatasetSplit data (drop train_size perm)).

(** One pass over the shuffled loader. *)
Definition train_batch (data : dataset Image)
    (st : weights * Opt * list Qc) (batch : list nat)
  : M X (weights * Opt * list Qc) :=
  let '(model, optimizer, batch_loss) := st in
  let* items := fetch data batch in
  let* '(model, optimizer, loss) :=
    lift_total (train_step model optimizer items) in
  ret (model, optimizer, batch_loss ++ [loss]).

Definition train_epoch (data : dataset Image) (size : nat)
    (st : weights * Opt * list Qc) (_ : nat)
  : M X (weights * Opt * list Qc) :=
  let '(model, optimizer, epoch_loss) := st in
  let* order := shuffled_order (ds_len data) in
  let* '(model, optimizer, batch_loss) :=
    for_fold (train_batch data) (batches order size) (model, optimizer, [])
  in
  let* mean_epoch_loss :=
    float_div (sum_Qc batch_loss) (Qc_of_nat (length batch_loss)) in
  ret (model, optimizer, epoch_loss ++ [mean_epoch_loss]).

Definition local_training (model : weights) (epochs : nat)
    (data : dataset Image) (batch_size : Z) : M X (weights * Qc) :=
  let optimizer := adam model in
  let* size := shuffling_DataLoader data batch_size in
  let* '(model, _, epoch_loss) :=
    for_fold (train_epoch data size) (seq 0 epochs) (model, optimizer, [])
  in
  let* mean := float_div (sum_Qc epoch_loss) (Qc_of_nat (length epoch_loss)) in
  ret (model, mean).

End Learning.

(** ** The round orchestrator *)

(** What the script writes to standard output. *)
Inductive line : Type :=
  | RoundBanner (n : nat)             (* | Global training round: n | *)
  | DeviceLine (i size : nat)         (* print(i, len(idxs)) *)
  | MeanTrainLoss (x : Qc)
  | MeanValLoss (x : Qc)
  | MeanValAccuracy (x : Qc)
  | TestingBanner
  | TestAccuracy (x : Qc).

(** The process state: NumPy's generator, torch's generator, and the output
    written so far. *)
Record world (G X : Type) : Type :=
  World { np_rng : G; torch_rng : X; stdout : list line }.
Arguments World {G X} _ _ _.
Arguments np_rng {G X} _.
Arguments torch_rng {G X} _.
Arguments stdout {G X} _.

(** The constants at the head of [__main__]. *)
Record config : Type := Config {
  devices : nat;
  areas : nat;
  random_seed : Z;
  shuffling : bool;
  data_fraction : float;
  global_rounds : nat;
  local_epochs : nat;
  batch_size : Z;
}.

Definition main_config : config :=
  Config 20 4 1 true 0.2%float 40 2 64.

Section Orchestrator.
Context {G X Image Opt : Type} `{NumpyRandom G} `{Torch X Image Opt}.

Variable train_dataset : list (Image * nat).
Variable test_dataset : list (Image * nat).
Variable classes_count : nat.

Definition with_numpy {A} (m : M G A) : M (world G X) A :=
  fun w => let '(r, g) := m (np_rng w) in
           (r, World g (torch_rng w) (stdout w)).

Definition with_torch {A} (m : M X A) : M (world G X) A :=
  fun w => let '(r, x) := m (torch_rng w) in
           (r, World (np_rng w) x (stdout w)).

Definition print (l : line) : M (world G X) unit :=
  fun w => (Ok tt, World (np_rng w) (torch_rng w) (stdout w ++ [l])).

(** [mapping[i]] *)
Definition mapping_getitem (mapping : gmap nat (list nat * list nat))
    (i : nat) : M (world G X) (list nat * list nat) :=
  match mapping !! i with
  | Some entry => ret entry
  | None => raise KeyError
  end.

Definition get_dataset (indexes : list nat) : dataset Image :=
  DatasetSplit (list_dataset train_dataset) indexes.

(** The work of one device in one round: its local parameters, training
    loss, validation loss and validation accuracy. *)
Definition device_step (cfg : config)
    (mapping : gmap nat (list nat * list nat)) (global_model : weights)
    (i : nat) : M (world G X) (weights * Qc * Qc * Qc) :=
  let* '(idxs, _) := mapping_getitem mapping i in
  print (DeviceLine i (length idxs));;
  let data := get_dataset idxs in
  let* '(train_data, validation_data) := with_torch (train_val_split data) in
  let* '(local_model, train_loss) :=
    with_torch (local_training global_model (local_epochs cfg) train_data
                  (batch_size cfg)) in
  let* '(val_accuracy, val_loss) :=
    with_torch (evaluate local_model validation_data (batch_size cfg)) in
  ret (local_model, train_loss, val_loss, val_accuracy).

(** The body of [for i in range(devices)], on the four accumulator lists. *)
Definition device_body (cfg : config)
    (mapping : gmap nat (list nat * list nat)) (global_model : weights)
    (acc : list weights * list Qc * list Qc * list Qc) (i : nat)
  : M (world G X) (list weights * list Qc * list Qc * list Qc) :=
  let '(local_weights, local_losses, val_losses, val_accuracies) := acc in
  let* '(local_model, train_loss, val_loss, val_accuracy) :=
    device_step cfg mapping global_model i in
  ret (local_weights ++ [local_model], local_losses ++ [train_loss],
       val_losses ++ [val_loss], val_accuracies ++ [val_accuracy]).

(** The body of [for round in range(global_rounds)]: from the global
    model at the start of the round to the global model at its end. *)
Definition round_body (cfg : config)
    (mapping : gmap nat (list nat * list nat)) (global_model : weights)
    (round : nat) : M (world G X) weights :=
  print (RoundBanner (round + 1));;
  let* '(local_weights, local_losses, val_losses, val_accuracies) :=
    for_fold (device_body cfg mapping global_model) (seq 0 (devices cfg))
      ([], [], [], []) in
  let* global_weights := of_outcome (average_weights_value local_weights) in
  let* global_model := with_torch (load_state_dict global_weights) in
  let* mean_train_loss :=
    float_div (sum_Qc local_losses) (Qc_of_nat (length local_losses)) in
  let* mean_val_loss :=
    float_div (sum_Qc val_losses) (Qc_of_nat (length val_losses)) in
  let* mean_val_accuracy :=
    float_div (sum_Qc val_accuracies) (Qc_of_nat (length val_accuracies)) in
  print (MeanTrainLoss mean_train_loss);;
  print (MeanValLoss mean_val_loss);;
  print (MeanValAccuracy mean_val_accuracy);;
  ret global_model.

Definition round_loop (cfg : config)
    (mapping : gmap nat (list nat * list nat)) (global_model : weights)
  : M (world G X) weights :=
  for_fold (round_body cfg mapping) (seq 0 (global_rounds cfg)) global_model.

Definition main (cfg : config) : M (world G X) Qc :=
  with_torch (put_state (torch_manual_seed 1));;
  let* mapping :=
    with_numpy
      (dataset_to_nodes_partitioning train_dataset classes_count
         (Z.of_nat (devices cfg)) (Z.of_nat (areas cfg)) (random_seed cfg)
         (shuffling cfg) (data_fraction cfg)) in
  let* global_model := with_torch (lift_total cnn_mnist) in
  let* global_model := round_loop cfg mapping global_model in
  let* '(test_acc, test_loss) :=
    with_torch (evaluate global_model (list_dataset test_dataset) 64) in
  print TestingBanner;;
  print (TestAccuracy test_acc);;
  ret test_acc.

End Orchestrator.

(** * Properties *)

(** ** The monad *)

Lemma bind_Ok {S A B} (m : M S A) (k : A -> M S B) s b s' :
  bind m k s = (Ok b, s') ->
  exists a s1, m s = (Ok a, s1) /\ k a s1 = (Ok b, s').
Proof.
  unfold bind. destruct (m s) as [[a|e] s1]; [eauto | discriminate].
Qed.

Lemma bind_step {S A B} (m : M S A) (k : A -> M S B) s a s1 :
  m s = (Ok a, s1) -> bind m k s = k a s1.
Proof. unfold bind. now intros ->. Qed.

Lemma bind_raise {S A B} (m : M S A) (k : A -> M S B) s e s1 :
  m s = (Raise e, s1) -> bind m k s = (Raise e, s1).
Proof. unfold bind. now intros ->. Qed.

Tactic Notation "inv_bind" hyp(H) "as" ident(H1) :=
  let a := fresh "a" in let s := fresh "s" in
  apply bind_Ok in H; destruct H as (a & s & H1 & H).

Ltac inv_ret H := unfold ret in H; injection H as H; subst.

(** A loop invariant for [for_fold], on runs that complete. *)
Lemma for_fold_inv {S A B} (I : list B -> A -> S -> Prop)
    (body : A -> B -> M S A) (l : list B) :
  forall done acc s acc' s',
    I done acc s ->
    (forall done a x s a' s',
        x ∈ l -> I done a s -> body a x s = (Ok a', s') ->
        I (done ++ [x]) a' s') ->
    for_fold body l acc s = (Ok acc', s') ->
    I (done ++ l) acc' s'.
Proof.
  induction l as [|x l IH]; intros done acc s acc' s' HI Hstep Hrun; simpl in *.
  - inv_ret Hrun. now rewrite app_nil_r.
  - inv_bind Hrun as Hrun0.
    replace (done ++ x :: l) with ((done ++ [x]) ++ l)
      by now rewrite <- app_assoc.
    eapply IH; [ | | exact Hrun].
    + eapply Hstep; [ | exact HI | exact Hrun0]. left.
    + intros; eapply Hstep; eauto. now right.
Qed.

(** A loop whose body always completes, completes. *)
Lemma for_fold_total {S A B} (I : A -> S -> Prop)
    (body : A -> B -> M S A) (l : list B) :
  forall acc s,
    I acc s ->
    (forall a x s, x ∈ l -> I a s ->
        exists a' s', body a x s = (Ok a', s') /\ I a' s') ->
    exists acc' s', for_fold body l acc s = (Ok acc', s') /\ I acc' s'.
Proof.
  induction l as [|x l IH]; intros acc s HI Hstep; simpl.
  - now exists acc, s.
  - destruct (Hstep acc x s) as (a' & s1 & Hb & HI'); [left | done | ].
    rewrite (bind_step _ _ _ _ _ Hb). apply IH; [done | ].
    intros; apply Hstep; [now right | done].
Qed.

(** ** Slices and [array_split] *)

Lemma length_slices {A} sizes (l : list A) :
  length (slices sizes l) = length sizes.
Proof. revert l. induction sizes; intros; simpl; auto. Qed.

Lemma concat_slices {A} sizes (l : list A) :
  concat (slices sizes l) = take (sum_list sizes) l.
Proof.
  revert l. induction sizes as [|n sizes IH]; intros l; simpl.
  - now rewrite take_0.
  - now rewrite IH, take_take_drop.
Qed.

Lemma lookup_slices {A} sizes (l : list A) i c :
  slices sizes l !! i = Some c ->
  exists n, sizes !! i = Some n /\
            c = take n (drop (sum_list (take i sizes)) l).
Proof.
  revert l i. induction sizes as [|n sizes IH]; intros l i Hc; [done | ].
  destruct i as [|i]; simpl in *.
  - injection Hc as <-. now exists n.
  - apply IH in Hc as (m & Hm & ->). exists m. split; [done | ].
    now rewrite drop_drop.
Qed.

Lemma lookup_slices_is_Some {A} sizes (l : list A) i n :
  sizes !! i = Some n -> is_Some (slices sizes l !! i).
Proof.
  intros Hn. apply lookup_lt_is_Some. rewrite length_slices.
  now apply lookup_lt_Some in Hn.
Qed.

Lemma elem_of_slice {A} sizes (l : list A) i c x :
  slices sizes l !! i = Some c -> x ∈ c -> x ∈ l.
Proof.
  intros Hc Hx. apply lookup_slices in Hc as (n & _ & ->).
  apply elem_of_take in Hx as (k & Hx & _).
  rewrite lookup_drop in Hx. eapply list_elem_of_lookup_2, Hx.
Qed.

Lemma slices_disjoint {A} sizes (l : list A) i j ci cj x :
  NoDup l -> i <> j ->
  slices sizes l !! i = Some ci -> slices sizes l !! j = Some cj ->
  x ∈ ci -> x ∈ cj -> False.
Proof.
  revert l i j. induction sizes as [|n sizes IH]; intros l i j Hnd Hij Hi Hj Hxi Hxj;
    [done | ].
  assert (Hsplit : forall c k, slices sizes (drop n l) !! k = Some c ->
             x ∈ take n l -> x ∈ c -> False).
  { intros c k Hc Hx1 Hx2. rewrite <- (take_drop n l) in Hnd.
    apply NoDup_app in Hnd as (_ & Hd & _). apply (Hd x Hx1).
    eapply elem_of_slice; eauto. }
  destruct i as [|i], j as [|j]; simpl in *; try done.
  - injection Hi as <-. eauto.
  - injection Hj as <-. eauto.
  - eapply (IH (drop n l) i j); eauto.
    rewrite <- (take_drop n l) in Hnd. now apply NoDup_app in Hnd as (_ & _ & ?).
Qed.

Lemma length_slice {A} sizes (l : list A) i c n :
  sum_list sizes = length l ->
  slices sizes l !! i = Some c -> sizes !! i = Some n -> length c = n.
Proof.
  revert l i. induction sizes as [|m sizes IH]; intros l i Hsum Hc Hn; [done | ].
  simpl in Hsum. destruct i as [|i]; simpl in *.
  - injection Hc as <-. injection Hn as ->. rewrite length_take. lia.
  - eapply (IH (drop m l)); eauto. rewrite length_drop. lia.
Qed.

Lemma length_section_sizes total sections :
  0 < sections -> length (section_sizes total sections) = sections.
Proof.
  intros Hs. unfold section_sizes.
  rewrite length_app, !length_replicate.
  pose proof (Nat.mod_upper_bound total sections). lia.
Qed.

Lemma sum_section_sizes total sections :
  0 < sections -> sum_list (section_sizes total sections) = total.
Proof.
  intros Hs. unfold section_sizes.
  rewrite sum_list_with_app, !sum_list_replicate.
  pose proof (Nat.mod_upper_bound total sections).
  pose proof (Nat.div_mod_eq total sections). nia.
Qed.

Lemma lookup_section_sizes total sections i n :
  section_sizes total sections !! i = Some n ->
  n = total / sections \/ n = S (total / sections).
Proof.
  unfold section_sizes. intros Hn.
  apply lookup_app_Some in Hn as [Hn | [_ Hn]];
    apply lookup_replicate in Hn as [-> _]; auto.
Qed.

Lemma length_array_split {A} (l : list A) n :
  0 < n -> length (array_split l n) = n.
Proof.
  intros. unfold array_split. now rewrite length_slices, length_section_sizes.
Qed.

Lemma concat_array_split {A} (l : list A) n :
  0 < n -> concat (array_split l n) = l.
Proof.
  intros. unfold array_split.
  rewrite concat_slices, sum_section_sizes by done. apply take_ge. lia.
Qed.

Lemma elem_of_array_split {A} (l : list A) n x :
  0 < n -> x ∈ l -> exists i c, array_split l n !! i = Some c /\ x ∈ c.
Proof.
  intros Hn Hx. rewrite <- (concat_array_split l n Hn) in Hx.
  apply list_elem_of_In, in_concat in Hx as (c & Hc & Hx).
  apply list_elem_of_In, list_elem_of_lookup in Hc as (i & Hc).
  apply list_elem_of_In in Hx. eauto.
Qed.

(** A section of [array_split] is never shorter than the quotient. *)
Lemma length_array_split_ge {A} (l : list A) n i c :
  0 < n -> array_split l n !! i = Some c -> length l / n <= length c.
Proof.
  intros Hn Hc. unfold array_split in Hc.
  destruct (lookup_slices _ _ _ _ Hc) as (m & Hm & _).
  rewrite (length_slice _ _ _ _ m (sum_section_sizes _ _ Hn) Hc Hm).
  apply lookup_section_sizes in Hm. lia.
Qed.

(** When the count divides the length, section [i] is the [i]-th block. *)
Lemma array_split_seq_even q n i c :
  0 < n -> array_split (seq 0 (n * q)) n !! i = Some c -> c = seq (i * q) q.
Proof.
  intros Hn Hc. unfold array_split, section_sizes in Hc.
  rewrite length_seq in Hc.
  replace ((n * q) mod n) with 0 in Hc
    by (symmetry; rewrite Nat.mul_comm; apply Nat.Div0.mod_mul).
  replace (n * q / n) with q in Hc
    by (symmetry; rewrite Nat.mul_comm; apply Nat.div_mul; lia).
  simpl in Hc. rewrite Nat.sub_0_r in Hc.
  apply lookup_slices in Hc as (m & Hm & ->).
  apply lookup_replicate in Hm as [-> Hi].
  rewrite take_replicate, sum_list_replicate, Nat.min_l by lia.
  rewrite drop_seq, take_seq. f_equal. nia.
Qed.

(** ** The partitioner *)

Lemma list_index_Ok {S A} (l : list A) i (s : S) x s' :
  list_index l i s = (Ok x, s') -> l !! i = Some x /\ s' = s.
Proof.
  unfold list_index. destruct (l !! i); [ | discriminate].
  intros H; now inv_ret H.
Qed.

Lemma fancy_index_Ok {S A} (l : list A) indexes (s : S) picked s' :
  fancy_index l indexes s = (Ok picked, s') ->
  s' = s /\ length picked = length indexes /\ Forall (fun x => x ∈ l) picked.
Proof.
  revert picked s'. induction indexes as [|i indexes IH]; intros picked s' Hrun;
    simpl in Hrun.
  - inv_ret Hrun. auto.
  - inv_bind Hrun as Hx. apply list_index_Ok in Hx as [Hx ->].
    inv_bind Hrun as Hrest. apply IH in Hrest as (-> & Hlen & Hall).
    inv_ret Hrun. simpl. repeat split; [congruence | ].
    constructor; [ | done]. eapply list_elem_of_lookup_2, Hx.
Qed.

Lemma fancy_index_total {S A} (l : list A) indexes (s : S) :
  Forall (fun i => i < length l) indexes ->
  exists picked, fancy_index l indexes s = (Ok picked, s).
Proof.
  induction 1 as [|i indexes Hi _ [picked IH]]; simpl.
  - now exists [].
  - destruct (lookup_lt_is_Some_2 l i Hi) as [x Hx].
    exists (x :: picked). unfold list_index. rewrite Hx.
    unfold bind at 1, ret at 1. now rewrite (bind_step _ _ _ _ _ IH).
Qed.

Lemma Qc_of_nat_0 : Qc_of_nat 0 = 0%Qc.
Proof. now apply Qc_is_canon. Qed.

Lemma int_of_Qc_nonneg (x : Qc) : (0 <= x)%Qc -> (0 <= int_of_Qc x)%Z.
Proof.
  intros Hx. unfold int_of_Qc. apply Z.quot_pos; [ | lia].
  unfold Qcle, Qle in Hx. simpl in Hx. lia.
Qed.

Lemma Qc_of_nat_nonneg n : (0 <= Qc_of_nat n)%Qc.
Proof.
  unfold Qc_of_nat, Qc_of_Z, Qcle, Qle. simpl. lia.
Qed.

(** ** Binary64: products of a length and a fraction stay finite *)

(** The fractions for which [int(len * data_fraction)] is a count whatever
    the length: the binary64 numbers from [0] to [2^800]. *)
Definition fraction_in_range (f : float) : bool :=
  ((0 <=? f)%float && (f <=? 0x1p800)%float)%bool.

Lemma digits2_pos_size (p : positive) : digits2_pos p = Pos.size p.
Proof. induction p as [p IH|p IH|]; simpl; congruence. Qed.

Lemma Zdigits2_log2 (p : positive) :
  Zdigits2 (Zpos p) = (Z.log2 (Zpos p) + 1)%Z.
Proof.
  unfold Zdigits2. rewrite digits2_pos_size.
  destruct p as [p|p|]; simpl; lia.
Qed.

Lemma Zdigits2_nonneg (m : Z) : (0 <= Zdigits2 m)%Z.
Proof. destruct m; simpl; lia. Qed.

Lemma Zdigits2_mono (a b : Z) :
  (0 <= a <= b)%Z -> (Zdigits2 a <= Zdigits2 b)%Z.
Proof.
  intros [Ha Hab]. destruct a as [|a|a]; [apply Zdigits2_nonneg | | lia].
  destruct b as [|b|b]; try lia.
  rewrite !Zdigits2_log2.
  pose proof (Z.log2_le_mono (Zpos a) (Zpos b) Hab). lia.
Qed.

Lemma Zdigits2_succ (a : Z) :
  (0 <= a)%Z -> (Zdigits2 (a + 1) <= Zdigits2 a + 1)%Z.
Proof.
  intros Ha. destruct a as [|a|a]; [simpl; lia | | lia].
  change (Zpos a + 1)%Z with (Z.succ (Zpos a)).
  destruct (Z.succ (Zpos a)) as [|b|b] eqn:Hb; try lia.
  rewrite !Zdigits2_log2, <- Hb.
  pose proof (Z.log2_succ_le (Zpos a)). lia.
Qed.

Lemma Zdigits2_mul (a b : positive) :
  (Zdigits2 (Zpos (a * b)) <= Zdigits2 (Zpos a) + Zdigits2 (Zpos b))%Z.
Proof.
  rewrite !Zdigits2_log2, Pos2Z.inj_mul.
  pose proof (Z.log2_mul_above (Zpos a) (Zpos b)). lia.
Qed.

Lemma Zdigits2_lt_pow2 (a k : Z) :
  (0 <= k)%Z -> (0 <= a < 2 ^ k)%Z -> (Zdigits2 a <= k)%Z.
Proof.
  intros Hk [Ha Hlt]. destruct a as [|a|a]; [simpl; lia | | lia].
  rewrite Zdigits2_log2.
  assert (Z.log2 (Zpos a) < k)%Z by (apply Z.log2_lt_pow2; lia). lia.
Qed.

Lemma shr_1_bounds (mrs : shr_record) :
  (0 <= shr_m mrs)%Z -> (0 <= shr_m (shr_1 mrs) <= shr_m mrs)%Z.
Proof.
  destruct mrs as [m r s]. simpl. intros Hm.
  destruct m as [|p|p]; simpl; [lia | | lia].
  destruct p; simpl; lia.
Qed.

Lemma iter_shr_1_bounds (p : positive) (mrs : shr_record) :
  (0 <= shr_m mrs)%Z ->
  (0 <= shr_m (SpecFloat.iter_pos shr_1 p mrs) <= shr_m mrs)%Z.
Proof.
  revert mrs. induction p as [p IH|p IH|]; intros mrs Hm; simpl.
  - pose proof (shr_1_bounds mrs Hm) as H0.
    pose proof (IH _ (proj1 H0)) as H1.
    pose proof (IH _ (proj1 H1)) as H2. lia.
  - pose proof (IH mrs Hm) as H1.
    pose proof (IH _ (proj1 H1)) as H2. lia.
  - apply shr_1_bounds, Hm.
Qed.

Lemma shr_bounds (mrs : shr_record) (e n : Z) :
  (0 <= shr_m mrs)%Z ->
  (0 <= shr_m (shr mrs e n).1 <= shr_m mrs)%Z
  /\ ((shr mrs e n).2 <= Z.max e (e + n))%Z.
Proof.
  intros Hm. unfold shr. destruct n as [|p|p]; simpl; try lia.
  split; [apply iter_shr_1_bounds, Hm | lia].
Qed.

Lemma shr_fexp_bounds (m e : Z) (l : location) :
  (0 <= m)%Z ->
  (0 <= shr_m (shr_fexp prec emax m e l).1 <= m)%Z
  /\ ((shr_fexp prec emax m e l).2
      <= Z.max e (Z.max (Zdigits2 m + e - 53) (-1074)))%Z.
Proof.
  intros Hm. unfold shr_fexp.
  assert (Hrec : shr_m (shr_record_of_loc m l) = m) by (destruct l as [|[]]; reflexivity).
  pose proof (shr_bounds (shr_record_of_loc m l) e
                (fexp prec emax (Zdigits2 m + e) - e)) as [H1 H2];
    [rewrite Hrec; exact Hm | ].
  rewrite Hrec in H1. split; [exact H1 | ].
  etransitivity; [exact H2 | ].
  unfold fexp, SpecFloat.emin, emax, prec. lia.
Qed.

Lemma round_nearest_even_bounds (m : Z) (l : location) :
  (0 <= m)%Z -> (0 <= round_nearest_even m l <= m + 1)%Z.
Proof.
  intros Hm. unfold round_nearest_even.
  destruct l as [|[]]; try lia; destruct (Z.even m); lia.
Qed.

(** Rounding a positive mantissa of at most [D] digits with an exponent of
    at most [E] gives zero or a finite number of the same sign, as long as
    the exponent stays below the largest one. *)
Lemma binary_round_aux_finite (sx : bool) (mx : positive) (ex D E : Z) :
  (Zdigits2 (Zpos mx) <= D)%Z -> (ex <= E)%Z -> (53 <= D)%Z ->
  (-1074 <= E)%Z -> (E + 2 * D - 105 <= 971)%Z ->
  binary_round_aux prec emax sx (Zpos mx) ex loc_Exact = S754_zero sx
  \/ exists m e,
      binary_round_aux prec emax sx (Zpos mx) ex loc_Exact
      = S754_finite sx m e
      /\ (e <= E + 2 * D - 105)%Z.
Proof.
  intros HD HE HD53 HEmin Hmax. unfold binary_round_aux.
  pose proof (shr_fexp_bounds (Zpos mx) ex loc_Exact ltac:(lia)) as [Hm1 He1].
  destruct (shr_fexp prec emax (Zpos mx) ex loc_Exact) as [mrs' e'].
  cbn [fst snd] in Hm1, He1.
  pose proof (round_nearest_even_bounds (shr_m mrs') (loc_of_shr_record mrs')
                (proj1 Hm1)) as Hr.
  set (m1 := round_nearest_even (shr_m mrs') (loc_of_shr_record mrs')) in *.
  assert (Hd1 : (Zdigits2 m1 <= D + 1)%Z).
  { etransitivity; [apply (Zdigits2_mono m1 (Zpos mx + 1)); lia | ].
    etransitivity; [apply Zdigits2_succ; lia | lia]. }
  pose proof (shr_fexp_bounds m1 e' loc_Exact (proj1 Hr)) as [Hm2 He2].
  destruct (shr_fexp prec emax m1 e' loc_Exact) as [mrs'' e''].
  cbn [fst snd] in Hm2, He2.
  assert (He'' : (e'' <= E + 2 * D - 105)%Z) by lia.
  destruct (shr_m mrs'') as [|m|m]; [left; reflexivity | | lia].
  right. exists m, e''. split; [ | exact He''].
  assert (Hle : (e'' <=? emax - prec)%Z = true)
    by (apply Z.leb_le; unfold emax, prec; lia).
  rewrite Hle. reflexivity.
Qed.

Lemma digits2_pos_iter_xO (m d : positive) :
  digits2_pos (Pos.iter xO m d) = (digits2_pos m + d)%positive.
Proof.
  induction d as [|d IH] using Pos.peano_ind.
  - simpl. lia.
  - rewrite Pos.iter_succ. simpl. rewrite IH. lia.
Qed.

(** [float(n)] of a 63-bit [n] is zero or a positive number with a small
    exponent. *)
Lemma of_uint63_shape (u : PrimInt63.int) :
  Prim2SF (of_uint63 u) = S754_zero false
  \/ exists m e,
      Prim2SF (of_uint63 u) = S754_finite false m e
      /\ (Zdigits2 (Zpos m) <= 53)%Z /\ (e <= 21)%Z.
Proof.
  pose proof (Prim2SF_valid (of_uint63 u)) as Hvalid.
  rewrite of_uint63_spec in *. unfold binary_normalize in *.
  pose proof (Uint63.to_Z_bounded u) as Hu.
  destruct (Uint63.to_Z u) as [|p|p]; [left; reflexivity | | lia].
  unfold binary_round in *.
  assert (Hshift : forall mz ez,
             shl_align p 0 (fexp prec emax (Zpos (digits2_pos p) + 0)) = (mz, ez) ->
             (Zdigits2 (Zpos mz) <= 63)%Z /\ (ez <= 0)%Z).
  { intros mz ez. unfold shl_align.
    assert (Hdp : (Zdigits2 (Zpos p) <= 63)%Z).
    { apply Zdigits2_lt_pow2; [lia | ]. change Uint63.wB with (2 ^ 63)%Z in Hu. lia. }
    destruct (fexp prec emax (Zpos (digits2_pos p) + 0) - 0)%Z as [|d|d] eqn:Hd;
      intros [= <- <-]; try (split; [exact Hdp | lia]).
    unfold fexp, SpecFloat.emin, emax, prec in *.
    unfold Zdigits2 in *. rewrite digits2_pos_iter_xO. lia. }
  destruct (shl_align p 0 (fexp prec emax (Zpos (digits2_pos p) + 0)))
    as [mz ez].
  destruct (Hshift mz ez eq_refl) as [Hmz Hez].
  destruct (binary_round_aux_finite false mz ez 63 0 Hmz Hez)
    as [Hzero|(m & e & Hfin & He)]; try lia.
  - left. exact Hzero.
  - right. exists m, e. split; [exact Hfin | split; [ | lia]].
    rewrite Hfin in Hvalid. unfold SpecFloat.valid_binary, bounded in Hvalid.
    apply andb_prop in Hvalid as [Hcanon _].
    unfold canonical_mantissa in Hcanon. apply Z.eqb_eq in Hcanon.
    unfold fexp, SpecFloat.emin, emax, prec, Zdigits2 in *. lia.
Qed.

(** A fraction between [0] and [2^800] is a zero or a positive number with
    a bounded exponent. *)
Lemma fraction_shape (f : float) :
  (0 <=? f)%float = true -> (f <=? 0x1p800)%float = true ->
  (exists s, Prim2SF f = S754_zero s)
  \/ exists m e,
      Prim2SF f = S754_finite false m e
      /\ (Zdigits2 (Zpos m) <= 53)%Z /\ (e <= 748)%Z.
Proof.
  rewrite !FloatAxioms.leb_spec. intros Hlow Hhigh.
  pose proof (Prim2SF_valid f) as Hvalid.
  change (Prim2SF 0) with (S754_zero false) in Hlow.
  change (Prim2SF 0x1p800) with (S754_finite false 4503599627370496 748)
    in Hhigh.
  destruct (Prim2SF f) as [s|s| |s m e].
  - left. exists s. reflexivity.
  - destruct s; discriminate.
  - discriminate.
  - right. destruct s; [discriminate | ].
    exists m, e. split; [reflexivity | ].
    unfold SpecFloat.valid_binary, bounded in Hvalid.
    apply andb_prop in Hvalid as [Hcanon _].
    unfold canonical_mantissa in Hcanon. apply Z.eqb_eq in Hcanon.
    split; [unfold fexp, SpecFloat.emin, emax, prec, Zdigits2 in *; lia | ].
    unfold SFleb, SFcompare in Hhigh.
    destruct (Z.compare_spec e 748) as [Heq|Hlt|Hgt]; [lia | lia | ].
    discriminate.
Qed.

(** [int(len * f)] is a non-negative integer for such a fraction. *)
Lemma int_of_float_product (n : nat) (f : float) :
  (0 <=? f)%float = true -> (f <=? 0x1p800)%float = true ->
  exists k, int_of_float (float_of_len n * f) = Ok k /\ (0 <= k)%Z.
Proof.
  intros Hlow Hhigh. unfold int_of_float, float_of_len.
  rewrite FloatAxioms.mul_spec. unfold SF64mul.
  destruct (of_uint63_shape (Uint63.of_Z (Z.of_nat n)))
    as [Hu|(m1 & e1 & Hu & Hd1 & He1)];
    destruct (fraction_shape f Hlow Hhigh)
      as [[s Hf]|(m2 & e2 & Hf & Hd2 & He2)];
    rewrite Hu, Hf; simpl SFmul; try (exists 0%Z; split; [reflexivity | lia]).
  pose proof (Zdigits2_mul m1 m2) as Hd.
  destruct (binary_round_aux_finite false (m1 * m2) (e1 + e2) 106 769)
    as [Hzero|(m & e & Hfin & He)]; try lia.
  - rewrite Hzero. exists 0%Z. split; [reflexivity | lia].
  - rewrite Hfin. eexists. split; [reflexivity | ].
    simpl. apply Z.shiftl_nonneg. lia.
Qed.

Lemma int_of_float_empty (f : float) :
  (0 <=? f)%float = true -> (f <=? 0x1p800)%float = true ->
  int_of_float (float_of_len 0 * f) = Ok 0%Z.
Proof.
  intros Hlow Hhigh. unfold int_of_float.
  rewrite FloatAxioms.mul_spec. unfold SF64mul.
  change (Prim2SF (float_of_len 0)) with (S754_zero false).
  destruct (fraction_shape f Hlow Hhigh) as [[s Hf]|(m & e & Hf & _)];
    rewrite Hf; reflexivity.
Qed.

Section PartitionerProperties.
Context {G : Type} `{NumpyRandom G}.
Context {Image : Type}.
Variable train_dataset : list (Image * nat).
Variable classes_count : nat.

Abbreviation records_of := (records_per_class train_dataset).
Abbreviation partition :=
  (dataset_to_nodes_partitioning train_dataset classes_count).

Lemma np_random_choice_Ok a size g indexes g' :
  np_random_choice a size g = (Ok indexes, g') ->
  (0 <= size)%Z /\ length indexes = Z.to_nat size
  /\ Forall (fun i => i < a) indexes.
Proof.
  unfold np_random_choice.
  destruct (Z.ltb_spec size 0); [discriminate | ].
  destruct (Nat.eqb a 0 && negb (Z.eqb size 0)) eqn:E; [discriminate | ].
  pose proof (np_choice_length a (Z.to_nat size) g) as Hlen.
  pose proof (np_choice_bound a (Z.to_nat size) g) as Hb.
  destruct (np_choice a (Z.to_nat size) g) as [l g1].
  intros Heq. injection Heq as <- <-. simpl in *.
  repeat split; [done | done | ].
  destruct Hb as [Hb | ->]; [done | ]. simpl in E.
  apply negb_false_iff, Z.eqb_eq in E. subst size.
  destruct l; [constructor | discriminate].
Qed.

Lemma np_random_choice_total a size g :
  (0 <= size)%Z -> (a = 0 -> size = 0%Z) ->
  exists indexes g', np_random_choice a size g = (Ok indexes, g').
Proof.
  intros Hsize Ha. unfold np_random_choice.
  destruct (Z.ltb_spec size 0); [lia | ].
  destruct (Nat.eqb_spec a 0) as [-> | ]; simpl.
  - rewrite Ha by done. simpl. destruct (np_choice 0 _ g); eauto.
  - destruct (np_choice a _ g); eauto.
Qed.

Lemma of_outcome_Ok {S A} (r : outcome A) (s : S) a s' :
  of_outcome r s = (Ok a, s') -> r = Ok a /\ s' = s.
Proof. destruct r; intros Heq; now inv_ret Heq. Qed.

(** What one device receives: [picked] is drawn from the section of
    [records] at the device's position in its area. *)
Definition node_entry (nodes_per_area : nat) (data_fraction : float)
    (records : list nat) (node : nat) (picked : list nat) : Prop :=
  exists chunk bound,
    array_split records nodes_per_area !! (node mod nodes_per_area)
      = Some chunk
    /\ int_of_float (float_of_len (length chunk) * data_fraction) = Ok bound
    /\ (0 <= bound)%Z
    /\ length picked = Z.to_nat bound
    /\ Forall (fun i => i ∈ chunk) picked.

Lemma node_body_Ok npa f records classes m node g m' g' :
  node_body npa f (array_split records npa) classes m node g = (Ok m', g') ->
  exists picked,
    m' = <[node := (picked, classes)]> m /\ node_entry npa f records node picked.
Proof.
  unfold node_body. intros Hrun.
  inv_bind Hrun as Hmod. unfold py_mod in Hmod.
  destruct (Nat.eqb_spec npa 0); [discriminate | ]. inv_ret Hmod.
  inv_bind Hrun as Hchunk. apply list_index_Ok in Hchunk as [Hchunk ->].
  inv_bind Hrun as Hbound. apply of_outcome_Ok in Hbound as [Hbound ->].
  inv_bind Hrun as Hch. apply np_random_choice_Ok in Hch as (Hpos & Hlen & _).
  inv_bind Hrun as Hpick. apply fancy_index_Ok in Hpick as (-> & Hlen' & Hall).
  inv_ret Hrun. eexists; split; [done | ].
  eexists _, _. repeat split; [exact Hchunk | exact Hbound | done | congruence | done].
Qed.

Lemma nodes_loop_Ok npa f records classes nodes m g m' g' :
  for_fold (node_body npa f (array_split records npa) classes) nodes m g
    = (Ok m', g') ->
  (forall n, n ∉ nodes -> m' !! n = m !! n)
  /\ (forall n, n ∈ nodes ->
        exists picked, m' !! n = Some (picked, classes)
                       /\ node_entry npa f records n picked).
Proof.
  revert m g. induction nodes as [|node nodes IH]; intros m g Hrun;
    simpl in Hrun.
  - inv_ret Hrun. split; [done | ]. intros n Hn. inversion Hn.
  - inv_bind Hrun as Hnode. apply node_body_Ok in Hnode as (picked & -> & Hentry).
    apply IH in Hrun as [Hout Hin]. split.
    + intros n Hn. rewrite Hout by (intros ?; apply Hn; now right).
      apply lookup_insert_ne. intros ->. apply Hn. left.
    + intros n Hn. destruct (decide (n ∈ nodes)) as [Hn' | Hn']; [auto | ].
      apply elem_of_cons in Hn as [-> | ?]; [ | done].
      rewrite Hout by done. rewrite lookup_insert_eq. eauto.
Qed.

Lemma np_array_split_Ok {S A} (l : list A) n (s : S) r s' :
  np_array_split l n s = (Ok r, s') ->
  (0 < n)%Z /\ r = array_split l (Z.to_nat n) /\ s' = s.
Proof.
  unfold np_array_split. destruct (Z.leb_spec n 0); [discriminate | ].
  intros Heq. now inv_ret Heq.
Qed.

(** The records of an area, as the area's devices see them: the records
    of the area's classes, permuted when [shuffling] is set. *)
Definition area_records (shuffling : bool) (classes records : list nat)
  : Prop :=
  records ≡ₚ records_of classes
  /\ (shuffling = false -> records = records_of classes).

Lemma area_body_Ok npa shuffling f m nodes classes g m' g' :
  area_body train_dataset npa shuffling f m (nodes, classes) g = (Ok m', g') ->
  (0 < npa)%Z /\
  exists records,
    area_records shuffling classes records
    /\ (forall n, n ∉ nodes -> m' !! n = m !! n)
    /\ (forall n, n ∈ nodes ->
          exists picked, m' !! n = Some (picked, classes)
                         /\ node_entry (Z.to_nat npa) f records n picked).
Proof.
  unfold area_body. intros Hrun.
  inv_bind Hrun as Hrec.
  assert (Hperm : area_records shuffling classes a).
  { destruct shuffling.
    - unfold np_random_shuffle in Hrec.
      pose proof (np_shuffle_perm (records_of classes) g) as Hp.
      destruct (np_shuffle _ g). injection Hrec as <- <-. now split.
    - inv_ret Hrec. now split. }
  inv_bind Hrun as Hsplit. apply np_array_split_Ok in Hsplit as (Hpos & -> & ->).
  apply nodes_loop_Ok in Hrun as [Hout Hin]. eauto.
Qed.

(** The post-condition of the loop over the areas. *)
Definition areas_post (npa : nat) (shuffling : bool) (f : float)
    (areas_list : list (list nat * list nat)) (m0 m : index_mapping)
  : Prop :=
  exists recss : list (list nat),
    length recss = length areas_list
    /\ (forall a nodes classes records,
          areas_list !! a = Some (nodes, classes) ->
          recss !! a = Some records ->
          area_records shuffling classes records)
    /\ (forall n entry, m !! n = Some entry ->
          m0 !! n = Some entry \/
          exists a nodes classes records,
            areas_list !! a = Some (nodes, classes)
            /\ recss !! a = Some records
            /\ n ∈ nodes /\ entry.2 = classes
            /\ node_entry npa f records n entry.1)
    /\ (forall n, is_Some (m0 !! n) -> is_Some (m !! n))
    /\ (forall a nodes classes n,
          areas_list !! a = Some (nodes, classes) -> n ∈ nodes ->
          is_Some (m !! n)).

Lemma areas_loop_Ok npa shuffling f areas_list m0 g m g' :
  for_fold (area_body train_dataset npa shuffling f) areas_list m0 g
    = (Ok m, g') ->
  areas_post (Z.to_nat npa) shuffling f areas_list m0 m
  /\ (areas_list <> [] -> (0 < npa)%Z).
Proof.
  revert m0 g. induction areas_list as [|[nodes classes] areas_list IH];
    intros m0 g Hrun; simpl in Hrun.
  - inv_ret Hrun. split; [ | done]. exists [].
    split; [done | ]. split; [intros i ? ? ? Hi; now rewrite lookup_nil in Hi | ].
    split; [auto | ]. split; [auto | ].
    intros i ? ? ? Hi; now rewrite lookup_nil in Hi.
  - inv_bind Hrun as Harea.
    apply area_body_Ok in Harea as (Hpos & records & Hrec & Hout & Hin).
    apply IH in Hrun as [(recss & Hlen & Hperm & Hentry & Hmono & Hdom) _].
    split; [ | done]. exists (records :: recss).
    split; [ | split; [ | split; [ | split]]].
    + simpl. congruence.
    + intros [|i] ? ? ? Ha Hr; simpl in *; [ | eauto].
      injection Ha as <- <-. injection Hr as <-. done.
    + intros n entry Hn. apply Hentry in Hn as [Hn | Hn].
      * destruct (decide (n ∈ nodes)) as [Hmem | Hmem].
        -- right. destruct (Hin n Hmem) as (picked & Hp & He).
           rewrite Hp in Hn. injection Hn as <-.
           exists 0, nodes, classes, records. simpl. auto.
        -- left. now rewrite <- Hout.
      * right. destruct Hn as (i & ns & cs & rs & ? & ? & ?).
        exists (S i), ns, cs, rs. simpl. auto.
    + intros n Hn. apply Hmono.
      destruct (decide (n ∈ nodes)) as [Hmem | Hmem].
      * destruct (Hin n Hmem) as (picked & -> & _). eauto.
      * now rewrite Hout.
    + intros [|i] ns cs n Ha Hmem; simpl in *; [ | eauto].
      injection Ha as <- <-. apply Hmono.
      destruct (Hin n Hmem) as (picked & -> & _). eauto.
Qed.

Lemma elem_of_records_per_class classes i :
  i ∈ records_of classes <->
  exists img lab, train_dataset !! i = Some (img, lab) /\ lab ∈ classes.
Proof.
  unfold records_per_class, enumerate.
  rewrite list_elem_of_fmap. split.
  - intros ([j [img lab]] & -> & Hr). apply list_elem_of_filter in Hr as [Hlab Hr].
    apply list_elem_of_lookup in Hr as (k & Hk).
    apply lookup_zip_with_Some in Hk as (x & y & Heq & Hx & Hy).
    simplify_eq. apply lookup_seq in Hx as [-> _]. simpl in *. eauto.
  - intros (img & lab & Hi & Hlab). exists (i, (img, lab)). split; [done | ].
    apply list_elem_of_filter. split; [done | ].
    apply list_elem_of_lookup. exists i.
    apply lookup_zip_with_Some. exists i, (img, lab). repeat split; [ | done].
    apply lookup_seq. split; [done | ]. now apply lookup_lt_Some in Hi.
Qed.

Lemma NoDup_records_per_class classes : NoDup (records_of classes).
Proof.
  unfold records_per_class, enumerate.
  eapply sublist_NoDup; [apply (NoDup_seq 0 (length train_dataset)) | ].
  rewrite <- (fst_zip (seq 0 (length train_dataset)) train_dataset) at 2
    by (rewrite length_seq; lia).
  apply fmap_sublist, sublist_filter.
Qed.

(** What a mapping returned by the partitioner satisfies: [recss] are the
    records of the areas as their devices saw them. *)
Definition partition_post (nodes_count areas : Z) (shuffling : bool)
    (f : float) (m : index_mapping) : Prop :=
  (0 < areas)%Z /\ (0 < Z.quot nodes_count areas)%Z /\
  let npa := Z.to_nat (Z.quot nodes_count areas) in
  let split_nodes := array_split (np_arange nodes_count) (Z.to_nat areas) in
  let split_classes := array_split (seq 0 classes_count) (Z.to_nat areas) in
  exists recss : list (list nat),
    (forall a classes,
        split_classes !! a = Some classes ->
        exists records, recss !! a = Some records
                        /\ area_records shuffling classes records)
    /\ (forall n picked labs, m !! n = Some (picked, labs) ->
          exists a nodes records,
            split_nodes !! a = Some nodes
            /\ split_classes !! a = Some labs
            /\ recss !! a = Some records
            /\ n ∈ nodes
            /\ node_entry npa f records n picked)
    /\ (forall a nodes n,
          split_nodes !! a = Some nodes -> n ∈ nodes -> is_Some (m !! n)).

Lemma partition_Ok nodes_count areas seed shuffling f g m g' :
  partition nodes_count areas seed shuffling f g = (Ok m, g') ->
  partition_post nodes_count areas shuffling f m.
Proof.
  unfold dataset_to_nodes_partitioning. intros Hrun.
  inv_bind Hrun as Hseed. inv_bind Hrun as Hdiv.
  unfold int_true_div in Hdiv.
  destruct (Z.eqb_spec areas 0) as [ | Hne]; [discriminate | ].
  inv_ret Hdiv.
  inv_bind Hrun as Hn. apply np_array_split_Ok in Hn as (Hpos & -> & ->).
  inv_bind Hrun as Hc. apply np_array_split_Ok in Hc as (_ & -> & ->).
  unfold np_arange at 2 in Hrun. rewrite Nat2Z.id in Hrun.
  apply areas_loop_Ok in Hrun as [(recss & Hlen & Hperm & Hentry & _ & Hdom) Hnpa].
  assert (Hareas : 0 < Z.to_nat areas) by lia.
  pose proof (length_array_split (np_arange nodes_count) _ Hareas) as Hl1.
  pose proof (length_array_split (seq 0 classes_count) _ Hareas) as Hl2.
  split; [done | ]. split.
  { apply Hnpa. intros Hnil. apply (f_equal length) in Hnil.
    rewrite length_zip_with in Hnil. simpl in Hnil. lia. }
  exists recss. split; [ | split].
  - intros ar classes Hcl.
    destruct (lookup_lt_is_Some_2
                (array_split (np_arange nodes_count) (Z.to_nat areas)) ar)
      as [nodes Hnodes].
    { apply lookup_lt_Some in Hcl. lia. }
    destruct (lookup_lt_is_Some_2 recss ar) as [records Hrec].
    { apply lookup_lt_Some in Hcl. rewrite Hlen, length_zip_with. lia. }
    exists records. split; [done | ]. eapply Hperm; [ | done].
    apply lookup_zip_with_Some. eauto.
  - intros node picked labs Hn. apply Hentry in Hn as [Hn | Hn].
    { now rewrite lookup_empty in Hn. }
    destruct Hn as (ar & nodes & classes & records & Ha & Hr & Hmem & Hlab & He).
    apply lookup_zip_with_Some in Ha as (x & y & Heq & Hx & Hy).
    injection Heq as <- <-. simpl in *. subst.
    exists ar, nodes, records. auto.
  - intros ar nodes node Hnodes Hmem.
    destruct (lookup_lt_is_Some_2
                (array_split (seq 0 classes_count) (Z.to_nat areas)) ar)
      as [classes Hcl].
    { apply lookup_lt_Some in Hnodes. lia. }
    eapply Hdom; [ | done]. apply lookup_zip_with_Some. eauto.
Qed.

Lemma node_entry_records npa f records n picked :
  node_entry npa f records n picked -> Forall (fun i => i ∈ records) picked.
Proof.
  intros (chunk & bound & Hchunk & _ & _ & _ & Hall).
  eapply Forall_impl; [exact Hall | ]. intros i Hi.
  eapply elem_of_slice; [exact Hchunk | exact Hi].
Qed.

Lemma to_nat_nodes_per_area nodes_count areas :
  (0 < areas)%Z -> (0 < Z.quot nodes_count areas)%Z ->
  Z.to_nat (Z.quot nodes_count areas)
  = length (np_arange nodes_count) / Z.to_nat areas
  /\ 0 < Z.to_nat (Z.quot nodes_count areas).
Proof.
  intros Ha Hq. unfold np_arange. rewrite length_seq.
  assert (0 <= nodes_count)%Z.
  { destruct (Z.lt_ge_cases nodes_count 0) as [Hneg | ]; [ | done].
    pose proof (Z.quot_opp_l nodes_count areas ltac:(lia)).
    pose proof (Z.quot_pos (- nodes_count) areas ltac:(lia) ltac:(lia)). lia. }
  split; [ | lia].
  rewrite Z.quot_div_nonneg by lia.
  apply Nat2Z.inj. rewrite Nat2Z.inj_div, !Z2Nat.id; try lia.
  apply Z.div_pos; lia.
Qed.

(** C3 (label restriction): in a mapping returned by the partitioner,
    every record index held by a device points to a record of the dataset
    whose label is one of the device's allowed labels. *)
Theorem partition_label_restriction
    nodes_count areas seed shuffling f g m g' device idxs allowed_labels :
  dataset_to_nodes_partitioning train_dataset classes_count
    nodes_count areas seed shuffling f g = (Ok m, g') ->
  m !! device = Some (idxs, allowed_labels) ->
  Forall (fun i => exists img lab,
              train_dataset !! i = Some (img, lab) /\ lab ∈ allowed_labels)
         idxs.
Proof.
  intros Hrun Hdev.
  apply partition_Ok in Hrun as (_ & _ & recss & Hrec & Hentry & _).
  apply Hentry in Hdev as (ar & nodes & records & _ & Hcl & Hr & _ & He).
  apply Hrec in Hcl as (records' & Hr' & Hperm & _).
  rewrite Hr in Hr'. injection Hr' as <-.
  apply node_entry_records in He.
  eapply Forall_impl; [exact He | ]. intros i Hi. simpl in Hi.
  rewrite Hperm in Hi. now apply elem_of_records_per_class in Hi.
Qed.

(** [floor(x)] *)
Definition floor_Qc (x : Qc) : Z := Qfloor x.

Lemma int_of_Qc_floor (x : Qc) :
  (0 <= int_of_Qc x)%Z ->
  Z.to_nat (int_of_Qc x) = Z.to_nat (floor_Qc x)
  /\ ((0 <= x)%Qc -> int_of_Qc x = floor_Qc x).
Proof.
  unfold int_of_Qc, floor_Qc, Qfloor. destruct x as [[p d] Hc]. simpl.
  intros Hq. destruct (Z.lt_ge_cases p 0) as [Hneg | Hpos].
  - split.
    + pose proof (Z.quot_opp_l p (Z.pos d) ltac:(lia)).
      pose proof (Z.quot_pos (- p) (Z.pos d) ltac:(lia) ltac:(lia)).
      assert (p / Z.pos d < 0)%Z by (apply Z.div_lt_upper_bound; lia).
      lia.
    + unfold Qcle, Qle. simpl. lia.
  - split; [ | intros _]; now rewrite Z.quot_div_nonneg by lia.
Qed.

(** Amended C5 (sample fraction): a device holds exactly
    [int(len(chunk) * data_fraction)] record indexes, where the product is
    the binary64 product of the chunk's length and the fraction, rounded
    to nearest, and [int] truncates it.  Each index is an element of the
    device's chunk: the section, at the device's position in its area, of
    the area's records (the records of the area's labels, permuted when
    [shuffling] is set).  The indexes are drawn with replacement: nothing
    forbids duplicates. *)
Theorem partition_sample_fraction
    nodes_count areas seed shuffling f g m g' device idxs labels :
  dataset_to_nodes_partitioning train_dataset classes_count
    nodes_count areas seed shuffling f g = (Ok m, g') ->
  m !! device = Some (idxs, labels) ->
  exists records chunk,
    area_records shuffling labels records
    /\ array_split records (Z.to_nat (Z.quot nodes_count areas))
         !! (device mod Z.to_nat (Z.quot nodes_count areas)) = Some chunk
    /\ int_of_float (float_of_len (length chunk) * f)
       = Ok (Z.of_nat (length idxs))
    /\ Forall (fun i => i ∈ chunk) idxs.
Proof.
  intros Hrun Hdev.
  apply partition_Ok in Hrun as (_ & _ & recss & Hrec & Hentry & _).
  apply Hentry in Hdev as (ar & nodes & records & _ & Hcl & Hr & _ & He).
  apply Hrec in Hcl as (records' & Hr' & Harea).
  rewrite Hr in Hr'. injection Hr' as <-.
  destruct He as (chunk & bound & Hchunk & Hbound & Hpos & Hlen & Hall).
  exists records, chunk.
  split; [done | ]. split; [done | ]. split; [ | done].
  rewrite Hbound, Hlen, Z2Nat.id by done. reflexivity.
Qed.

(** The label sets of two different areas have no label in common. *)
Lemma area_labels_disjoint areas_n a1 a2 l1 l2 c :
  a1 <> a2 ->
  array_split (seq 0 classes_count) areas_n !! a1 = Some l1 ->
  array_split (seq 0 classes_count) areas_n !! a2 = Some l2 ->
  c ∈ l1 -> c ∈ l2 -> False.
Proof. apply slices_disjoint, NoDup_seq. Qed.

(** A device belongs to one area only. *)
Lemma device_area nodes_count areas_n a a' nodes nodes' device :
  array_split (np_arange nodes_count) areas_n !! a = Some nodes ->
  array_split (np_arange nodes_count) areas_n !! a' = Some nodes' ->
  device ∈ nodes -> device ∈ nodes' -> a = a'.
Proof.
  intros Ha Ha' Hd Hd'. destruct (decide (a = a')) as [ | Hne]; [done | ].
  exfalso.
  eapply (slices_disjoint _ _ a a' _ _ device (NoDup_seq 0 _) Hne Ha Ha');
    done.
Qed.

(** C4 (partition coverage): in a mapping returned by the partitioner, the
    labels allowed to some device are exactly the label classes
    [0 .. classes_count - 1] of the dataset.  The areas are the sections of
    [np.array_split(np.arange(nodes_count), areas)]: the devices of one
    area are all allowed the same labels, the area's label set, and the
    label sets of two different areas have no label in common, whichever
    devices of the two areas one reads them from. *)
Theorem partition_coverage
    nodes_count areas seed shuffling f g m g' :
  dataset_to_nodes_partitioning train_dataset classes_count
    nodes_count areas seed shuffling f g = (Ok m, g') ->
  (forall c, c < classes_count <->
             exists device idxs labels,
               m !! device = Some (idxs, labels) /\ c ∈ labels)
  /\ (forall a nodes d1 d2 idxs1 idxs2 l1 l2,
        array_split (np_arange nodes_count) (Z.to_nat areas) !! a
          = Some nodes ->
        d1 ∈ nodes -> d2 ∈ nodes ->
        m !! d1 = Some (idxs1, l1) -> m !! d2 = Some (idxs2, l2) ->
        l1 = l2)
  /\ (forall a1 a2 nodes1 nodes2 d1 d2 idxs1 idxs2 l1 l2 c,
        a1 <> a2 ->
        array_split (np_arange nodes_count) (Z.to_nat areas) !! a1
          = Some nodes1 ->
        array_split (np_arange nodes_count) (Z.to_nat areas) !! a2
          = Some nodes2 ->
        d1 ∈ nodes1 -> d2 ∈ nodes2 ->
        m !! d1 = Some (idxs1, l1) -> m !! d2 = Some (idxs2, l2) ->
        c ∈ l1 -> c ∉ l2).
Proof.
  intros Hrun.
  apply partition_Ok in Hrun as (Hareas & Hnpa & recss & Hrec & Hentry & Hdom).
  destruct (to_nat_nodes_per_area _ _ Hareas Hnpa) as [Hq Hq1].
  assert (Hpos : 0 < Z.to_nat areas) by lia.
  split; [ | split].
  - intros c. split.
    + intros Hc.
      destruct (elem_of_array_split (seq 0 classes_count) _ c Hpos)
        as (ar & classes & Hcl & Hmem); [apply elem_of_seq; lia | ].
      destruct (lookup_lt_is_Some_2
                  (array_split (np_arange nodes_count) (Z.to_nat areas)) ar)
        as [nodes Hnodes].
      { rewrite length_array_split by done. apply lookup_lt_Some in Hcl.
        now rewrite length_array_split in Hcl. }
      pose proof (length_array_split_ge _ _ _ _ Hpos Hnodes) as Hlen.
      destruct nodes as [|device nodes]; [simpl in Hlen; lia | ].
      destruct (Hdom ar _ device Hnodes) as [[idxs labels] Hdev]; [left | ].
      exists device, idxs, labels. split; [done | ].
      destruct (Hentry _ _ _ Hdev) as (ar' & nodes' & _ & Hn' & Hcl' & _ & Hmem' & _).
      destruct (decide (ar = ar')) as [<- | Hne].
      * rewrite Hcl in Hcl'. now injection Hcl' as <-.
      * exfalso.
        eapply (slices_disjoint _ _ ar ar' _ _ device (NoDup_seq 0 _) Hne Hnodes Hn');
          [left | done].
    + intros (device & idxs & labels & Hdev & Hc).
      destruct (Hentry _ _ _ Hdev) as (ar & _ & _ & _ & Hcl & _).
      eapply elem_of_slice in Hc; [ | exact Hcl].
      apply elem_of_seq in Hc. lia.
  - intros a nodes d1 d2 idxs1 idxs2 l1 l2 Hnodes Hd1 Hd2 H1 H2.
    destruct (Hentry _ _ _ H1) as (a1 & n1 & _ & Hn1 & Hcl1 & _ & Hm1 & _).
    destruct (Hentry _ _ _ H2) as (a2 & n2 & _ & Hn2 & Hcl2 & _ & Hm2 & _).
    pose proof (device_area _ _ _ _ _ _ _ Hnodes Hn1 Hd1 Hm1) as <-.
    pose proof (device_area _ _ _ _ _ _ _ Hnodes Hn2 Hd2 Hm2) as <-.
    congruence.
  - intros a1 a2 nodes1 nodes2 d1 d2 idxs1 idxs2 l1 l2 c Hne Hnodes1 Hnodes2
      Hd1 Hd2 H1 H2 Hc1 Hc2.
    destruct (Hentry _ _ _ H1) as (a1' & n1 & _ & Hn1 & Hcl1 & _ & Hm1 & _).
    destruct (Hentry _ _ _ H2) as (a2' & n2 & _ & Hn2 & Hcl2 & _ & Hm2 & _).
    pose proof (device_area _ _ _ _ _ _ _ Hnodes1 Hn1 Hd1 Hm1) as <-.
    pose proof (device_area _ _ _ _ _ _ _ Hnodes2 Hn2 Hd2 Hm2) as <-.
    eapply area_labels_disjoint; eauto.
Qed.

(** Amended C6 (disjoint shards): when [areas] divides [nodes_count], the
    record indexes of two different devices of a returned mapping have no
    element in common. *)
Theorem partition_shards_disjoint_even
    nodes_count areas seed shuffling f g m g' d1 d2 idxs1 idxs2 l1 l2 i :
  (areas | nodes_count)%Z ->
  dataset_to_nodes_partitioning train_dataset classes_count
    nodes_count areas seed shuffling f g = (Ok m, g') ->
  d1 <> d2 ->
  m !! d1 = Some (idxs1, l1) -> m !! d2 = Some (idxs2, l2) ->
  i ∈ idxs1 -> i ∉ idxs2.
Proof.
  intros [k Hk] Hrun Hne H1 H2 Hi1 Hi2.
  apply partition_Ok in Hrun as (Hareas & Hnpa & recss & Hrec & Hentry & _).
  destruct (Hentry _ _ _ H1) as (a1 & n1 & r1 & Hn1 & Hcl1 & Hr1 & Hm1 & He1).
  destruct (Hentry _ _ _ H2) as (a2 & n2 & r2 & Hn2 & Hcl2 & Hr2 & Hm2 & He2).
  destruct (Hrec _ _ Hcl1) as (r1' & Hr1' & Hp1 & _).
  destruct (Hrec _ _ Hcl2) as (r2' & Hr2' & Hp2 & _).
  rewrite Hr1 in Hr1'. injection Hr1' as <-.
  rewrite Hr2 in Hr2'. injection Hr2' as <-.
  destruct (decide (a1 = a2)) as [<- | Hane].
  - (* same area: two different sections of the same records *)
    rewrite Hr1 in Hr2. injection Hr2 as <-.
    rewrite Hn1 in Hn2. injection Hn2 as <-.
    subst nodes_count. rewrite Z.quot_mul in Hnpa, He1, He2 by lia.
    assert (Hseq : np_arange (k * areas) = seq 0 (Z.to_nat areas * Z.to_nat k)).
    { unfold np_arange. f_equal. lia. }
    rewrite Hseq in Hn1.
    apply array_split_seq_even in Hn1; [ | lia]. subst n1.
    apply elem_of_seq in Hm1, Hm2.
    destruct He1 as (c1 & b1 & Hc1 & _ & _ & _ & Hall1).
    destruct He2 as (c2 & b2 & Hc2 & _ & _ & _ & Hall2).
    rewrite Forall_forall in Hall1, Hall2.
    assert (Hmod : d1 mod Z.to_nat k <> d2 mod Z.to_nat k).
    { replace d1 with ((d1 - a1 * Z.to_nat k) + a1 * Z.to_nat k) by lia.
      replace d2 with ((d2 - a1 * Z.to_nat k) + a1 * Z.to_nat k) by lia.
      rewrite !Nat.Div0.mod_add, !Nat.mod_small by lia. lia. }
    eapply (slices_disjoint _ r1 _ _ c1 c2 i); eauto.
    rewrite Hp1. apply NoDup_records_per_class.
  - (* different areas: the labels of the records differ *)
    apply node_entry_records in He1, He2.
    rewrite Forall_forall in He1, He2.
    specialize (He1 i Hi1). specialize (He2 i Hi2).
    rewrite Hp1 in He1. rewrite Hp2 in He2.
    apply elem_of_records_per_class in He1 as (img1 & c1 & Hd1 & Hc1).
    apply elem_of_records_per_class in He2 as (img2 & c2 & Hd2 & Hc2).
    rewrite Hd1 in Hd2. injection Hd2 as <- <-.
    eapply area_labels_disjoint; eauto.
Qed.

Lemma node_body_total npa f records classes m node g :
  0 < npa -> (0 <=? f)%float = true -> (f <=? 0x1p800)%float = true ->
  exists m' g',
    node_body npa f (array_split records npa) classes m node g = (Ok m', g').
Proof.
  intros Hnpa Hlow Hhigh. unfold node_body, py_mod.
  destruct (Nat.eqb_spec npa 0); [lia | ].
  destruct (lookup_lt_is_Some_2 (array_split records npa) (node mod npa))
    as [chunk Hchunk].
  { rewrite length_array_split by done. now apply Nat.mod_upper_bound. }
  unfold bind at 1, ret at 1. unfold list_index. rewrite Hchunk.
  unfold bind at 1, ret at 1.
  destruct (int_of_float_product (length chunk) f Hlow Hhigh)
    as (bound & Hbound & Hpos).
  rewrite Hbound. unfold of_outcome at 1.
  unfold bind at 1, ret at 1.
  destruct (np_random_choice_total (length chunk) bound g)
    as (indexes & g1 & Hch); [exact Hpos | | ].
  { intros Hempty. rewrite Hempty in Hbound.
    rewrite (int_of_float_empty f Hlow Hhigh) in Hbound. congruence. }
  rewrite (bind_step _ _ _ _ _ Hch).
  apply np_random_choice_Ok in Hch as (_ & _ & Hb).
  destruct (fancy_index_total chunk indexes g1 Hb) as [picked Hp].
  rewrite (bind_step _ _ _ _ _ Hp). unfold ret. eauto.
Qed.

Lemma area_body_total npa shuffling f m area g :
  (0 < npa)%Z -> fraction_in_range f = true ->
  exists m' g',
    area_body train_dataset npa shuffling f m area g = (Ok m', g').
Proof.
  intros Hnpa [Hlow Hhigh]%andb_prop. destruct area as [nodes classes]. unfold area_body.
  assert (exists records g1,
             (if shuffling then np_random_shuffle (records_of classes)
              else ret (records_of classes)) g = (Ok records, g1))
    as (records & g1 & Hrec).
  { destruct shuffling; [ | unfold ret; eauto].
    unfold np_random_shuffle. destruct (np_shuffle _ g); eauto. }
  rewrite (bind_step _ _ _ _ _ Hrec). unfold np_array_split.
  destruct (Z.leb_spec npa 0); [lia | ].
  unfold bind at 1, ret at 1.
  destruct (for_fold_total (fun _ _ => True)
              (node_body (Z.to_nat npa) f
                 (array_split records (Z.to_nat npa)) classes) nodes m g1 I)
    as (m' & g' & Hloop & _); [ | eauto].
  intros m1 node g2 _ _.
  destruct (node_body_total (Z.to_nat npa) f records classes m1 node g2)
    as (m2 & g3 & Hnode); [lia | done | done | eauto].
Qed.

(** On a well-formed configuration the partitioner returns a mapping. *)
Lemma partition_total nodes_count areas seed shuffling f g :
  (0 <= seed < 2 ^ 32)%Z -> (0 < areas <= nodes_count)%Z ->
  fraction_in_range f = true ->
  exists m g', partition nodes_count areas seed shuffling f g = (Ok m, g').
Proof.
  intros Hseed Hareas Hf. unfold dataset_to_nodes_partitioning, np_random_seed.
  destruct (Z.leb_spec 0 seed); [ | lia].
  destruct (Z.ltb_spec seed (2 ^ 32)); [ | lia]. simpl andb. cbv iota.
  unfold bind at 1, put_state at 1. unfold int_true_div.
  destruct (Z.eqb_spec areas 0); [lia | ].
  unfold bind at 1, ret at 1. unfold np_array_split.
  destruct (Z.leb_spec areas 0); [lia | ].
  unfold bind at 1, ret at 1. unfold bind at 1, ret at 1.
  destruct (for_fold_total (fun _ _ => True)
              (area_body train_dataset (Z.quot nodes_count areas) shuffling f)
              (zip (array_split (np_arange nodes_count) (Z.to_nat areas))
                 (array_split (np_arange (Z.of_nat classes_count))
                    (Z.to_nat areas)))
              ∅ (np_seeded seed) I)
    as (m & g' & Hloop & _); [ | eauto].
  intros m1 area g2 _ _.
  destruct (area_body_total (Z.quot nodes_count areas) shuffling f m1 area g2)
    as (m2 & g3 & Harea); [ | done | eauto].
  apply Z.quot_str_pos. lia.
Qed.

(** C2 (determinism): the outcome of the partitioner, a mapping or an
    exception, is a function of its arguments: it does not depend on the
    state in which the call finds NumPy's global generator, so two calls
    with the same arguments return the same mapping. *)
Theorem partition_deterministic
    nodes_count areas seed shuffling f (g1 g2 : G) :
  (dataset_to_nodes_partitioning train_dataset classes_count
     nodes_count areas seed shuffling f g1).1
  = (dataset_to_nodes_partitioning train_dataset classes_count
     nodes_count areas seed shuffling f g2).1.
Proof.
  unfold dataset_to_nodes_partitioning, np_random_seed.
  destruct (Z.leb 0 seed && Z.ltb seed (2 ^ 32))%bool.
  - unfold bind at 1 3, put_state. reflexivity.
  - reflexivity.
Qed.

End PartitionerProperties.

(** ** Hoare triples for the monad

    [triple P m Q E]: from a state satisfying [P], the computation [m] ends
    either normally, with a result and a state related by [Q], or with an
    exception, in a state satisfying [E]. *)

Definition triple {S A} (P : S -> Prop) (m : M S A) (Q : A -> S -> Prop)
    (E : S -> Prop) : Prop :=
  forall s, P s ->
    match m s with
    | (Ok a, s') => Q a s'
    | (Raise _, s') => E s'
    end.

Lemma triple_ret {S A} (P : S -> Prop) (a : A) (Q : A -> S -> Prop) E :
  (forall s, P s -> Q a s) -> triple P (ret a) Q E.
Proof. intros HQ s Hs. now apply HQ. Qed.

Lemma triple_raise {S A} (P : S -> Prop) e (Q : A -> S -> Prop) (E : S -> Prop) :
  (forall s, P s -> E s) -> triple P (raise e) Q E.
Proof. intros HE s Hs. now apply HE. Qed.

Lemma triple_bind {S A B} (P : S -> Prop) (m : M S A) (k : A -> M S B)
    (Q1 : A -> S -> Prop) (Q : B -> S -> Prop) E :
  triple P m Q1 E -> (forall a, triple (Q1 a) (k a) Q E) ->
  triple P (bind m k) Q E.
Proof.
  intros Hm Hk s Hs. specialize (Hm s Hs). unfold bind.
  destruct (m s) as [[a | e] s1]; [now apply Hk | done].
Qed.

Lemma triple_conseq {S A} (P P' : S -> Prop) (m : M S A)
    (Q Q' : A -> S -> Prop) (E E' : S -> Prop) :
  triple P' m Q' E' ->
  (forall s, P s -> P' s) -> (forall a s, Q' a s -> Q a s) ->
  (forall s, E' s -> E s) ->
  triple P m Q E.
Proof.
  intros Hm HP HQ HE s Hs. specialize (Hm s (HP s Hs)).
  destruct (m s) as [[a | e] s1]; auto.
Qed.

Lemma triple_for_fold {S A B} (I : A -> S -> Prop) (E : S -> Prop)
    (body : A -> B -> M S A) (l : list B) :
  (forall a x, x ∈ l -> triple (I a) (body a x) I E) ->
  forall acc, triple (I acc) (for_fold body l acc) I E.
Proof.
  induction l as [|x l IH]; intros Hbody acc; simpl.
  - now apply triple_ret.
  - eapply triple_bind; [apply Hbody; left | ].
    intros a. apply IH. intros; apply Hbody. now right.
Qed.

Lemma triple_for_each {S B} (I : S -> Prop) (E : S -> Prop)
    (body : B -> M S unit) (l : list B) :
  (forall x, x ∈ l -> triple I (body x) (fun _ => I) E) ->
  triple I (for_each body l) (fun _ => I) E.
Proof.
  intros Hbody. unfold for_each.
  apply (triple_for_fold (fun _ => I) E (fun _ x => body x) l).
  intros [] x Hx. now apply Hbody.
Qed.

(** ** The aggregator leaves its arguments alone *)

(** Every object of [h] is in [h'], unchanged. *)
Definition heap_extends (h h' : heap) : Prop :=
  (forall a t, tensors h !! a = Some t -> tensors h' !! a = Some t)
  /\ (forall d sd, dicts h !! d = Some sd -> dicts h' !! d = Some sd).

Lemma heap_extends_refl h : heap_extends h h.
Proof. now split. Qed.

Lemma heap_extends_trans h1 h2 h3 :
  heap_extends h1 h2 -> heap_extends h2 h3 -> heap_extends h1 h3.
Proof. intros [? ?] [? ?]. split; eauto. Qed.

Section Frame.
(** [base] is the store in which [average_weights] is called and [w] the
    address of its working dict [w_avg]. *)
Variable base : heap.
Variable w : nat.

(** The objects of [base] are unchanged, and [w_avg] is a dict created
    since, whose values are tensors created since. *)
Definition working (s : heap) : Prop :=
  heap_extends base s
  /\ length (dicts base) <= w
  /\ exists sd, dicts s !! w = Some sd
                /\ Forall (fun p => length (tensors base) <= p.2) sd.

Definition kept (s : heap) : Prop := heap_extends base s.

Lemma working_kept s : working s -> kept s.
Proof. now intros [? _]. Qed.

Lemma assoc_Forall {V} (P : string * V -> Prop) key (sd : list (string * V)) a :
  Forall P sd -> assoc key sd = Some a -> exists k, P (k, a).
Proof.
  induction 1 as [|[k v] sd Hp _ IH]; simpl; [done | ].
  destruct (decide (key = k)); [ | done]. intros [= ->]. eauto.
Qed.

Lemma assoc_set_Forall {V} (P : string * V -> Prop) key a (sd : list (string * V)) :
  Forall P sd -> P (key, a) -> Forall P (assoc_set key a sd).
Proof.
  intros Hall Hp. induction Hall as [|[k v] sd Hkv Hsd IH]; simpl.
  - now constructor.
  - destruct (decide (key = k)); constructor; auto.
Qed.

Lemma triple_dict_getitem key :
  triple working (dict_getitem w key)
    (fun a s => working s /\ length (tensors base) <= a) kept.
Proof.
  intros s Hs. unfold dict_getitem, bind, load_dict.
  destruct Hs as (Hext & Hw & sd & Hsd & Hall). rewrite Hsd.
  destruct (assoc key sd) as [a | ] eqn:Ha; simpl; [ | done].
  split; [split; [done | split; [done | eauto]] | ].
  destruct (assoc_Forall _ _ _ _ Hall Ha) as [k Hk]. exact Hk.
Qed.

Lemma triple_dict_setitem key a :
  length (tensors base) <= a ->
  triple working (dict_setitem w key a) (fun _ => working) kept.
Proof.
  intros Ha s Hs. unfold dict_setitem, bind, load_dict, store_dict.
  destruct Hs as ((Ht & Hd) & Hw & sd & Hsd & Hall). rewrite Hsd. simpl.
  split; [split | split]; simpl; [done | | done | ].
  - intros d sd' Hd'. rewrite list_lookup_insert_ne; [auto | ].
    apply lookup_lt_Some in Hd'. lia.
  - exists (assoc_set key a sd). split.
    + apply list_lookup_insert_eq. now apply lookup_lt_Some in Hsd.
    + now apply assoc_set_Forall.
Qed.

Lemma triple_tensor_iadd a b :
  length (tensors base) <= a ->
  triple working (tensor_iadd a b) (fun _ => working) kept.
Proof.
  intros Ha s Hs. unfold tensor_iadd, bind, load_tensor, store_tensor.
  destruct (tensors s !! a) as [self | ]; [ | now apply working_kept].
  destruct (tensors s !! b) as [other | ]; [ | now apply working_kept].
  destruct (broadcast_to _ other); [ | now apply working_kept]. simpl.
  destruct Hs as ((Ht & Hd) & Hw & sd & Hsd & Hall).
  split; [split | split]; simpl; [ | done | done | eauto].
  intros a' t' Ha'. rewrite list_lookup_insert_ne; [auto | ].
  apply lookup_lt_Some in Ha'. lia.
Qed.

Lemma triple_torch_div a n :
  triple working (torch_div a n)
    (fun r s => working s /\ length (tensors base) <= r) kept.
Proof.
  intros s Hs. unfold torch_div, bind, load_tensor, alloc_tensor.
  destruct (tensors s !! a) as [input | ]; [ | now apply working_kept]. simpl.
  destruct Hs as ((Ht & Hd) & Hw & sd & Hsd & Hall).
  assert (length (tensors base) <= length (tensors s)).
  { destruct (tensors base) as [|t0 ts] eqn:Hb using rev_ind; [simpl; lia | ].
    clear IHts. rewrite length_app. simpl.
    specialize (Ht (length ts) t0). rewrite lookup_app_r, Nat.sub_diag in Ht by lia.
    apply lookup_lt_Some in Ht; [lia | done]. }
  split; [ | done].
  split; [split | split]; simpl; [ | done | done | eauto].
  intros a' t' Ha'. apply lookup_app_l_Some. auto.
Qed.
End Frame.

(** A computation that does not write keeps whatever holds of the state. *)
Lemma triple_read {S A} (P : S -> Prop) (E : S -> Prop) (m : M S A) :
  (forall s, (m s).2 = s) -> (forall s, P s -> E s) ->
  triple P m (fun _ => P) E.
Proof.
  intros Hm HE s Hs. specialize (Hm s).
  destruct (m s) as [[a | e] s1]; simpl in Hm; subst; auto.
Qed.

Lemma list_index_read {S A} (l : list A) i (s : S) : (list_index l i s).2 = s.
Proof. unfold list_index. now destruct (l !! i). Qed.

Lemma dict_getitem_read d key s : (dict_getitem d key s).2 = s.
Proof.
  unfold dict_getitem, bind, load_dict.
  destruct (dicts s !! d) as [sd | ]; [ | done]. now destruct (assoc key sd).
Qed.

Lemma dict_keys_read d s : (dict_keys d s).2 = s.
Proof.
  unfold dict_keys, bind, load_dict. now destruct (dicts s !! d).
Qed.

(** The objects of [base] are unchanged and none was removed. *)
Definition grown (base s : heap) : Prop :=
  heap_extends base s
  /\ length (tensors base) <= length (tensors s)
  /\ length (dicts base) <= length (dicts s).

Lemma grown_refl h : grown h h.
Proof. split; [apply heap_extends_refl | lia]. Qed.

Lemma triple_deepcopy_items base items : forall memo,
  Forall (fun p => length (tensors base) <= p.2) memo ->
  triple (grown base) (deepcopy_items items memo)
    (fun sd s => grown base s
                 /\ Forall (fun p => length (tensors base) <= p.2) sd)
    (heap_extends base).
Proof.
  induction items as [|[key a] items IH]; intros memo Hmemo; simpl.
  - apply triple_ret. intros s Hs. now split.
  - destruct (assoc a memo) as [a' | ] eqn:Hm.
    + eapply triple_bind; [apply IH, Hmemo | ].
      intros rest. apply triple_ret. intros s [Hs Hrest]. split; [done | ].
      constructor; [ | done]. simpl.
      clear -Hmemo Hm. induction Hmemo as [|[x y] memo Hxy _ IHm]; [done | ].
      simpl in Hm. destruct (decide (a = x)); [now injection Hm as <- | auto].
    + intros s Hs. unfold bind at 1, load_tensor.
      destruct (tensors s !! a) as [t | ]; [ | apply Hs].
      unfold bind at 1, alloc_tensor.
      assert (Hs' : grown base (Heap (tensors s ++ [t]) (dicts s))).
      { destruct Hs as ((Ht & Hd) & Hlt & Hld). split; [split | ]; simpl.
        - intros x tx Hx. apply lookup_app_l_Some. auto.
        - done.
        - rewrite length_app. simpl. lia. }
      assert (Hmemo' : Forall (fun p => length (tensors base) <= p.2)
                         ((a, length (tensors s)) :: memo)).
      { constructor; [ | done]. simpl. apply Hs. }
      pose proof (IH _ Hmemo' _ Hs') as Hrest. unfold bind.
      destruct (deepcopy_items items _ _) as [[rest | e] s1]; [ | done].
      simpl. destruct Hrest as [Hg Hall]. split; [done | ].
      constructor; [ | done]. simpl. apply Hs.
Qed.

Lemma triple_deepcopy base d :
  triple (grown base) (deepcopy d) (fun w s => working base w s)
    (heap_extends base).
Proof.
  intros s Hs. unfold deepcopy, bind at 1, load_dict.
  destruct (dicts s !! d) as [sd | ]; [ | apply Hs].
  pose proof (triple_deepcopy_items base sd [] (Forall_nil_2 _) s Hs) as Hcopy.
  unfold bind. destruct (deepcopy_items sd [] s) as [[sd' | e] s1]; [ | done].
  simpl. destruct Hcopy as [((Ht & Hd) & Hlt & Hld) Hall].
  split; [split | split]; simpl.
  - done.
  - intros x sdx Hx. apply lookup_app_l_Some. auto.
  - done.
  - exists sd'. split; [ | done].
    now rewrite lookup_app_r, Nat.sub_diag by lia.
Qed.

Lemma triple_accumulate base w models key i :
  triple (working base w) (accumulate models w key i)
    (fun _ => working base w) (kept base).
Proof.
  unfold accumulate.
  eapply triple_bind; [apply triple_dict_getitem | ]. intros a.
  apply (triple_conseq _ (fun s => working base w s /\ length (tensors base) <= a)
           _ _ (fun _ s => working base w s /\ length (tensors base) <= a)
           _ (fun s => kept base s)); try tauto.
  intros s [Hs Ha]. revert s Hs.
  change (triple (working base w)
            (let* m := list_index models i in
             let* b := dict_getitem m key in
             tensor_iadd a b;; dict_setitem w key a)
            (fun _ s => working base w s /\ length (tensors base) <= a)
            (kept base)).
  eapply triple_bind.
  { apply (triple_read _ (kept base));
      [apply list_index_read | apply working_kept]. }
  intros m. eapply triple_bind.
  { apply (triple_read _ (kept base));
      [apply dict_getitem_read | apply working_kept]. }
  intros b. eapply triple_bind; [now apply triple_tensor_iadd | ].
  intros []. eapply triple_conseq; [now apply (triple_dict_setitem base w key a) | | | ];
    simpl; auto.
Qed.

Lemma triple_average_key base w models key :
  triple (working base w) (average_key models w key)
    (fun _ => working base w) (kept base).
Proof.
  unfold average_key.
  eapply triple_bind.
  { apply triple_for_each. intros i _. apply triple_accumulate. }
  intros []. eapply triple_bind; [apply triple_dict_getitem | ]. intros a.
  eapply triple_bind.
  { eapply triple_conseq; [apply (triple_torch_div base w a) | | | ];
      simpl; [tauto | intros r s Hr; exact Hr | auto]. }
  intros r s [Hs Hr]. now apply triple_dict_setitem.
Qed.

Lemma triple_average_weights base models :
  triple (fun s => s = base) (average_weights models)
    (fun _ => heap_extends base) (heap_extends base).
Proof.
  unfold average_weights.
  eapply triple_bind.
  { apply (triple_read (fun s => s = base) (heap_extends base));
      [apply list_index_read | intros s ->; apply heap_extends_refl]. }
  intros m0. eapply triple_bind.
  { eapply triple_conseq; [apply (triple_deepcopy base m0) | | | ]; simpl.
    - intros s ->. apply grown_refl.
    - intros w s Hw. exact Hw.
    - auto. }
  intros w. eapply triple_bind.
  { apply (triple_read (working base w) (kept base));
      [apply dict_keys_read | apply working_kept]. }
  intros keys. eapply triple_bind.
  { apply triple_for_each. intros key _. apply triple_average_key. }
  intros []. apply triple_ret. apply working_kept.
Qed.

(** C10 (frame): whatever the list [models] and the store [h], and whether
    the call returns or raises, every tensor and every dict of [h] is in the
    store after [average_weights(models)] with the content it had before.
    The call writes only to objects it has created: the deep copy of
    [models[0]] and the quotients. *)
Theorem average_weights_preserves_inputs (models : list nat) (h : heap) :
  heap_extends h (average_weights models h).2.
Proof.
  pose proof (triple_average_weights h models h eq_refl) as Ht.
  destruct (average_weights models h) as [[r | e] h']; exact Ht.
Qed.

(** ** The aggregator computes the mean *)

(** *** Broadcasting between equal shapes *)

Lemma slices_replicate_all {A} n size (d : list A) :
  length d = n * size ->
  concat (slices (replicate n size) d) = d
  /\ Forall (fun c => length c = size) (slices (replicate n size) d).
Proof.
  revert d. induction n as [|n IH]; intros d Hd; simpl in *.
  - split; [ | constructor]. destruct d; [done | discriminate].
  - destruct (IH (drop size d)) as [Hc Hall]; [rewrite length_drop; lia | ].
    split.
    + now rewrite Hc, take_drop.
    + constructor; [ | done]. rewrite length_take. lia.
Qed.

Lemma expand_same sh (d : list Qc) :
  length d = numel sh -> expand sh sh d = Some d.
Proof.
  revert d. induction sh as [|n sh IH]; intros d Hd; [done | ].
  cbn [expand]. rewrite Nat.ltb_irrefl, Nat.eqb_refl.
  simpl in Hd. destruct (slices_replicate_all n (numel sh) d Hd) as [Hc Hall].
  assert (Hm : mapM (expand sh sh) (slices (replicate n (numel sh)) d)
               = Some (slices (replicate n (numel sh)) d)).
  { apply mapM_Some. revert Hall. generalize (slices (replicate n (numel sh)) d).
    induction 1 as [|c cs Hc' _ IHcs]; constructor; auto. }
  rewrite Hm. simpl. now rewrite Hc.
Qed.

(** A tensor holds as many entries as its shape says. *)
Definition tensor_wf (t : tensor) : Prop := length (t_data t) = numel (t_shape t).

Lemma broadcast_to_same (self other : tensor) :
  tensor_wf other -> t_shape other = t_shape self ->
  broadcast_to (t_shape self) other = Some (t_data other).
Proof.
  intros Hwf Hsh. unfold broadcast_to. rewrite Hsh, Nat.ltb_irrefl.
  apply expand_same. now rewrite <- Hsh.
Qed.

(** *** Dicts with unique keys *)

Lemma assoc_lookup {V} (sd : list (string * V)) i key v :
  NoDup (sd.*1) -> sd !! i = Some (key, v) -> assoc key sd = Some v.
Proof.
  revert i. induction sd as [|[k x] sd IH]; intros i Hnd Hi; [done | ].
  simpl in *. apply NoDup_cons in Hnd as [Hk Hnd].
  destruct i as [|i]; simpl in Hi.
  - injection Hi as -> ->. now rewrite decide_True.
  - rewrite decide_False; [eauto | ]. intros ->. apply Hk.
    apply list_elem_of_fmap. exists (k, v). split; [done | ].
    eapply list_elem_of_lookup_2, Hi.
Qed.

Lemma assoc_set_lookup {V} (sd : list (string * V)) i key v v' :
  NoDup (sd.*1) -> sd !! i = Some (key, v) ->
  assoc_set key v' sd = <[i := (key, v')]> sd.
Proof.
  revert i. induction sd as [|[k x] sd IH]; intros i Hnd Hi; [done | ].
  simpl in *. apply NoDup_cons in Hnd as [Hk Hnd].
  destruct i as [|i]; simpl in Hi.
  - injection Hi as -> ->. now rewrite decide_True.
  - rewrite decide_False; [simpl; f_equal; eauto | ]. intros ->. apply Hk.
    apply list_elem_of_fmap. exists (k, v). split; [done | ].
    eapply list_elem_of_lookup_2, Hi.
Qed.

(** *** Sums of rows *)

#[global] Instance Qc_inhabited : Inhabited Qc := populate 0%Qc.

(** [sum(l)], as Python computes it: from 0, left to right. *)
Definition sum_of (l : list Qc) : Qc := foldl Qcplus 0%Qc l.

(** The arithmetic mean of a list of numbers. *)
Definition arithmetic_mean (l : list Qc) : Qc :=
  (sum_of l / Qc_of_nat (length l))%Qc.

(** The elementwise arithmetic mean of tensors of one shape: entry [j] is
    the mean of the entries [j]; the shape is that of the first. *)
Definition elementwise_mean (ts : list tensor) : option tensor :=
  match ts with
  | [] => None
  | t0 :: _ =>
      Some (Tensor (t_shape t0)
              ((fun j => arithmetic_mean ((fun t => t_data t !!! j) <$> ts))
                 <$> seq 0 (length (t_data t0))))
  end.

Lemma foldl_zip_with_lookup (d0 : list Qc) (ds : list (list Qc)) j :
  Forall (fun d => length d = length d0) ds -> j < length d0 ->
  foldl (zip_with Qcplus) d0 ds !!! j
  = foldl Qcplus (d0 !!! j) ((fun d => d !!! j) <$> ds).
Proof.
  revert d0. induction ds as [|d ds IH]; intros d0 Hall Hj; [done | ].
  apply Forall_cons in Hall as [Hd Hall]. simpl.
  rewrite IH.
  - f_equal. apply list_lookup_total_correct.
    rewrite lookup_zip_with.
    destruct (lookup_lt_is_Some_2 d0 j Hj) as [x Hx].
    destruct (lookup_lt_is_Some_2 d j ltac:(lia)) as [y Hy].
    rewrite Hx, Hy. simpl.
    now rewrite (list_lookup_total_correct _ _ _ Hx),
      (list_lookup_total_correct _ _ _ Hy).
  - eapply Forall_impl; [exact Hall | ]. intros d' Hd'. simpl in *.
    rewrite length_zip_with. lia.
  - rewrite length_zip_with. lia.
Qed.

Lemma length_foldl_zip_with (d0 : list Qc) (ds : list (list Qc)) :
  Forall (fun d => length d = length d0) ds ->
  length (foldl (zip_with Qcplus) d0 ds) = length d0.
Proof.
  revert d0. induction ds as [|d ds IH]; intros d0 Hall; [done | ].
  apply Forall_cons in Hall as [Hd Hall]. simpl. rewrite IH.
  - rewrite length_zip_with. lia.
  - eapply Forall_impl; [exact Hall | ]. intros d' Hd'. simpl in *.
    rewrite length_zip_with. lia.
Qed.

(** What the code computes for one parameter, from the tensors
    [t0 :: others] of the models: the running sum, divided by the count. *)
Definition averaged (t0 : tensor) (others : list tensor) : tensor :=
  Tensor (t_shape t0)
    ((fun x => x / Qc_of_nat (S (length others)))%Qc
       <$> foldl (zip_with Qcplus) (t_data t0) (t_data <$> others)).

Lemma averaged_mean (t0 : tensor) (others : list tensor) :
  Forall (fun t => length (t_data t) = length (t_data t0)) others ->
  elementwise_mean (t0 :: others) = Some (averaged t0 others).
Proof.
  intros Hall. unfold elementwise_mean, averaged. f_equal. f_equal.
  assert (Hds : Forall (fun d => length d = length (t_data t0)) (t_data <$> others)).
  { apply Forall_fmap. exact Hall. }
  apply list_eq. intros j. rewrite !list_lookup_fmap.
  destruct (decide (j < length (t_data t0))) as [Hj | Hj].
  - rewrite lookup_seq_lt by done. simpl.
    destruct (lookup_lt_is_Some_2 (foldl (zip_with Qcplus) (t_data t0)
                                     (t_data <$> others)) j) as [x Hx].
    { now rewrite length_foldl_zip_with. }
    rewrite Hx. simpl. f_equal. unfold arithmetic_mean.
    f_equal; [ | simpl; do 2 f_equal; apply length_fmap].
    apply list_lookup_total_correct in Hx. rewrite <- Hx.
    rewrite foldl_zip_with_lookup by done.
    unfold sum_of. simpl. rewrite Qcplus_0_l. f_equal.
    exact (list_fmap_compose t_data (fun d => d !!! j) others).
  - rewrite lookup_seq_ge by lia. simpl.
    rewrite lookup_ge_None_2; [done | ]. rewrite length_foldl_zip_with by done. lia.
Qed.

(** *** The deep copy of a state_dict that shares no tensor *)

Lemma assoc_None_not_elem {V} (a : nat) (memo : list (nat * V)) :
  a ∉ memo.*1 -> assoc a memo = None.
Proof.
  induction memo as [|[x y] memo IH]; intros Ha; [done | ]. simpl.
  rewrite decide_False; [apply IH | ]; intros ?; apply Ha; simpl.
  - now right.
  - subst. left.
Qed.

Lemma deepcopy_items_exact (items : state_dict) : forall memo ts s,
  NoDup (items.*2) ->
  (forall a, a ∈ items.*2 -> a ∉ memo.*1) ->
  Forall2 (fun p t => tensors s !! p.2 = Some t) items ts ->
  deepcopy_items items memo s
  = (Ok (zip (items.*1) (seq (length (tensors s)) (length items))),
     Heap (tensors s ++ ts) (dicts s)).
Proof.
  induction items as [|[key a] items IH]; intros memo ts s Hnd Hmemo Hts.
  - apply Forall2_nil_inv_l in Hts as ->. simpl. unfold ret.
    rewrite app_nil_r. now destruct s.
  - apply Forall2_cons_inv_l in Hts as (t & ts' & Ht & Hts & ->).
    simpl in *. apply NoDup_cons in Hnd as [Ha Hnd].
    rewrite assoc_None_not_elem by (apply Hmemo; left).
    unfold bind at 1, load_tensor. rewrite Ht.
    unfold bind at 1, alloc_tensor.
    assert (Hrec : deepcopy_items items ((a, length (tensors s)) :: memo)
                     (Heap (tensors s ++ [t]) (dicts s))
                   = (Ok (zip (items.*1)
                            (seq (length (tensors s ++ [t])) (length items))),
                      Heap ((tensors s ++ [t]) ++ ts') (dicts s))).
    { apply (IH _ ts' (Heap (tensors s ++ [t]) (dicts s)) Hnd).
      - intros x Hx. simpl. intros [-> | Hin]%elem_of_cons; [done | ].
        apply (Hmemo x); [now right | done].
      - eapply Forall2_impl; [exact Hts | ]. intros p t' Hp. simpl.
        now apply lookup_app_l_Some. }
    rewrite (bind_step _ _ _ _ _ Hrec).
    unfold ret. simpl. rewrite length_app, <- app_assoc. simpl.
    now rewrite Nat.add_1_r.
Qed.

(** *** One parameter *)

Lemma tensor_eta (t : tensor) : Tensor (t_shape t) (t_data t) = t.
Proof. now destruct t. Qed.

Lemma heap_eta (s : heap) : Heap (tensors s) (dicts s) = s.
Proof. now destruct s. Qed.

Section OneParameter.
Variable models : list nat.
Variable w : nat.
Variable key : string.
Variable j a : nat.

(** In state [s], [models[i][key]] is the tensor [other], which is not
    the accumulator and has the shape [shape]. *)
Definition operand (shape : list nat) (s : heap) (i : nat) (other : tensor)
  : Prop :=
  exists m sdm b,
    models !! i = Some m /\ dicts s !! m = Some sdm
    /\ assoc key sdm = Some b /\ b <> a
    /\ tensors s !! b = Some other
    /\ t_shape other = shape /\ tensor_wf other.

Lemma accumulate_exact s sd self i other :
  dicts s !! w = Some sd -> NoDup (sd.*1) -> sd !! j = Some (key, a) ->
  tensors s !! a = Some self ->
  operand (t_shape self) s i other ->
  accumulate models w key i s
  = (Ok tt,
     Heap (<[a := Tensor (t_shape self)
                    (zip_with Qcplus (t_data self) (t_data other))]>
             (tensors s))
          (dicts s)).
Proof.
  intros Hsd Hnd Hj Hself (m & sdm & b & Hm & Hsdm & Hb & Hne & Hother & Hsh & Hwf).
  unfold accumulate, dict_getitem.
  unfold bind at 1. unfold bind at 1, load_dict. rewrite Hsd.
  rewrite (assoc_lookup _ _ _ _ Hnd Hj). unfold ret at 1.
  unfold bind at 1, list_index. rewrite Hm. unfold ret at 1.
  unfold bind at 1. unfold bind at 1. rewrite Hsdm, Hb. unfold ret at 1.
  unfold bind at 1, tensor_iadd.
  unfold bind at 1, load_tensor. rewrite Hself.
  unfold bind at 1. rewrite Hother.
  rewrite (broadcast_to_same self other Hwf Hsh).
  unfold store_tensor, dict_setitem, bind, load_dict, store_dict. simpl.
  rewrite Hsd. simpl. f_equal. f_equal.
  rewrite (assoc_set_lookup _ _ _ _ _ Hnd Hj).
  rewrite (list_insert_id sd j) by done. now apply list_insert_id.
Qed.

Lemma accumulate_loop_exact sd : forall indexes others s self,
  dicts s !! w = Some sd -> NoDup (sd.*1) -> sd !! j = Some (key, a) ->
  tensors s !! a = Some self ->
  Forall2 (operand (t_shape self) s) indexes others ->
  for_each (accumulate models w key) indexes s
  = (Ok tt,
     Heap (<[a := Tensor (t_shape self)
                    (foldl (zip_with Qcplus) (t_data self)
                           (t_data <$> others))]>
             (tensors s))
          (dicts s)).
Proof.
  induction indexes as [|i indexes IH]; intros others s self Hsd Hnd Hj Hself Hops.
  - apply Forall2_nil_inv_l in Hops as ->. simpl. unfold for_each, ret. simpl.
    rewrite tensor_eta, list_insert_id by done. now rewrite heap_eta.
  - apply Forall2_cons_inv_l in Hops as (other & others' & Hop & Hops & ->).
    unfold for_each. simpl.
    rewrite (bind_step _ _ _ _ _ (accumulate_exact s sd self i other
                                    Hsd Hnd Hj Hself Hop)).
    fold (for_each (accumulate models w key) indexes).
    rewrite (IH others' _ (Tensor (t_shape self)
               (zip_with Qcplus (t_data self) (t_data other)))); simpl.
    + now rewrite list_insert_insert_eq.
    + done.
    + done.
    + done.
    + apply list_lookup_insert_eq. now apply lookup_lt_Some in Hself.
    + eapply Forall2_impl; [exact Hops | ].
      intros i' o' (m & sdm & b & ? & ? & ? & Hne & Ho' & ? & ?).
      exists m, sdm, b. simpl. repeat split; try done.
      now rewrite list_lookup_insert_ne by done.
Qed.

(** The whole body of the loop over the names, for one name. *)
Lemma average_key_exact s sd self others :
  dicts s !! w = Some sd -> NoDup (sd.*1) -> sd !! j = Some (key, a) ->
  tensors s !! a = Some self ->
  length models = S (length others) ->
  Forall2 (operand (t_shape self) s) (seq 1 (length others)) others ->
  average_key models w key s
  = (Ok tt,
     Heap (<[a := Tensor (t_shape self)
                    (foldl (zip_with Qcplus) (t_data self)
                           (t_data <$> others))]>
             (tensors s) ++ [averaged self others])
          (<[w := <[j := (key, length (tensors s))]> sd]> (dicts s))).
Proof.
  intros Hsd Hnd Hj Hself Hlen Hops. unfold average_key.
  replace (length models - 1) with (length others) by lia.
  rewrite (bind_step _ _ _ _ _
             (accumulate_loop_exact sd _ others s self Hsd Hnd Hj Hself Hops)).
  unfold dict_getitem, bind at 1. unfold bind at 1, load_dict. simpl.
  rewrite Hsd, (assoc_lookup _ _ _ _ Hnd Hj). unfold ret at 1.
  unfold bind at 1, torch_div. unfold bind at 1, load_tensor. simpl.
  rewrite list_lookup_insert_eq by now apply lookup_lt_Some in Hself.
  unfold alloc_tensor. simpl.
  unfold dict_setitem, bind, load_dict, store_dict. simpl. rewrite Hsd. simpl.
  rewrite length_insert, (assoc_set_lookup _ _ _ _ _ Hnd Hj), Hlen.
  reflexivity.
Qed.
End OneParameter.

(** *** All the parameters *)

Lemma Forall2_exists {A B} (R : A -> B -> Prop) (l : list A) :
  Forall (fun x => exists y, R x y) l -> exists k, Forall2 R l k.
Proof.
  induction 1 as [|x l [y Hy] _ [k Hk]]; [exists [] | exists (y :: k)];
    now constructor.
Qed.

Lemma for_each_cons {S B} (body : B -> M S unit) x l s s1 :
  body x s = (Ok tt, s1) -> for_each body (x :: l) s = for_each body l s1.
Proof. intros Hx. unfold for_each. simpl. now rewrite (bind_step _ _ _ _ _ Hx). Qed.

Section AllParameters.
Variable h : heap.
Variable m0 : nat.
Variable rest : list nat.
Variable sd0 : state_dict.

(** The tensors bound to the name at position [idx] of the first model:
    [t0] in the first model, [others] in the other models, all of one
    shape. *)
Definition params (idx : nat) (key : string) (t0 : tensor)
    (others : list tensor) : Prop :=
  exists a0,
    sd0 !! idx = Some (key, a0) /\ tensors h !! a0 = Some t0 /\ tensor_wf t0
    /\ Forall2 (fun m t => read_param h m key = Some t
                           /\ t_shape t = t_shape t0 /\ tensor_wf t)
         rest others.

(** The store after [j] names have been averaged: the copy sits at dict
    address [length (dicts h)], the copies of the tensors behind the
    tensors of [h], the quotients behind them. *)
Definition averaging (j : nat) (s : heap) : Prop :=
  length (tensors s) = length (tensors h) + length sd0 + j
  /\ (forall a, a < length (tensors h) -> tensors s !! a = tensors h !! a)
  /\ (forall d, d < length (dicts h) -> dicts s !! d = dicts h !! d)
  /\ exists sd,
       dicts s !! length (dicts h) = Some sd /\ sd.*1 = sd0.*1
       /\ (forall idx, idx < j ->
             exists key t0 others,
               params idx key t0 others
               /\ sd !! idx
                  = Some (key, length (tensors h) + length sd0 + idx)
               /\ tensors s !! (length (tensors h) + length sd0 + idx)
                  = Some (averaged t0 others))
       /\ (forall idx key a0, j <= idx -> sd0 !! idx = Some (key, a0) ->
             sd !! idx = Some (key, length (tensors h) + idx)
             /\ tensors s !! (length (tensors h) + idx) = tensors h !! a0).

Hypothesis Hsd0 : dicts h !! m0 = Some sd0.
Hypothesis Hkeys : NoDup (sd0.*1).
Hypothesis Hvals : NoDup (sd0.*2).
Hypothesis Hparams : forall idx, idx < length sd0 ->
  exists key t0 others, params idx key t0 others.

Lemma average_key_step j key a0 s :
  sd0 !! j = Some (key, a0) -> averaging j s ->
  exists s',
    average_key (m0 :: rest) (length (dicts h)) key s = (Ok tt, s')
    /\ averaging (S j) s'.
Proof.
  intros Hj (Hlen & Hbt & Hbd & sd & Hsd & Hfst & Hdone & Htodo).
  pose proof (lookup_lt_Some _ _ _ Hj) as Hjn.
  destruct (Hparams j Hjn) as (key' & t0 & others & Hp).
  pose proof Hp as (a0' & Hj' & Ht0 & Hwf0 & Hothers).
  rewrite Hj in Hj'. injection Hj' as <- <-.
  destruct (Htodo j key a0 (le_n _) Hj) as [Hsdj Hself].
  rewrite Ht0 in Hself.
  assert (Hnd : NoDup (sd.*1)) by now rewrite Hfst.
  assert (Hops : Forall2 (operand (m0 :: rest) key (length (tensors h) + j)
                            (t_shape t0) s)
                   (seq 1 (length others)) others).
  { apply Forall2_same_length_lookup_2; [now rewrite length_seq | ].
    intros i x o Hx Ho. apply lookup_seq in Hx as [-> Hi].
    destruct (Forall2_lookup_r _ _ _ _ _ Hothers Ho)
      as (m & Hm & Hread & Hsh & Hwf).
    unfold read_param in Hread.
    destruct (dicts h !! m) as [sdm|] eqn:Hsdm; [ | done]. simpl in Hread.
    destruct (assoc key sdm) as [b|] eqn:Hb; [ | done]. simpl in Hread.
    pose proof (lookup_lt_Some _ _ _ Hread) as Hlt.
    exists m, sdm, b. split; [exact Hm | ].
    split; [rewrite Hbd; [done | now apply lookup_lt_Some in Hsdm] | ].
    split; [done | ]. split; [lia | ].
    split; [now rewrite Hbt | done]. }
  eexists. split.
  { apply (average_key_exact (m0 :: rest) (length (dicts h)) key j
             (length (tensors h) + j) s sd t0 others); try done.
    simpl. f_equal. now apply Forall2_length in Hothers. }
  pose proof (lookup_lt_Some _ _ _ Hsd) as HW.
  pose proof (lookup_lt_Some _ _ _ Hself) as Hself_lt.
  split; [simpl; rewrite length_app, length_insert; simpl; lia | ].
  split.
  { intros a Ha. simpl.
    rewrite lookup_app_l by (rewrite length_insert; lia).
    rewrite list_lookup_insert_ne by lia. now apply Hbt. }
  split.
  { intros d Hd. simpl. rewrite list_lookup_insert_ne by lia. now apply Hbd. }
  exists (<[j := (key, length (tensors s))]> sd). simpl.
  split; [now apply list_lookup_insert_eq | ].
  split.
  { rewrite list_fmap_insert. simpl. rewrite list_insert_id; [done | ].
    rewrite Hfst, list_lookup_fmap, Hj. done. }
  split.
  - intros idx Hidx. destruct (decide (idx = j)) as [-> | Hne].
    + exists key, t0, others. split; [exact Hp | ].
      rewrite Hlen. split.
      * apply list_lookup_insert_eq. now apply lookup_lt_Some in Hsdj.
      * rewrite lookup_app_r by (rewrite length_insert; lia).
        rewrite length_insert, Hlen, Nat.sub_diag. done.
    + destruct (Hdone idx ltac:(lia)) as (k & t & os & Hpk & Hsdk & Htk).
      exists k, t, os. split; [exact Hpk | ].
      rewrite list_lookup_insert_ne by lia. split; [done | ].
      pose proof (lookup_lt_Some _ _ _ Htk).
      rewrite lookup_app_l by (rewrite length_insert; lia).
      now rewrite list_lookup_insert_ne by lia.
  - intros idx k b Hidx Hk.
    destruct (Htodo idx k b ltac:(lia) Hk) as [Hsdk Htk].
    rewrite list_lookup_insert_ne by lia. split; [done | ].
    pose proof (lookup_lt_Some _ _ _ Hk).
    rewrite lookup_app_l by (rewrite length_insert; lia).
    now rewrite list_lookup_insert_ne by lia.
Qed.

Lemma average_loop : forall todo j s,
  drop j (sd0.*1) = todo -> averaging j s ->
  exists s',
    for_each (average_key (m0 :: rest) (length (dicts h))) todo s
    = (Ok tt, s')
    /\ averaging (length sd0) s'.
Proof.
  induction todo as [|key todo IH]; intros j s Hdrop Hinv.
  - exists s. split; [done | ].
    assert (length sd0 <= j) as Hle.
    { apply (f_equal length) in Hdrop.
      rewrite length_drop, length_fmap in Hdrop. simpl in Hdrop. lia. }
    destruct Hinv as (Hlen & Hbt & Hbd & sd & Hsd & Hfst & Hdone & Htodo).
    assert (j = length sd0 \/ length sd0 < j) as [-> | Hlt] by lia.
    + repeat (split; [done | ]). exists sd. done.
    + destruct (Hdone (length sd0) Hlt) as (k & t & os & (a0 & Hk & _) & _).
      apply lookup_lt_Some in Hk. lia.
  - assert (Hkey : sd0.*1 !! j = Some key).
    { rewrite <- (Nat.add_0_r j), <- lookup_drop, Hdrop. done. }
    rewrite list_lookup_fmap in Hkey.
    destruct (sd0 !! j) as [[k a0]|] eqn:Hj; [ | done].
    simpl in Hkey. simplify_eq.
    destruct (average_key_step j key a0 s Hj Hinv) as (s1 & Hrun & Hinv1).
    rewrite (for_each_cons _ _ _ _ _ Hrun).
    apply (IH (S j)); [ | done].
    replace (S j) with (j + 1) by lia.
    rewrite <- drop_drop, Hdrop. done.
Qed.
End AllParameters.

(** [average_weights] on a store where the first model shares no tensor
    between two names and every other model has, for every name of the
    first, a tensor of the same shape. *)
Lemma average_weights_exact h m0 rest sd0 :
  dicts h !! m0 = Some sd0 -> NoDup (sd0.*1) -> NoDup (sd0.*2) ->
  (forall idx, idx < length sd0 ->
     exists key t0 others, params h rest sd0 idx key t0 others) ->
  exists s',
    average_weights (m0 :: rest) h = (Ok (length (dicts h)), s')
    /\ averaging h rest sd0 (length sd0) s'.
Proof.
  intros Hsd0 Hkeys Hvals Hparams.
  assert (exists ts0, Forall2 (fun p t => tensors h !! p.2 = Some t) sd0 ts0)
    as [ts0 Hts0].
  { apply Forall2_exists, Forall_lookup. intros i [k a] Hi.
    destruct (Hparams i (lookup_lt_Some _ _ _ Hi))
      as (key & t0 & os & a0 & Hi' & Ht0 & _).
    rewrite Hi in Hi'. injection Hi' as <- <-. now exists t0. }
  pose proof (Forall2_length _ _ _ Hts0) as Hlen0.
  assert (Hexact := deepcopy_items_exact sd0 [] ts0 h Hvals
                      (fun a _ => not_elem_of_nil a) Hts0).
  set (sd := zip (sd0.*1) (seq (length (tensors h)) (length sd0))) in *.
  set (s0 := Heap (tensors h ++ ts0) (dicts h ++ [sd])).
  assert (Hcopy : deepcopy m0 h = (Ok (length (dicts h)), s0)).
  { unfold deepcopy. unfold bind at 1, load_dict. rewrite Hsd0.
    now rewrite (bind_step _ _ _ _ _ Hexact). }
  assert (Hfst : sd.*1 = sd0.*1).
  { apply fst_zip. now rewrite length_fmap, length_seq. }
  assert (Hnames : dict_keys (length (dicts h)) s0 = (Ok (sd0.*1), s0)).
  { unfold dict_keys, bind, load_dict. simpl.
    rewrite list_lookup_middle by done. unfold ret. now rewrite Hfst. }
  assert (Hinv : averaging h rest sd0 0 s0).
  { split; [simpl; rewrite length_app; lia | ].
    split; [intros a Ha; simpl; now rewrite lookup_app_l | ].
    split; [intros d Hd; simpl; now rewrite lookup_app_l | ].
    exists sd. simpl. split; [now apply list_lookup_middle | ].
    split; [done | ]. split; [intros idx Hidx; lia | ].
    intros idx key a0 _ Hidx.
    pose proof (lookup_lt_Some _ _ _ Hidx) as Hlt. split.
    - apply lookup_zip_Some. split.
      + now rewrite list_lookup_fmap, Hidx.
      + now apply lookup_seq_lt.
    - rewrite lookup_app_r by lia.
      replace (length (tensors h) + idx - length (tensors h)) with idx by lia.
      destruct (Forall2_lookup_l _ _ _ _ _ Hts0 Hidx) as (t & Ht & Ha0).
      simpl in Ha0. now rewrite Ht, Ha0. }
  destruct (average_loop h m0 rest sd0 Hkeys Hparams (sd0.*1) 0 s0 eq_refl Hinv)
    as (s' & Hrun & Hinv').
  exists s'. split; [ | done].
  unfold average_weights.
  rewrite (bind_step _ _ _ m0 h) by done.
  rewrite (bind_step _ _ _ _ _ Hcopy), (bind_step _ _ _ _ _ Hnames).
  now rewrite (bind_step _ _ _ _ _ Hrun).
Qed.

(** *** Mappings laid out in a store *)

Lemma alloc_weights_exact (w : weights) : forall s,
  alloc_weights w s
  = (Ok (zip (w.*1) (seq (length (tensors s)) (length w))),
     Heap (tensors s ++ w.*2) (dicts s)).
Proof.
  induction w as [|[key t] w IH]; intros s.
  - simpl. unfold ret. now rewrite app_nil_r, heap_eta.
  - simpl. unfold bind at 1, alloc_tensor.
    rewrite (bind_step _ _ _ _ _ (IH _)).
    unfold ret. simpl. rewrite length_app, <- app_assoc. simpl.
    now rewrite Nat.add_1_r.
Qed.

(** The state_dict object at [d] holds the mapping [w], one tensor object
    per name. *)
Definition represents (h : heap) (d : nat) (w : weights) : Prop :=
  exists sd,
    dicts h !! d = Some sd /\ sd.*1 = w.*1 /\ NoDup (sd.*2)
    /\ Forall2 (fun a t => tensors h !! a = Some t) (sd.*2) (w.*2).

Lemma represents_extends h h' d w :
  heap_extends h h' -> represents h d w -> represents h' d w.
Proof.
  intros [Ht Hd] (sd & Hsd & Hfst & Hnd & Hall).
  exists sd. split; [now apply Hd | ]. split; [done | ]. split; [done | ].
  eapply Forall2_impl; [exact Hall | ]. intros a t Ha. now apply Ht.
Qed.

Lemma alloc_state_dict_represents w s :
  exists s',
    alloc_state_dict w s = (Ok (length (dicts s)), s')
    /\ heap_extends s s' /\ represents s' (length (dicts s)) w.
Proof.
  eexists. split.
  { unfold alloc_state_dict.
    rewrite (bind_step _ _ _ _ _ (alloc_weights_exact w s)). reflexivity. }
  split.
  { split; intros; simpl; now apply lookup_app_l_Some. }
  eexists. simpl. split; [now apply list_lookup_middle | ].
  split; [apply fst_zip; now rewrite length_fmap, length_seq | ].
  rewrite snd_zip by now rewrite length_fmap, length_seq.
  split; [apply NoDup_seq | ].
  apply Forall2_same_length_lookup_2; [now rewrite length_seq, length_fmap | ].
  intros i a t Ha Ht. apply lookup_seq in Ha as [-> Hi].
  rewrite lookup_app_r by lia.
  now replace (length (tensors s) + i - length (tensors s)) with i by lia.
Qed.

Lemma alloc_models_represents (ws : list weights) : forall s,
  exists ms s',
    alloc_models ws s = (Ok ms, s')
    /\ heap_extends s s' /\ Forall2 (represents s') ms ws.
Proof.
  induction ws as [|w ws IH]; intros s.
  - exists [], s. split; [done | ]. split; [apply heap_extends_refl | constructor].
  - destruct (alloc_state_dict_represents w s) as (s1 & Hrun1 & Hext1 & Hrep1).
    destruct (IH s1) as (ms & s' & Hrun & Hext & Hreps).
    exists (length (dicts s) :: ms), s'. split.
    { simpl. rewrite (bind_step _ _ _ _ _ Hrun1), (bind_step _ _ _ _ _ Hrun).
      done. }
    split; [eapply heap_extends_trans; eauto | ].
    constructor; [ | done]. eapply represents_extends; eauto.
Qed.

Lemma assoc_Forall2 {V V'} (R : V -> V' -> Prop) (key : string) :
  forall (sd : list (string * V)) (w : list (string * V')),
    sd.*1 = w.*1 -> Forall2 R (sd.*2) (w.*2) ->
    forall a, assoc key sd = Some a -> exists t, assoc key w = Some t /\ R a t.
Proof.
  induction sd as [|[k a'] sd IH]; intros [|[k' t'] w] Hfst Hall a Ha;
    try done.
  simpl in *. injection Hfst as <- Hfst.
  apply Forall2_cons in Hall as [Hhd Hall].
  destruct (decide (key = k)) as [_ | _].
  - injection Ha as <-. eauto.
  - eauto.
Qed.

Lemma represents_read h d w key t :
  represents h d w -> assoc key w = Some t -> read_param h d key = Some t.
Proof.
  intros (sd & Hsd & Hfst & _ & Hall) Hw.
  destruct (assoc_Forall2 (fun t a => tensors h !! a = Some t) key w sd
              (eq_sym Hfst) (proj2 (Forall2_flip _ _ _) Hall) t Hw) as (a & Ha & Hat).
  unfold read_param. rewrite Hsd. simpl. rewrite Ha. done.
Qed.

Lemma read_represents h d w key t :
  represents h d w -> read_param h d key = Some t -> assoc key w = Some t.
Proof.
  intros (sd & Hsd & Hfst & _ & Hall). unfold read_param. rewrite Hsd. simpl.
  destruct (assoc key sd) as [a|] eqn:Ha; [ | done]. simpl. intros Hat.
  destruct (assoc_Forall2 _ key sd w Hfst Hall a Ha) as (t' & Ht' & Hat').
  congruence.
Qed.

(** *** The aggregator on mappings by value *)

(** The tensors [others] bound to [key] in the mappings [rest], all of the
    shape of [t0]. *)
Definition bound_in (rest : list weights) (key : string) (t0 : tensor)
    (others : list tensor) : Prop :=
  Forall2 (fun w t => assoc key w = Some t
                      /\ t_shape t = t_shape t0 /\ tensor_wf t) rest others.

(** Entry [q] of the result is the average for entry [p] of the first
    mapping. *)
Definition averaged_entry (rest : list weights) (p q : string * tensor) : Prop :=
  q.1 = p.1
  /\ exists others, bound_in rest p.1 p.2 others /\ q.2 = averaged p.2 others.

Lemma read_back (h : heap) (Q : string * tensor -> string * tensor -> Prop)
    (w0 : weights) (sd : state_dict) :
  Forall2 (fun p x => exists t, tensors h !! x.2 = Some t /\ Q p (x.1, t)) w0 sd ->
  exists r,
    mapM (fun '(key, a) => t ← tensors h !! a; Some (key, t)) sd = Some r
    /\ Forall2 Q w0 r.
Proof.
  induction 1 as [|p [key a] w0 sd (t & Ht & HQ) _ (r & Hr & Hall)].
  - exists []. split; [done | constructor].
  - exists ((key, t) :: r). split; [ | now constructor].
    simpl in *. rewrite Ht. simpl. now rewrite Hr.
Qed.

Lemma average_weights_value_exact (w0 : weights) (rest : list weights) :
  NoDup (w0.*1) ->
  Forall (fun p => tensor_wf p.2) w0 ->
  Forall (fun w => forall key t0, assoc key w0 = Some t0 ->
            exists t, assoc key w = Some t
                      /\ t_shape t = t_shape t0 /\ tensor_wf t) rest ->
  exists r,
    average_weights_value (w0 :: rest) = Ok r
    /\ Forall2 (averaged_entry rest) w0 r.
Proof.
  intros Hnd Hwf0 Hcompat.
  destruct (alloc_models_represents (w0 :: rest) (Heap [] []))
    as (ms & h & Hrun & _ & Hreps).
  apply Forall2_cons_inv_r in Hreps as (m0 & mrest & Hrep0 & Hreps & ->).
  pose proof Hrep0 as (sd0 & Hsd0 & Hfst0 & Hnd0 & Hall0).
  assert (Hlen0 : length sd0 = length w0).
  { apply (f_equal length) in Hfst0. now rewrite !length_fmap in Hfst0. }
  (* an entry of the first mapping, in the store *)
  assert (Hentry : forall idx key a0, sd0 !! idx = Some (key, a0) ->
            exists t0, w0 !! idx = Some (key, t0) /\ tensors h !! a0 = Some t0).
  { intros idx key a0 Hidx.
    destruct (lookup_lt_is_Some_2 w0 idx) as [[k t0] Hw0].
    { rewrite <- Hlen0. now apply lookup_lt_Some in Hidx. }
    exists t0.
    assert (k = key) as ->.
    { apply (f_equal (fun l => l !! idx)) in Hfst0.
      rewrite !list_lookup_fmap, Hidx, Hw0 in Hfst0. simpl in Hfst0.
      congruence. }
    split; [done | ].
    apply (Forall2_lookup_lr _ _ _ idx a0 t0 Hall0).
    - now rewrite list_lookup_fmap, Hidx.
    - now rewrite list_lookup_fmap, Hw0. }
  assert (Hparams : forall idx, idx < length sd0 ->
            exists key t0 others, params h mrest sd0 idx key t0 others).
  { intros idx Hidx.
    destruct (lookup_lt_is_Some_2 sd0 idx Hidx) as [[key a0] Hsd].
    destruct (Hentry idx key a0 Hsd) as (t0 & Hw0 & Ht0).
    assert (exists others, bound_in rest key t0 others) as [others Hothers].
    { apply Forall2_exists. eapply Forall_impl; [exact Hcompat | ].
      intros w Hw. apply Hw. eapply assoc_lookup; eauto. }
    exists key, t0, others, a0. split; [done | ]. split; [done | ].
    split.
    { rewrite Forall_lookup in Hwf0. apply (Hwf0 idx (key, t0) Hw0). }
    eapply Forall2_trans; [ | exact Hreps | exact Hothers].
    intros m w t Hrep (Hw & Hsh & Hwf). split; [ | done].
    eapply represents_read; eauto. }
  destruct (average_weights_exact h m0 mrest sd0 Hsd0
              ltac:(now rewrite Hfst0) Hnd0 Hparams)
    as (s' & Havg & Hlen & Hbt & Hbd & sd & Hsd & Hfst & Hdone & _).
  assert (Hall : Forall2 (fun p x => exists t, tensors s' !! x.2 = Some t
                            /\ averaged_entry rest p (x.1, t)) w0 sd).
  { apply Forall2_same_length_lookup_2.
    { apply (f_equal length) in Hfst. rewrite !length_fmap in Hfst. lia. }
    intros idx [k t] [k' a] Hw0 Hx.
    assert (Hidx : idx < length sd0).
    { rewrite Hlen0. now apply lookup_lt_Some in Hw0. }
    destruct (Hdone idx Hidx) as (key & t0 & others & Hp & Hsdx & Htx).
    destruct Hp as (a0 & Hsd0x & Ht0 & _ & Hothers).
    destruct (Hentry idx key a0 Hsd0x) as (t0' & Hw0' & Ht0').
    rewrite Hx in Hsdx. rewrite Hw0 in Hw0'. simplify_eq. simpl.
    eexists. split; [exact Htx | ]. split; [done | ].
    exists others. split; [ | done]. simpl.
    eapply Forall2_trans; [ | exact (proj2 (Forall2_flip _ _ _) Hreps)
                            | exact Hothers].
    intros w m t' Hrep (Hread & Hsh & Hwf). split; [ | done].
    eapply read_represents; eauto. }
  destruct (read_back s' _ w0 sd Hall) as (r & Hr & Hfinal).
  exists r. split; [ | done].
  unfold average_weights_value.
  rewrite (bind_step _ _ _ _ _ Hrun), Havg.
  unfold read_state_dict. rewrite Hsd. simpl. now rewrite Hr.
Qed.

(** A parameter mapping is a dict (one entry per name) of tensors whose
    data fit their shapes. *)
Definition well_formed (w : weights) : Prop :=
  NoDup (w.*1) /\ Forall (fun p => tensor_wf p.2) w.

(** [w] has the parameter names of [w0]. *)
Definition same_names (w0 w : weights) : Prop :=
  forall key, key ∈ w.*1 <-> key ∈ w0.*1.

(** A name bound in [w0] and in [w] is bound to tensors of one shape. *)
Definition same_shapes (w0 w : weights) : Prop :=
  forall key t0 t,
    assoc key w0 = Some t0 -> assoc key w = Some t -> t_shape t = t_shape t0.

Lemma assoc_Some_elem {V} key (w : list (string * V)) v :
  assoc key w = Some v -> (key, v) ∈ w.
Proof.
  induction w as [|[k x] w IH]; [done | ]. simpl.
  destruct (decide (key = k)) as [-> | _].
  - intros [= ->]. left.
  - intros Hv. right. auto.
Qed.

Lemma elem_assoc_Some {V} key (w : list (string * V)) :
  key ∈ w.*1 -> exists v, assoc key w = Some v.
Proof.
  induction w as [|[k x] w IH]; simpl; [now intros ?%elem_of_nil | ].
  destruct (decide (key = k)) as [-> | Hne]; [eauto | ].
  intros [-> | Hin]%elem_of_cons; [done | auto].
Qed.

Lemma Qc_div_1 (x : Qc) : (x / Qc_of_nat 1)%Qc = x.
Proof.
  assert (Qc_of_nat 1 = 1%Qc) as -> by now apply Qc_is_canon.
  unfold Qcdiv. assert (/ 1 = 1)%Qc as -> by now apply Qc_is_canon.
  apply Qcmult_1_r.
Qed.

Lemma averaged_alone (t : tensor) : averaged t [] = t.
Proof.
  destruct t as [sh d]. unfold averaged. simpl. f_equal.
  induction d as [|x d IH]; [done | ].
  simpl in *. f_equal; [apply Qc_div_1 | exact IH].
Qed.

(** C1.  For a non-empty list [P :: rest] of parameter mappings in which
    every mapping has the parameter names of the first (and, name by name,
    tensors of the same shape), [average_weights] returns a mapping with the
    names of the first whose tensor at every name is the elementwise
    arithmetic mean of the tensors at that name across the whole list; for
    the single-element list [[P]] the result is [P]. *)
Theorem average_weights_mean (P : weights) (rest : list weights) :
  Forall well_formed (P :: rest) ->
  Forall (same_names P) rest ->
  Forall (same_shapes P) rest ->
  exists r,
    average_weights_value (P :: rest) = Ok r
    /\ r.*1 = P.*1
    /\ (forall key, key ∈ P.*1 ->
          exists ts,
            Forall2 (fun w t => assoc key w = Some t) (P :: rest) ts
            /\ assoc key r = elementwise_mean ts)
    /\ (rest = [] -> r = P).
Proof.
  intros Hwf Hnames Hshapes.
  apply Forall_cons in Hwf as [[Hnd Hwf0] Hwf].
  assert (Hcompat : Forall (fun w => forall key t0, assoc key P = Some t0 ->
             exists t, assoc key w = Some t
                       /\ t_shape t = t_shape t0 /\ tensor_wf t) rest).
  { rewrite Forall_forall in Hwf, Hnames, Hshapes. apply Forall_forall.
    intros w Hw key t0 Ht0.
    destruct (elem_assoc_Some key w) as [t Ht].
    { apply (Hnames w Hw), list_elem_of_fmap. exists (key, t0).
      split; [done | now apply assoc_Some_elem]. }
    exists t. split; [done | ]. split; [eapply Hshapes; eauto | ].
    destruct (Hwf w Hw) as [_ Hall]. rewrite Forall_forall in Hall.
    apply (Hall (key, t)). now apply assoc_Some_elem. }
  destruct (average_weights_value_exact P rest Hnd Hwf0 Hcompat)
    as (r & Hrun & Hall).
  assert (Hfst : r.*1 = P.*1).
  { clear -Hall. induction Hall as [|p q P r [Hq _] _ IH]; [done | ].
    simpl. f_equal; [exact Hq | exact IH]. }
  exists r. split; [done | ]. split; [done | ]. split.
  - intros key Hkey.
    apply list_elem_of_fmap in Hkey as ([k t0] & -> & Hin).
    apply list_elem_of_lookup in Hin as [idx Hidx]. simpl.
    destruct (Forall2_lookup_l _ _ _ _ _ Hall Hidx)
      as ([k' t'] & Hr & Hk & others & Hothers & Ht').
    simpl in *. subst k' t'.
    exists (t0 :: others). split.
    + constructor; [eapply assoc_lookup; eauto | ].
      eapply Forall2_impl; [exact Hothers | ]. now intros w t [? _].
    + rewrite (assoc_lookup r idx k (averaged t0 others))
        by (rewrite ?Hfst; done).
      symmetry. apply averaged_mean.
      rewrite Forall_lookup in Hwf0. pose proof (Hwf0 idx _ Hidx) as Hwft0.
      eapply Forall2_Forall_r; [exact Hothers | ].
      apply Forall_forall. intros w _ t (_ & Hsh & Ht).
      unfold tensor_wf in *. simpl in *. congruence.
  - intros ->. clear -Hall.
    induction Hall as [|[k t] [k' t'] P r (Hk & others & Ho & Ht) _ IH];
      [done | ].
    simpl in *. apply Forall2_nil_inv_l in Ho as ->.
    now rewrite Hk, Ht, averaged_alone, IH.
Qed.

(** ** Evaluation *)

Lemma Qc_of_nat_add a b : Qc_of_nat (a + b) = (Qc_of_nat a + Qc_of_nat b)%Qc.
Proof.
  apply Qc_is_canon. unfold Qc_of_nat, Qc_of_Z, Qcplus, Q2Qc. simpl.
  rewrite !Qred_correct, Nat2Z.inj_add, inject_Z_plus. reflexivity.
Qed.

Lemma Qc_of_nat_le a b : a <= b -> (Qc_of_nat a <= Qc_of_nat b)%Qc.
Proof.
  intros Hab. unfold Qc_of_nat, Qc_of_Z, Qcle, Qle. simpl. lia.
Qed.

Lemma Qc_of_nat_pos n : 0 < n -> (0 < Qc_of_nat n)%Qc.
Proof.
  intros Hn. unfold Qc_of_nat, Qc_of_Z, Qclt, Qlt. simpl. lia.
Qed.

Lemma Qc_ratio_unit (a b : Qc) :
  (0 <= a)%Qc -> (a <= b)%Qc -> (0 < b)%Qc -> (0 <= a / b)%Qc /\ (a / b <= 1)%Qc.
Proof.
  intros Ha Hab Hb.
  assert (Hne : b <> 0%Qc) by (apply not_eq_sym; now apply Qclt_not_eq).
  assert (Hmul : (a / b * b)%Qc = a).
  { rewrite Qcmult_comm. now apply Qcmult_div_r. }
  split; apply (Qcmult_lt_0_le_reg_r _ _ b Hb); rewrite Hmul.
  - now rewrite Qcmult_0_l.
  - now rewrite Qcmult_1_l.
Qed.

Lemma slices_Forall2 {A B} (R : A -> B -> Prop) sizes : forall l k,
  Forall2 R l k -> Forall2 (Forall2 R) (slices sizes l) (slices sizes k).
Proof.
  induction sizes as [|n sizes IH]; intros l k Hlk; simpl; constructor.
  - now apply Forall2_take.
  - now apply IH, Forall2_drop.
Qed.

Lemma sum_batch_sizes total size :
  0 < size -> sum_list (batch_sizes total size) = total.
Proof.
  intros Hsize. unfold batch_sizes.
  rewrite sum_list_with_app, sum_list_replicate.
  pose proof (Nat.div_mod_eq total size) as Hdm.
  destruct (total mod size =? 0) eqn:E; simpl.
  - apply Nat.eqb_eq in E. lia.
  - lia.
Qed.

Section EvaluateProperties.
Context {X Image Opt : Type} `{Torch X Image Opt}.

(** The examples whose arg-max predicted class is their label. *)
Definition correct_predictions (w : weights) (items : list (Image * nat))
  : nat :=
  length (filter (fun p => torch_argmax (net_eval w p.1) = p.2) items).

(** The loss of one batch of examples. *)
Definition batch_loss_of (w : weights) (items : list (Image * nat)) : Qc :=
  nll_loss (net_eval w <$> items.*1) (items.*2).

Lemma fetch_Ok (data : dataset Image) : forall batch items (x : X),
  Forall2 (fun i r => ds_get data i = Ok r) batch items ->
  fetch data batch x = (Ok items, x).
Proof.
  induction batch as [|i batch IH]; intros items x Hall.
  - now apply Forall2_nil_inv_l in Hall as ->.
  - apply Forall2_cons_inv_l in Hall as (r & items' & Hr & Hall & ->).
    simpl. rewrite Hr. now rewrite (bind_step _ _ _ _ _ (IH _ x Hall)).
Qed.

Lemma count_eq_correct (w : weights) (items : list (Image * nat)) :
  count_eq (torch_argmax <$> (net_eval w <$> items.*1)) (items.*2)
  = correct_predictions w items.
Proof.
  unfold count_eq, correct_predictions.
  induction items as [|[img lab] items IH]; [done | ].
  cbn [fmap list_fmap zip zip_with fst snd].
  rewrite !filter_cons. cbn [fst snd].
  destruct (decide (torch_argmax (net_eval w img) = lab)); simpl;
    now rewrite <- IH.
Qed.

Lemma correct_predictions_app w l1 l2 :
  correct_predictions w (l1 ++ l2)
  = correct_predictions w l1 + correct_predictions w l2.
Proof.
  unfold correct_predictions. now rewrite filter_app, length_app.
Qed.

Lemma correct_predictions_le w items :
  correct_predictions w items <= length items.
Proof. apply length_filter. Qed.

Lemma evaluate_batch_Ok (w : weights) (data : dataset Image)
    batch items loss total correct (x : X) :
  Forall2 (fun i r => ds_get data i = Ok r) batch items ->
  evaluate_batch w data (loss, total, correct) batch x
  = (Ok ((loss + batch_loss_of w items)%Qc,
         (total + Qc_of_nat (length items))%Qc,
         (correct + Qc_of_nat (correct_predictions w items))%Qc),
     x).
Proof.
  intros Hitems. unfold evaluate_batch.
  rewrite (bind_step _ _ _ _ _ (fetch_Ok data batch items x Hitems)).
  now rewrite count_eq_correct, length_fmap.
Qed.

(** The evaluation loop, batch after batch. *)
Lemma evaluate_loop (w : weights) (data : dataset Image) :
  forall loader (groups : list (list (Image * nat))) loss total correct (x : X),
    Forall2 (Forall2 (fun i r => ds_get data i = Ok r)) loader groups ->
    for_fold (evaluate_batch w data) loader (loss, total, correct) x
    = (Ok (foldl Qcplus loss (batch_loss_of w <$> groups),
           (total + Qc_of_nat (length (concat groups)))%Qc,
           (correct + Qc_of_nat (correct_predictions w (concat groups)))%Qc),
       x).
Proof.
  induction loader as [|batch loader IH];
    intros groups loss total correct x Hall.
  - apply Forall2_nil_inv_l in Hall as ->. simpl.
    change (correct_predictions w []) with 0.
    now rewrite Qc_of_nat_0, !Qcplus_0_r.
  - apply Forall2_cons_inv_l in Hall as (items & groups' & Hitems & Hall & ->).
    cbn [for_fold].
    rewrite (bind_step _ _ _ _ _
               (evaluate_batch_Ok w data batch items loss total correct x
                  Hitems)).
    rewrite (IH groups' _ _ _ x Hall). cbn [concat fmap list_fmap foldl].
    rewrite length_app, correct_predictions_app, !Qc_of_nat_add,
      !Qcplus_assoc.
    reflexivity.
Qed.

(** C9.  On a non-empty evaluation split (every item readable, a positive
    batch size, parameters the architecture accepts), [evaluate] returns
    as accuracy the number of examples whose arg-max predicted class is
    their label divided by the number of examples, a value between 0 and
    1, and as loss the sum of the losses of the batches. *)
Theorem evaluate_accuracy_loss (model_w : weights)
    (items : list (Image * nat)) (data : dataset Image) (batch_size : Z)
    (x : X) :
  arch_accepts model_w = true ->
  (0 < batch_size)%Z ->
  items <> [] ->
  Forall2 (fun i r => ds_get data i = Ok r) (seq 0 (ds_len data)) items ->
  exists accuracy loss x',
    evaluate model_w data batch_size x = (Ok (accuracy, loss), x')
    /\ accuracy
       = (Qc_of_nat (correct_predictions model_w items)
          / Qc_of_nat (length items))%Qc
    /\ (0 <= accuracy)%Qc /\ (accuracy <= 1)%Qc
    /\ loss
       = sum_Qc (batch_loss_of model_w
                   <$> slices (batch_sizes (length items)
                                 (Z.to_nat batch_size)) items).
Proof.
  intros Haccept Hsize Hne Hitems.
  pose proof (Forall2_length _ _ _ Hitems) as Hlen.
  rewrite length_seq in Hlen.
  set (size := Z.to_nat batch_size).
  set (sizes := batch_sizes (length items) size).
  assert (Hgroups : Forall2 (Forall2 (fun i r => ds_get data i = Ok r))
                      (batches (seq 0 (ds_len data)) size)
                      (slices sizes items)).
  { unfold batches, sizes. rewrite length_seq, <- Hlen.
    now apply slices_Forall2. }
  assert (Hconcat : concat (slices sizes items) = items).
  { rewrite concat_slices. unfold sizes.
    rewrite sum_batch_sizes by (unfold size; lia). apply firstn_all. }
  assert (Hpos : 0 < length items) by (destruct items; [congruence | simpl; lia]).
  assert (Htotal : (0 + Qc_of_nat (length items))%Qc <> 0%Qc).
  { rewrite Qcplus_0_l. apply not_eq_sym, Qclt_not_eq.
    now apply Qc_of_nat_pos. }
  destruct (cnn_mnist x) as [fresh x1] eqn:Hfresh.
  exists (Qc_of_nat (correct_predictions model_w items)
          / Qc_of_nat (length items))%Qc,
    (sum_Qc (batch_loss_of model_w <$> slices sizes items)), x1.
  split.
  { unfold evaluate.
    rewrite (bind_step _ _ _ fresh x1)
      by (unfold lift_total; now rewrite Hfresh).
    unfold load_state_dict. rewrite Haccept.
    rewrite (bind_step _ _ _ model_w x1) by done.
    unfold DataLoader.
    destruct (Z.leb_spec batch_size 0) as [Hle | _]; [lia | ].
    rewrite (bind_step _ _ _ size x1) by done.
    rewrite (bind_step _ _ _ _ _
               (evaluate_loop model_w data _ _ 0%Qc 0%Qc 0%Qc x1 Hgroups)).
    rewrite Hconcat. unfold float_div.
    rewrite decide_False by exact Htotal.
    unfold bind, ret. now rewrite !Qcplus_0_l. }
  split; [done | ].
  destruct (Qc_ratio_unit (Qc_of_nat (correct_predictions model_w items))
              (Qc_of_nat (length items))) as [Hlo Hhi].
  - apply Qc_of_nat_nonneg.
  - apply Qc_of_nat_le, correct_predictions_le.
  - now apply Qc_of_nat_pos.
  - done.
Qed.
End EvaluateProperties.

(** ** The round loop *)

(** The device visits that a transcript shows, each with the number of the
    round banner it follows. *)
Fixpoint visits (round : nat) (out : list line) : list (nat * nat) :=
  match out with
  | [] => []
  | RoundBanner n :: out' => visits n out'
  | DeviceLine i _ :: out' => (round, i) :: visits round out'
  | _ :: out' => visits round out'
  end.

(** The visits of rounds [first], ..., [first + rounds - 1] over devices
    [0], ..., [devices - 1]. *)
Definition schedule (first rounds devices : nat) : list (nat * nat) :=
  n ← seq first rounds; i ← seq 0 devices; [(n, i)].

(** The round banner of a transcript that is read last, [round] if none. *)
Fixpoint last_banner (round : nat) (out : list line) : nat :=
  match out with
  | [] => round
  | RoundBanner n :: out' => last_banner n out'
  | _ :: out' => last_banner round out'
  end.

Lemma visits_app round out1 out2 :
  visits round (out1 ++ out2)
  = visits round out1 ++ visits (last_banner round out1) out2.
Proof.
  revert round. induction out1 as [|l out1 IH]; intros round; [done | ].
  destruct l; simpl; rewrite ?IH; done.
Qed.

Lemma last_banner_app round out1 out2 :
  last_banner round (out1 ++ out2) = last_banner (last_banner round out1) out2.
Proof.
  revert round. induction out1 as [|l out1 IH]; intros round; [done | ].
  destruct l; simpl; rewrite ?IH; done.
Qed.

Tactic Notation "inv_bind" hyp(H) "as" ident(H1)
    "binding" simple_intropattern(pat) :=
  let s := fresh "s" in
  apply bind_Ok in H; destruct H as (pat & s & H1 & H).

Section OrchestratorProperties.
Context {G X Image Opt : Type} `{NumpyRandom G} `{Torch X Image Opt}.
Variable train_dataset : list (Image * nat).
Variable cfg : config.
Variable mapping : gmap nat (list nat * list nat).

Lemma with_torch_stdout {A} (m : M X A) (w : world G X) r w' :
  with_torch m w = (r, w') -> stdout w' = stdout w.
Proof.
  unfold with_torch. destruct (m (torch_rng w)). now intros [= <- <-].
Qed.

Lemma float_div_state {S} (a b : Qc) (s : S) r s' :
  float_div a b s = (r, s') -> s' = s.
Proof.
  unfold float_div. destruct (decide (b = 0%Qc)); now intros [= <- <-].
Qed.

(** A device that is served writes its line, and nothing else. *)
Lemma device_step_Ok global_model i (w : world G X) res w' :
  device_step train_dataset cfg mapping global_model i w = (Ok res, w') ->
  exists idxs classes,
    mapping !! i = Some (idxs, classes)
    /\ stdout w' = stdout w ++ [DeviceLine i (length idxs)].
Proof.
  unfold device_step. intros Hrun.
  inv_bind Hrun as Hget binding [idxs classes].
  unfold mapping_getitem in Hget.
  destruct (mapping !! i) as [entry|] eqn:Hi; [ | done].
  inv_ret Hget.
  inv_bind Hrun as Hprint binding []. injection Hprint as <-.
  inv_bind Hrun as Hsplit binding [train_data validation_data].
  inv_bind Hrun as Htrain binding [local_model train_loss].
  inv_bind Hrun as Heval binding [val_accuracy val_loss].
  apply with_torch_stdout in Hsplit, Htrain, Heval.
  injection Hrun as _ <-.
  exists idxs, classes. split; [done | ].
  now rewrite Heval, Htrain, Hsplit.
Qed.

Lemma schedule_S first rounds devices :
  schedule first (S rounds) devices
  = ((fun i => (first, i)) <$> seq 0 devices)
    ++ schedule (S first) rounds devices.
Proof.
  unfold schedule. cbn [seq mbind list_bind]. now f_equal.
Qed.

(** [m] is what device [i] returns when it trains from [global_model]. *)
Definition trained_from (global_model : weights) (i : nat) (m : weights)
  : Prop :=
  exists (w1 w2 : world G X) train_loss val_loss val_accuracy,
    device_step train_dataset cfg mapping global_model i w1
    = (Ok (m, train_loss, val_loss, val_accuracy), w2).

(** A round from [g1] installs [g2]: [g2] is the aggregate of the local
    parameters that the devices [0], ..., [devices - 1] return, in this
    order, when each trains from [g1]. *)
Definition installs (g1 g2 : weights) : Prop :=
  exists ms,
    Forall2 (trained_from g1) (seq 0 (devices cfg)) ms
    /\ average_weights_value ms = Ok g2.

(** Every round starts from what the round before installed. *)
Fixpoint chain (g : weights) (globals : list weights) : Prop :=
  match globals with
  | [] => True
  | g2 :: globals' => installs g g2 /\ chain g2 globals'
  end.

Lemma devices_loop_Ok global_model : forall ids acc (w : world G X) acc' w',
  for_fold (device_body train_dataset cfg mapping global_model) ids acc w
  = (Ok acc', w') ->
  exists ms out,
    Forall2 (trained_from global_model) ids ms
    /\ acc'.1.1.1 = acc.1.1.1 ++ ms
    /\ stdout w' = stdout w ++ out
    /\ forall round,
         visits round out = (fun i => (round, i)) <$> ids
         /\ last_banner round out = round.
Proof.
  induction ids as [|i ids IH]; intros acc w acc' w' Hrun.
  - inv_ret Hrun. exists [], []. rewrite !app_nil_r. repeat split; constructor.
  - cbn [for_fold] in Hrun. inv_bind Hrun as Hbody binding acc1.
    destruct acc as [[[lw ll] vl] va]. unfold device_body in Hbody.
    inv_bind Hbody as Hstep binding [[[m tl] vloss] vacc].
    inv_ret Hbody.
    destruct (device_step_Ok _ _ _ _ _ Hstep) as (idxs & classes & _ & Hout).
    destruct (IH _ _ _ _ Hrun) as (ms & out & Hms & Hacc & Hout' & Hvisits).
    exists (m :: ms), (DeviceLine i (length idxs) :: out).
    split; [constructor; [ | done]; now exists w, s, tl, vloss, vacc | ].
    split; [simpl in *; now rewrite Hacc, <- app_assoc | ].
    split; [now rewrite Hout', Hout, <- app_assoc | ].
    intros round. destruct (Hvisits round) as [Hv Hb]. simpl.
    now rewrite Hv, Hb.
Qed.

Lemma round_body_Ok global_model round (w : world G X) g' w' :
  round_body train_dataset cfg mapping global_model round w = (Ok g', w') ->
  exists out,
    installs global_model g'
    /\ stdout w' = stdout w ++ out
    /\ forall r,
         visits r out = (fun i => (round + 1, i)) <$> seq 0 (devices cfg)
         /\ last_banner r out = round + 1.
Proof.
  unfold round_body. intros Hrun.
  inv_bind Hrun as Hbanner binding []. injection Hbanner as <-.
  inv_bind Hrun as Hloop binding [[[lw ll] vl] va].
  apply devices_loop_Ok in Hloop as (ms & out & Hms & Hlw & Hout & Hvisits).
  simpl in Hlw, Hout. subst lw.
  inv_bind Hrun as Havg binding global_weights.
  unfold of_outcome in Havg.
  destruct (average_weights_value ms) as [gw|e] eqn:Hvalue; [ | done].
  inv_ret Havg.
  inv_bind Hrun as Hload binding g.
  pose proof (with_torch_stdout _ _ _ _ Hload) as Hs1.
  assert (g = global_weights) as ->.
  { unfold with_torch, load_state_dict in Hload.
    destruct (arch_accepts global_weights); now inv_ret Hload. }
  inv_bind Hrun as Hd1 binding mean_train_loss. apply float_div_state in Hd1.
  inv_bind Hrun as Hd2 binding mean_val_loss. apply float_div_state in Hd2.
  inv_bind Hrun as Hd3 binding mean_val_accuracy.
  apply float_div_state in Hd3.
  inv_bind Hrun as Hp1 binding []. injection Hp1 as <-.
  inv_bind Hrun as Hp2 binding []. injection Hp2 as <-.
  inv_bind Hrun as Hp3 binding []. injection Hp3 as <-.
  inv_ret Hrun. subst. simpl.
  exists ([RoundBanner (round + 1)] ++ out
          ++ [MeanTrainLoss mean_train_loss; MeanValLoss mean_val_loss;
              MeanValAccuracy mean_val_accuracy]).
  split; [now exists ms | ].
  split.
  { rewrite Hs1, Hout. rewrite <- !app_assoc. reflexivity. }
  intros r. destruct (Hvisits (round + 1)) as [Hv Hb].
  cbn [app visits last_banner].
  rewrite visits_app, last_banner_app, Hv, Hb. simpl.
  now rewrite app_nil_r.
Qed.

Lemma rounds_Ok : forall n first g (w : world G X) g' w',
  for_fold (round_body train_dataset cfg mapping) (seq first n) g w
  = (Ok g', w') ->
  exists globals out,
    length globals = n
    /\ chain g globals
    /\ last (g :: globals) = Some g'
    /\ stdout w' = stdout w ++ out
    /\ forall r,
         visits r out = schedule (first + 1) n (devices cfg)
         /\ last_banner r out = match n with 0 => r | _ => first + n end.
Proof.
  induction n as [|n IH]; intros first g w g' w' Hrun.
  - inv_ret Hrun. exists [], []. rewrite app_nil_r. repeat split; done.
  - cbn [seq for_fold] in Hrun. inv_bind Hrun as Hbody binding g1.
    apply round_body_Ok in Hbody as (out1 & Hinst & Hout1 & Hvisits1).
    apply IH in Hrun
      as (globals & out2 & Hlen & Hchain & Hlast & Hout2 & Hvisits2).
    exists (g1 :: globals), (out1 ++ out2).
    split; [simpl; lia | ]. split; [now split | ].
    split; [now rewrite last_cons_cons | ].
    split; [now rewrite Hout2, Hout1, <- app_assoc | ].
    intros r. destruct (Hvisits1 r) as [Hv1 Hb1].
    destruct (Hvisits2 (first + 1)) as [Hv2 Hb2].
    rewrite visits_app, last_banner_app, Hv1, Hb1, Hv2, Hb2.
    split.
    + rewrite schedule_S. now replace (S first + 1) with (S (first + 1)) by lia.
    + destruct n; lia.
Qed.

(** C8.  A run of the round loop that completes has run exactly
    [global_rounds] rounds: the transcript shows the devices
    [0], ..., [devices - 1], in this order, once under each of the round
    banners [1], ..., [global_rounds], in this order; and every round
    installs the aggregate of the parameters its devices returned as the
    global model from which the devices of the next round train (the last
    one as the result of the loop). *)
Theorem round_loop_rounds (global_model : weights) (w : world G X) g' w' :
  round_loop train_dataset cfg mapping global_model w = (Ok g', w') ->
  exists globals out,
    length globals = global_rounds cfg
    /\ chain global_model globals
    /\ last (global_model :: globals) = Some g'
    /\ stdout w' = stdout w ++ out
    /\ visits 0 out = schedule 1 (global_rounds cfg) (devices cfg).
Proof.
  unfold round_loop. intros Hrun.
  apply rounds_Ok in Hrun
    as (globals & out & Hlen & Hchain & Hlast & Hout & Hvisits).
  exists globals, out. repeat (split; [done | ]).
  now destruct (Hvisits 0) as [-> _].
Qed.
End OrchestratorProperties.

(** * Concrete runs *)

(** ** A small generator

    A deterministic stand-in for NumPy's generator: the state is a counter,
    a shuffle reverses its argument, and [choice(a, size)] walks through
    [0 .. a-1] from the counter on. *)

Definition counter_shuffle (l : list nat) (g : nat) : list nat * nat :=
  (reverse l, S g).

Definition counter_choice (a size : nat) (g : nat) : list nat * nat :=
  ((fun i => (g + i) mod a) <$> seq 0 size, g + size).

Lemma counter_shuffle_perm l g : (counter_shuffle l g).1 ≡ₚ l.
Proof. apply reverse_Permutation. Qed.

Lemma counter_choice_length a size g :
  length (counter_choice a size g).1 = size.
Proof. unfold counter_choice. simpl. now rewrite length_fmap, length_seq. Qed.

Lemma counter_choice_bound a size g :
  Forall (fun i => i < a) (counter_choice a size g).1 \/ a = 0.
Proof.
  destruct a as [|a]; [now right | left].
  unfold counter_choice. cbn [fst]. apply Forall_fmap, Forall_forall.
  intros i _. unfold compose. apply Nat.mod_upper_bound. lia.
Qed.

#[local] Instance counter_random : NumpyRandom nat := {|
  np_seeded := Z.to_nat;
  np_shuffle := counter_shuffle;
  np_choice := counter_choice;
  np_shuffle_perm := counter_shuffle_perm;
  np_choice_length := counter_choice_length;
  np_choice_bound := counter_choice_bound;
|}.

(** ** A small dataset: eight records over four classes; the image of a
    record is a number. *)
Definition small_dataset : list (nat * nat) :=
  [(10, 0); (11, 1); (12, 2); (13, 3); (14, 0); (15, 1); (16, 2); (17, 3)].

Definition half : float := 0.5%float.

(** Four devices in two areas, seed 1, shuffling, half of every chunk. *)
Definition small_partition : outcome index_mapping * nat :=
  dataset_to_nodes_partitioning small_dataset 4 4 2 1 true half 0.

Definition small_mapping : index_mapping :=
  Eval vm_compute in
    match small_partition.1 with Ok m => m | Raise _ => ∅ end.

Lemma small_partition_Ok : small_partition = (Ok small_mapping, 7).
Proof. vm_compute. reflexivity. Qed.

(** Device 0 of the small partition holds record 5, of label 1. *)
Lemma partition_label_restriction_witness :
  Forall (fun i => exists img lab,
              small_dataset !! i = Some (img, lab) /\ lab ∈ [0; 1]) [5].
Proof.
  apply (partition_label_restriction small_dataset 4 4 2 1 true half 0
           small_mapping 7 0 [5] [0; 1]).
  - vm_compute. reflexivity.
  - vm_compute. reflexivity.
Defined.

(** The labels of the small partition: [0; 1] in the first area, [2; 3] in
    the second. *)
Lemma partition_coverage_witness :
  (forall c, c < 4 <->
             exists device idxs labels,
               small_mapping !! device = Some (idxs, labels) /\ c ∈ labels)
  /\ (forall a nodes d1 d2 idxs1 idxs2 l1 l2,
        array_split (np_arange 4) (Z.to_nat 2) !! a = Some nodes ->
        d1 ∈ nodes -> d2 ∈ nodes ->
        small_mapping !! d1 = Some (idxs1, l1) ->
        small_mapping !! d2 = Some (idxs2, l2) ->
        l1 = l2)
  /\ (forall a1 a2 nodes1 nodes2 d1 d2 idxs1 idxs2 l1 l2 c,
        a1 <> a2 ->
        array_split (np_arange 4) (Z.to_nat 2) !! a1 = Some nodes1 ->
        array_split (np_arange 4) (Z.to_nat 2) !! a2 = Some nodes2 ->
        d1 ∈ nodes1 -> d2 ∈ nodes2 ->
        small_mapping !! d1 = Some (idxs1, l1) ->
        small_mapping !! d2 = Some (idxs2, l2) ->
        c ∈ l1 -> c ∉ l2).
Proof.
  apply (partition_coverage small_dataset 4 4 2 1 true half 0 small_mapping 7).
  vm_compute. reflexivity.
Defined.

(** Device 0 of the small partition: its chunk is [[5; 4]], the first
    section of the reversed records of the labels 0 and 1, and it holds
    [int(2 * 0.5) = 1] record. *)
Lemma partition_sample_fraction_witness :
  exists records chunk,
    area_records small_dataset true [0; 1] records
    /\ array_split records (Z.to_nat (Z.quot 4 2))
         !! (0 mod Z.to_nat (Z.quot 4 2)) = Some chunk
    /\ int_of_float (float_of_len (length chunk) * half)
       = Ok (Z.of_nat (length [5]))
    /\ Forall (fun i => i ∈ chunk) [5].
Proof.
  apply (partition_sample_fraction small_dataset 4 4 2 1 true half 0
           small_mapping 7 0 [5] [0; 1]).
  - vm_compute. reflexivity.
  - vm_compute. reflexivity.
Defined.

(** Two areas divide four devices: the record of device 0 is not held by
    device 1. *)
Lemma partition_shards_disjoint_even_witness :
  (2 | 4)%Z /\ 5 ∉ [0].
Proof.
  assert (Hdiv : (2 | 4)%Z) by (exists 2%Z; reflexivity).
  split; [exact Hdiv | ].
  apply (partition_shards_disjoint_even small_dataset 4 4 2 1 true half 0
           small_mapping 7 0 1 [5] [0] [0; 1] [0; 1] 5 Hdiv).
  - vm_compute. reflexivity.
  - lia.
  - vm_compute. reflexivity.
  - vm_compute. reflexivity.
  - left.
Defined.


(** ** A fraction that does not round down

    Two hundred records, 150 of label 0 and 50 of label 1, two devices in
    two areas, no shuffling, [data_fraction = 0.58].  The chunk of device 0
    has 150 records and the device holds [int(150 * 0.58) = 87] of them;
    the chunk of device 1 has 50 and the device holds [int(50 * 0.58) = 28]:
    the first product rounds up to [87.0], the second is just below [29].
    No fraction [q] has both [floor(150 * q) = 87] and
    [floor(50 * q) = 28]. *)
Definition skewed_dataset : list (nat * nat) :=
  replicate 150 (0, 0) ++ replicate 50 (0, 1).

Lemma sample_count_not_floor :
  exists m g' idxs0 idxs1 chunk0 chunk1,
    dataset_to_nodes_partitioning skewed_dataset 2 2 2 1 false 0.58%float 0
    = (Ok m, g')
    /\ m !! 0 = Some (idxs0, [0]) /\ m !! 1 = Some (idxs1, [1])
    /\ array_split (records_per_class skewed_dataset [0]) 1 !! 0
       = Some chunk0
    /\ array_split (records_per_class skewed_dataset [1]) 1 !! 0
       = Some chunk1
    /\ length chunk0 = 150 /\ length chunk1 = 50
    /\ length idxs0 = 87 /\ length idxs1 = 28
    /\ forall q : Q,
        ~ (Qfloor (150 * q) = 87%Z /\ Qfloor (50 * q) = 28%Z).
Proof.
  eexists _, _, _, _, _, _.
  split; [vm_compute; reflexivity | ].
  split; [vm_compute; reflexivity | ].
  split; [vm_compute; reflexivity | ].
  split; [vm_compute; reflexivity | ].
  split; [vm_compute; reflexivity | ].
  split; [vm_compute; reflexivity | ].
  split; [vm_compute; reflexivity | ].
  split; [vm_compute; reflexivity | ].
  split; [vm_compute; reflexivity | ].
  intros q [Hbig Hsmall].
  pose proof (Qfloor_le (150 * q)) as Hle.
  pose proof (Qlt_floor (50 * q)) as Hlt.
  rewrite Hbig in Hle. rewrite Hsmall in Hlt.
  change (inject_Z 87) with (87 # 1)%Q in Hle.
  change (inject_Z (28 + 1)) with (29 # 1)%Q in Hlt.
  lra.
Qed.

(** The bounds on the fraction matter: a negative fraction makes
    [np.random.choice] refuse a negative size, and a fraction whose product
    with a length overflows makes [int] refuse an infinity. *)
Lemma fraction_out_of_range_raises :
  (dataset_to_nodes_partitioning small_dataset 4 4 2 1 true (-0.5)%float 0).1
  = Raise ValueError
  /\ (dataset_to_nodes_partitioning small_dataset 4 4 2 1 true
        0x1p1023%float 0).1
     = Raise OverflowError.
Proof. split; vm_compute; reflexivity. Qed.

(** ** Uneven configurations *)

(** Three records over two classes: one record of label 0. *)
Definition tiny_dataset : list (nat * nat) := [(10, 0); (11, 1); (12, 1)].

(** Three devices in two areas, the whole of every chunk.  [int(3 / 2)] is
    1, the first area has the devices 0 and 1, and both read the section
    [0 mod 1], [1 mod 1] of the area: the single record of label 0.  The
    draw of one out of one leaves the generator no choice. *)
Lemma shards_overlap_uneven :
  exists m g' idxs0 idxs1 labels0 labels1 i,
    dataset_to_nodes_partitioning tiny_dataset 2 3 2 1 false 1%float 0
    = (Ok m, g')
    /\ m !! 0 = Some (idxs0, labels0)
    /\ m !! 1 = Some (idxs1, labels1)
    /\ i ∈ idxs0 /\ i ∈ idxs1.
Proof.
  eexists _, _, [0], [0], [0], [0], 0.
  split; [vm_compute; reflexivity | ].
  split; [vm_compute; reflexivity | ].
  split; [vm_compute; reflexivity | ].
  split; left.
Qed.


(** ** A small network

    A stand-in for torch: a linear scorer with two outputs.  The generator
    is a counter, a permutation is a reversal, a training step moves every
    parameter by one and reports the loss it started from. *)

Definition linear_init : weights :=
  [("weight"%string, Tensor [2] [1; -(1)]%Qc);
   ("bias"%string, Tensor [2] [0; 0]%Qc)].

Definition linear_accepts (w : weights) : bool :=
  bool_decide (w.*1 = ["weight"; "bias"]%string).

Definition linear_eval (w : weights) (x : nat) : list Qc :=
  match w with
  | (_, t1) :: (_, t2) :: _ =>
      zip_with (fun a b => a * Qc_of_nat x + b)%Qc (t_data t1) (t_data t2)
  | _ => []
  end.

Fixpoint argmax_from (best : Qc) (at_best i : nat) (row : list Qc) : nat :=
  match row with
  | [] => at_best
  | v :: row' =>
      match (best ?= v)%Qc with
      | Lt => argmax_from v i (S i) row'
      | _ => argmax_from best at_best (S i) row'
      end
  end.

Definition first_argmax (row : list Qc) : nat :=
  match row with
  | [] => 0
  | v :: row' => argmax_from v 0 1 row'
  end.

Definition mean_nll (outputs : list (list Qc)) (labels : list nat) : Qc :=
  (foldr Qcplus 0 (zip_with (fun row lab => - (row !!! lab)) outputs labels)
   / Qc_of_nat (length labels))%Qc.

Definition linear_step (w : weights) (opt : unit) (items : list (nat * nat))
    (x : nat) : (weights * unit * Qc) * nat :=
  (((fun p => (p.1, Tensor (t_shape p.2) (Qcplus 1 <$> t_data p.2))) <$> w,
    opt,
    mean_nll (linear_eval w <$> items.*1) (items.*2)),
   S x).

Definition counter_randperm (n x : nat) : list nat * nat :=
  (reverse (seq 0 n), S x).

Definition counter_order (n x : nat) : outcome (list nat) * nat :=
  if n =? 0 then (Raise ValueError, x) else (Ok (reverse (seq 0 n)), S x).

Lemma counter_randperm_perm n x : (counter_randperm n x).1 ≡ₚ seq 0 n.
Proof. apply reverse_Permutation. Qed.

#[local] Instance linear_torch : Torch nat nat unit := {|
  torch_manual_seed := Z.to_nat;
  cnn_mnist := fun x => (linear_init, S x);
  arch_accepts := linear_accepts;
  net_eval := linear_eval;
  nll_loss := mean_nll;
  torch_argmax := first_argmax;
  adam := fun _ => tt;
  train_step := linear_step;
  randperm := counter_randperm;
  shuffled_order := counter_order;
  randperm_perm := counter_randperm_perm;
|}.

(** Two devices in two areas, two rounds of one epoch, batches of two. *)
Definition small_config : config := Config 2 2 1 true half 2 1 2.

Definition small_world : world nat nat := World 0 0 [].

Definition two_device_mapping : index_mapping :=
  Eval vm_compute in
    match (dataset_to_nodes_partitioning small_dataset 4 2 2 1 true half 0).1
    with Ok m => m | Raise _ => ∅ end.

Definition small_rounds : outcome weights * world nat nat :=
  round_loop small_dataset small_config two_device_mapping linear_init
    small_world.

Definition small_result : weights :=
  Eval vm_compute in
    match small_rounds.1 with Ok w => w | Raise _ => [] end.

Definition small_final : world nat nat :=
  Eval vm_compute in small_rounds.2.

(** The small run: two rounds over the devices 0 and 1. *)
Lemma round_loop_rounds_witness :
  exists globals out,
    length globals = global_rounds small_config
    /\ chain (G:=nat) small_dataset small_config two_device_mapping
         linear_init globals
    /\ last (linear_init :: globals) = Some small_result
    /\ stdout small_final = stdout small_world ++ out
    /\ visits 0 out
       = schedule 1 (global_rounds small_config) (devices small_config).
Proof.
  apply (round_loop_rounds small_dataset small_config two_device_mapping
           linear_init small_world small_result small_final).
  vm_compute. reflexivity.
Defined.

(** The small dataset, evaluated in batches of three. *)
Lemma evaluate_accuracy_loss_witness :
  exists accuracy loss x',
    evaluate linear_init (list_dataset small_dataset) 3 0
    = (Ok (accuracy, loss), x')
    /\ accuracy
       = (Qc_of_nat (correct_predictions linear_init small_dataset)
          / Qc_of_nat (length small_dataset))%Qc
    /\ (0 <= accuracy)%Qc /\ (accuracy <= 1)%Qc
    /\ loss
       = sum_Qc (batch_loss_of linear_init
                   <$> slices (batch_sizes (length small_dataset)
                                 (Z.to_nat 3)) small_dataset).
Proof.
  apply (evaluate_accuracy_loss linear_init small_dataset
           (list_dataset small_dataset) 3 0).
  - reflexivity.
  - lia.
  - discriminate.
  - repeat constructor.
Defined.

(** Two mappings of one architecture. *)
Definition first_weights : weights :=
  [("weight"%string, Tensor [2] [Q2Qc 1; Q2Qc 3]);
   ("bias"%string, Tensor [1] [Q2Qc 0])].

Definition second_weights : weights :=
  [("weight"%string, Tensor [2] [Q2Qc 3; Q2Qc 6]);
   ("bias"%string, Tensor [1] [Q2Qc 1])].

Lemma average_weights_mean_witness :
  exists r,
    average_weights_value (first_weights :: [second_weights]) = Ok r
    /\ r.*1 = first_weights.*1
    /\ (forall key, key ∈ first_weights.*1 ->
          exists ts,
            Forall2 (fun w t => assoc key w = Some t)
              (first_weights :: [second_weights]) ts
            /\ assoc key r = elementwise_mean ts)
    /\ ([second_weights] = [] -> r = first_weights).
Proof.
  apply (average_weights_mean first_weights [second_weights]).
  - assert (Hnames : NoDup ["weight"; "bias"]%string)
      by (apply (bool_decide_unpack _); vm_compute; exact I).
    apply Forall_cons; split; [ | apply Forall_cons; split; [ | constructor]];
      (split; [exact Hnames | repeat constructor]).
  - apply Forall_cons; split; [ | constructor].
    intros key. split; intros Hkey; exact Hkey.
  - apply Forall_cons; split; [ | constructor].
    intros key t0 t. simpl.
    repeat case_decide; intros; simplify_eq; reflexivity.
Defined.

(** * Further properties *)

(** ** The partitioner *)

Section PartitionerFurther.
Context {G : Type} `{NumpyRandom G}.
Context {Image : Type}.
Variable train_dataset : list (Image * nat).
Variable classes_count : nat.

Lemma partition_dom nodes_count areas seed shuffling f g m g' n :
  dataset_to_nodes_partitioning train_dataset classes_count
    nodes_count areas seed shuffling f g = (Ok m, g') ->
  is_Some (m !! n) <-> (Z.of_nat n < nodes_count)%Z.
Proof.
  intros Hrun.
  apply partition_Ok in Hrun as (Hareas & Hnpa & recss & _ & Hentry & Hdom).
  assert (Hpos : 0 < Z.to_nat areas) by lia.
  split.
  - intros [[picked labs] Hn].
    destruct (Hentry n picked labs Hn)
      as (a & nodes & records & Hnodes & _ & _ & Hin & _).
    pose proof (elem_of_slice _ _ _ _ _ Hnodes Hin) as Hseq.
    unfold np_arange in Hseq. apply elem_of_seq in Hseq. lia.
  - intros Hlt.
    destruct (elem_of_array_split (np_arange nodes_count) (Z.to_nat areas) n)
      as (a & nodes & Hnodes & Hin); [done | | eauto].
    unfold np_arange. apply elem_of_seq. lia.
Qed.

(** X1.  The devices of a returned mapping are exactly
    [0], ..., [nodes_count - 1]: every device has an entry, and there is no
    other entry. *)
Theorem partition_devices nodes_count areas seed shuffling f g m g' n :
  dataset_to_nodes_partitioning train_dataset classes_count
    nodes_count areas seed shuffling f g = (Ok m, g') ->
  is_Some (m !! n) <-> (Z.of_nat n < nodes_count)%Z.
Proof. apply partition_dom. Qed.

(** X2.  A device has the labels of its area: when device [n] lies in the
    section [a] of [np.array_split(np.arange(nodes_count), areas)], its
    labels are the section [a] of
    [np.array_split(np.arange(classes_count), areas)]. *)
Theorem partition_area_labels
    nodes_count areas seed shuffling f g m g' n idxs labels :
  dataset_to_nodes_partitioning train_dataset classes_count
    nodes_count areas seed shuffling f g = (Ok m, g') ->
  m !! n = Some (idxs, labels) ->
  exists a nodes,
    array_split (np_arange nodes_count) (Z.to_nat areas) !! a = Some nodes
    /\ n ∈ nodes
    /\ array_split (seq 0 classes_count) (Z.to_nat areas) !! a = Some labels.
Proof.
  intros Hrun Hn.
  apply partition_Ok in Hrun as (_ & _ & recss & _ & Hentry & _).
  destruct (Hentry n idxs labels Hn)
    as (a & nodes & records & Hnodes & Hlabels & _ & Hin & _).
  eauto.
Qed.

(** X3.  With no area the partitioner raises [ZeroDivisionError], after it
    has reseeded the generator. *)
Theorem partition_zero_areas nodes_count seed shuffling f g :
  (0 <= seed < 2 ^ 32)%Z ->
  dataset_to_nodes_partitioning train_dataset classes_count
    nodes_count 0 seed shuffling f g
  = (Raise ZeroDivisionError, np_seeded seed).
Proof.
  intros Hseed. unfold dataset_to_nodes_partitioning, np_random_seed.
  destruct (Z.leb_spec 0 seed); [ | lia].
  destruct (Z.ltb_spec seed (2 ^ 32)); [ | lia]. reflexivity.
Qed.

(** X4.  A seed outside [0 .. 2^32 - 1] makes the partitioner raise
    [ValueError] at once: the generator is left as it was. *)
Theorem partition_invalid_seed nodes_count areas seed shuffling f g :
  (seed < 0 \/ 2 ^ 32 <= seed)%Z ->
  dataset_to_nodes_partitioning train_dataset classes_count
    nodes_count areas seed shuffling f g
  = (Raise ValueError, g).
Proof.
  intros Hseed. unfold dataset_to_nodes_partitioning, np_random_seed.
  destruct (Z.leb_spec 0 seed); destruct (Z.ltb_spec seed (2 ^ 32));
    try lia; reflexivity.
Qed.

(** X5.  More areas than devices: [int(nodes_count / areas)] is not
    positive, and [np.array_split] refuses it as a number of sections for
    the records of the first area: the partitioner raises [ValueError]. *)
Theorem partition_too_many_areas nodes_count areas seed shuffling f g :
  (0 <= seed < 2 ^ 32)%Z -> (0 < areas)%Z -> (nodes_count < areas)%Z ->
  (dataset_to_nodes_partitioning train_dataset classes_count
     nodes_count areas seed shuffling f g).1
  = Raise ValueError.
Proof.
  intros Hseed Hareas Hlt.
  unfold dataset_to_nodes_partitioning, np_random_seed.
  destruct (Z.leb_spec 0 seed); [ | lia].
  destruct (Z.ltb_spec seed (2 ^ 32)); [ | lia]. simpl andb. cbv iota.
  unfold bind at 1, put_state at 1. unfold int_true_div.
  destruct (Z.eqb_spec areas 0); [lia | ].
  unfold bind at 1, ret at 1. unfold np_array_split at 1 2.
  destruct (Z.leb_spec areas 0); [lia | ].
  unfold bind at 1, ret at 1. unfold bind at 1, ret at 1.
  assert (Hq : (Z.quot nodes_count areas <= 0)%Z).
  { destruct (Z.lt_ge_cases nodes_count 0).
    - pose proof (Z.quot_opp_l nodes_count areas ltac:(lia)).
      pose proof (Z.quot_pos (- nodes_count) areas ltac:(lia) ltac:(lia)). lia.
    - rewrite Z.quot_small; lia. }
  assert (Hpos : 0 < Z.to_nat areas) by lia.
  pose proof (length_array_split (np_arange nodes_count) _ Hpos) as Hl1.
  pose proof (length_array_split (np_arange (Z.of_nat classes_count)) _ Hpos)
    as Hl2.
  destruct (array_split (np_arange nodes_count) (Z.to_nat areas))
    as [|nodes split_nodes]; [simpl in Hl1; lia | ].
  destruct (array_split (np_arange (Z.of_nat classes_count)) (Z.to_nat areas))
    as [|classes split_classes]; [simpl in Hl2; lia | ].
  cbn [zip zip_with for_fold]. unfold area_body at 1.
  assert (Hsplit : forall (records : list nat) (g1 : G),
             np_array_split (S:=G) records (Z.quot nodes_count areas) g1
             = (Raise ValueError, g1)).
  { intros records g1. unfold np_array_split.
    destruct (Z.leb_spec (Z.quot nodes_count areas) 0); [done | lia]. }
  destruct shuffling.
  - unfold bind at 1. unfold bind at 1, np_random_shuffle.
    destruct (np_shuffle _ _) as [records g1].
    now rewrite (bind_raise _ _ _ _ _ (Hsplit records g1)).
  - unfold bind at 1. unfold bind at 1, ret at 1.
    now rewrite (bind_raise _ _ _ _ _ (Hsplit _ (np_seeded seed))).
Qed.

(** X6.  The dataset of a device ([get_dataset] on its record indexes):
    every item can be read, and its label is one of the device's labels. *)
Theorem device_dataset_items
    nodes_count areas seed shuffling f g m g' n idxs labels item :
  dataset_to_nodes_partitioning train_dataset classes_count
    nodes_count areas seed shuffling f g = (Ok m, g') ->
  m !! n = Some (idxs, labels) ->
  item < ds_len (get_dataset train_dataset idxs) ->
  exists img lab,
    ds_get (get_dataset train_dataset idxs) item = Ok (img, lab)
    /\ lab ∈ labels.
Proof.
  intros Hrun Hn Hitem.
  apply partition_Ok in Hrun as (_ & _ & recss & Hrecs & Hentry & _).
  destruct (Hentry n idxs labels Hn)
    as (a & nodes & records & _ & Hlabels & Hrec & _ & Hnode).
  destruct (Hrecs a labels Hlabels) as (records' & Hrec' & Hperm & _).
  rewrite Hrec in Hrec'. injection Hrec' as <-.
  apply node_entry_records in Hnode.
  simpl in Hitem.
  destruct (lookup_lt_is_Some_2 idxs item Hitem) as [i Hi].
  rewrite Forall_forall in Hnode.
  pose proof (Hnode i (list_elem_of_lookup_2 _ _ _ Hi)) as Hin.
  rewrite Hperm in Hin.
  apply elem_of_records_per_class in Hin as (img & lab & Hrecord & Hlab).
  exists img, lab. split; [ | done].
  unfold get_dataset, DatasetSplit, list_dataset. simpl.
  now rewrite Hi, Hrecord.
Qed.

(** X7.  The script's own configuration (20 devices, 4 areas, seed 1,
    shuffling, a fifth of every chunk) is one the partitioner accepts,
    whatever the dataset and the generator: it returns a mapping, with an
    entry for each of the devices [0], ..., [19] and for no other. *)
Theorem main_partition_returns (g : G) :
  exists m g',
    dataset_to_nodes_partitioning train_dataset classes_count
      (Z.of_nat (devices main_config)) (Z.of_nat (areas main_config))
      (random_seed main_config) (shuffling main_config)
      (data_fraction main_config) g
    = (Ok m, g')
    /\ forall n, is_Some (m !! n) <-> n < 20.
Proof.
  destruct (partition_total train_dataset classes_count
              (Z.of_nat (devices main_config)) (Z.of_nat (areas main_config))
              (random_seed main_config) (shuffling main_config)
              (data_fraction main_config) g)
    as (m & g' & Hrun).
  - simpl. lia.
  - simpl. lia.
  - vm_compute. reflexivity.
  - exists m, g'. split; [exact Hrun | ].
    intros n. rewrite (partition_dom _ _ _ _ _ _ _ _ n Hrun). simpl. lia.
Qed.
End PartitionerFurther.

(** ** Splitting, evaluating, training *)

Lemma int_four_fifths n :
  Z.to_nat (int_of_Qc (Qc_of_nat n * Q2Qc (4 # 5))) = n * 4 / 5.
Proof.
  assert (Hnonneg : (0 <= Qc_of_nat n * Q2Qc (4 # 5))%Qc).
  { rewrite <- (Qcmult_0_l (Q2Qc (4 # 5))).
    apply Qcmult_le_compat_r; [apply Qc_of_nat_nonneg | ].
    unfold Qcle, Qle. simpl. lia. }
  destruct (int_of_Qc_floor _ (int_of_Qc_nonneg _ Hnonneg)) as [_ Hfloor].
  rewrite (Hfloor Hnonneg). unfold floor_Qc.
  assert (Heq : (this (Qc_of_nat n * Q2Qc (4 # 5))%Qc
                 == (Z.of_nat n * 4 # 5))%Q).
  { unfold Qcmult, Qc_of_nat, Qc_of_Z, Q2Qc. cbn [this].
    rewrite !Qred_correct. reflexivity. }
  rewrite Heq. unfold Qfloor.
  rewrite <- (Nat2Z.id (n * 4 / 5)). f_equal.
  rewrite Nat2Z.inj_div, Nat2Z.inj_mul. reflexivity.
Qed.

Section LearningFurther.
Context {X Image Opt : Type} `{Torch X Image Opt}.

(** X8.  [train_val_split] always returns: the training set has
    [floor(0.8 * len(data))] items, the validation set the others (at least
    one when there is any), and the items of the two are those of [data],
    each read once: their indexes, those of the training set first, are a
    permutation of [0 .. len(data) - 1]. *)
Theorem train_val_split_sizes (data : dataset Image) (x : X) :
  exists perm,
    perm ≡ₚ seq 0 (ds_len data)
    /\ train_val_split data x
       = (Ok (DatasetSplit data (take (ds_len data * 4 / 5) perm),
              DatasetSplit data (drop (ds_len data * 4 / 5) perm)),
          (randperm (ds_len data) x).2)
    /\ ds_len (DatasetSplit data (take (ds_len data * 4 / 5) perm))
       = ds_len data * 4 / 5
    /\ ds_len (DatasetSplit data (drop (ds_len data * 4 / 5) perm))
       = ds_len data - ds_len data * 4 / 5
    /\ (0 < ds_len data ->
        0 < ds_len (DatasetSplit data (drop (ds_len data * 4 / 5) perm))).
Proof.
  exists (randperm (ds_len data) x).1.
  pose proof (randperm_perm (ds_len data) x) as Hperm.
  pose proof (Permutation_length Hperm) as Hlen. rewrite length_seq in Hlen.
  assert (Hle : ds_len data * 4 / 5 <= ds_len data).
  { apply Nat.Div0.div_le_upper_bound. lia. }
  split; [exact Hperm | ]. split.
  { unfold train_val_split. rewrite int_four_fifths.
    unfold bind, lift_total. now destruct (randperm (ds_len data) x). }
  unfold DatasetSplit. cbn [ds_len]. rewrite length_take, length_drop, Hlen.
  split; [lia | ]. split; [lia | ].
  intros Hpos.
  assert (ds_len data * 4 / 5 < ds_len data); [ | lia].
  apply Nat.Div0.div_lt_upper_bound. lia.
Qed.

(** What [evaluate] returns on a readable split. *)
Lemma evaluate_exact (model_w : weights) (items : list (Image * nat))
    (data : dataset Image) (batch_size : Z) (x : X) :
  arch_accepts model_w = true ->
  (0 < batch_size)%Z ->
  Forall2 (fun i r => ds_get data i = Ok r) (seq 0 (ds_len data)) items ->
  evaluate model_w data batch_size x
  = (let* accuracy :=
       float_div (Qc_of_nat (correct_predictions model_w items))
         (Qc_of_nat (length items)) in
     ret (accuracy,
          sum_Qc (batch_loss_of model_w
                    <$> slices (batch_sizes (length items)
                                  (Z.to_nat batch_size)) items)))
      (cnn_mnist x).2.
Proof.
  intros Haccept Hsize Hitems.
  pose proof (Forall2_length _ _ _ Hitems) as Hlen.
  rewrite length_seq in Hlen.
  assert (Hgroups : Forall2 (Forall2 (fun i r => ds_get data i = Ok r))
                      (batches (seq 0 (ds_len data)) (Z.to_nat batch_size))
                      (slices (batch_sizes (length items)
                                 (Z.to_nat batch_size)) items)).
  { unfold batches. rewrite length_seq, <- Hlen. now apply slices_Forall2. }
  assert (Hconcat : concat (slices (batch_sizes (length items)
                                      (Z.to_nat batch_size)) items) = items).
  { rewrite concat_slices, sum_batch_sizes by lia. apply firstn_all. }
  destruct (cnn_mnist x) as [fresh x1] eqn:Hfresh.
  unfold evaluate.
  rewrite (bind_step _ _ _ fresh x1)
    by (unfold lift_total; now rewrite Hfresh).
  unfold load_state_dict. rewrite Haccept.
  rewrite (bind_step _ _ _ model_w x1) by done.
  unfold DataLoader.
  destruct (Z.leb_spec batch_size 0) as [Hle | _]; [lia | ].
  rewrite (bind_step _ _ _ (Z.to_nat batch_size) x1) by done.
  rewrite (bind_step _ _ _ _ _
             (evaluate_loop model_w data _ _ 0%Qc 0%Qc 0%Qc x1 Hgroups)).
  rewrite Hconcat, !Qcplus_0_l. reflexivity.
Qed.

(** X9.  On an empty split [evaluate] divides zero by zero:
    [ZeroDivisionError]. *)
Theorem evaluate_empty_split (model_w : weights) (data : dataset Image)
    (batch_size : Z) (x : X) :
  arch_accepts model_w = true ->
  (0 < batch_size)%Z ->
  ds_len data = 0 ->
  (evaluate model_w data batch_size x).1 = Raise ZeroDivisionError.
Proof.
  intros Haccept Hsize Hempty.
  rewrite (evaluate_exact model_w [] data batch_size x Haccept Hsize)
    by (rewrite Hempty; constructor).
  unfold bind, float_div. simpl length.
  rewrite decide_True by apply Qc_of_nat_0. reflexivity.
Qed.

(** X10.  The accuracy that [evaluate] returns does not depend on the batch
    size: two positive batch sizes give the same accuracy on the same
    non-empty split. *)
Theorem evaluate_accuracy_any_batch_size (model_w : weights)
    (items : list (Image * nat)) (data : dataset Image) (size1 size2 : Z)
    (x : X) :
  arch_accepts model_w = true ->
  (0 < size1)%Z -> (0 < size2)%Z ->
  items <> [] ->
  Forall2 (fun i r => ds_get data i = Ok r) (seq 0 (ds_len data)) items ->
  exists accuracy loss1 loss2 x',
    evaluate model_w data size1 x = (Ok (accuracy, loss1), x')
    /\ evaluate model_w data size2 x = (Ok (accuracy, loss2), x').
Proof.
  intros Haccept Hsize1 Hsize2 Hne Hitems.
  rewrite (evaluate_exact model_w items data size1 x Haccept Hsize1 Hitems),
    (evaluate_exact model_w items data size2 x Haccept Hsize2 Hitems).
  unfold bind, float_div.
  rewrite decide_False;
    [unfold ret; eexists _, _, _, _; split; reflexivity | ].
  apply not_eq_sym, Qclt_not_eq, Qc_of_nat_pos.
  destruct items; [congruence | simpl; lia].
Qed.

(** X11.  Without an epoch [local_training] on a non-empty data set
    divides the sum of no loss by zero: [ZeroDivisionError]. *)
Theorem local_training_no_epochs (model : weights) (data : dataset Image)
    (batch_size : Z) (x : X) :
  (0 < batch_size)%Z ->
  0 < ds_len data ->
  local_training model 0 data batch_size x = (Raise ZeroDivisionError, x).
Proof.
  intros Hsize Hdata. unfold local_training, shuffling_DataLoader, DataLoader.
  destruct (Nat.eqb_spec (ds_len data) 0) as [Hempty | _]; [lia | ].
  destruct (Z.leb_spec batch_size 0) as [Hle | _]; [lia | ].
  rewrite (bind_step _ _ _ (Z.to_nat batch_size) x) by done.
  cbn [seq for_fold]. rewrite (bind_step _ _ _ (model, adam model, []) x) by done.
  unfold float_div. cbn [length]. rewrite decide_True by apply Qc_of_nat_0.
  reflexivity.
Qed.

Lemma batch_sizes_nonempty total size :
  0 < total -> 0 < size -> 0 < length (batch_sizes total size).
Proof.
  intros Htotal Hsize. unfold batch_sizes.
  rewrite length_app, length_replicate.
  destruct (Nat.eqb_spec (total mod size) 0) as [Hmod | Hmod]; simpl; [ | lia].
  pose proof (Nat.div_mod_eq total size) as Hdm.
  destruct (total / size); lia.
Qed.

Section Training.
Variable data : dataset Image.
Variable size : nat.
Hypothesis Hsize : 0 < size.
Hypothesis Hdata : 0 < ds_len data.
Hypothesis Hread : forall i, i < ds_len data -> exists r, ds_get data i = Ok r.
Hypothesis Horder : forall x : X,
  exists order x',
    shuffled_order (ds_len data) x = (Ok order, x')
    /\ order ≡ₚ seq 0 (ds_len data).

Lemma train_batches_Ok : forall loader model (opt : Opt) losses (x : X),
  Forall (Forall (fun i => i < ds_len data)) loader ->
  exists model' opt' new x',
    for_fold (train_batch data) loader (model, opt, losses) x
    = (Ok (model', opt', losses ++ new), x')
    /\ length new = length loader.
Proof.
  induction loader as [|batch loader IH]; intros model opt losses x Hall.
  - exists model, opt, [], x. now rewrite app_nil_r.
  - apply Forall_cons in Hall as [Hbatch Hall].
    destruct (Forall2_exists (fun i r => ds_get data i = Ok r) batch)
      as [items Hitems].
    { eapply Forall_impl; [exact Hbatch | ]. exact Hread. }
    destruct (train_step model opt items x) as [[[m1 o1] loss] x1] eqn:Hstep.
    destruct (IH m1 o1 (losses ++ [loss]) x1 Hall)
      as (m2 & o2 & new & x2 & Hrun & Hlen).
    exists m2, o2, (loss :: new), x2. split; [ | simpl; lia].
    assert (Hbody : train_batch data (model, opt, losses) batch x
                    = (Ok (m1, o1, losses ++ [loss]), x1)).
    { unfold train_batch.
      rewrite (bind_step _ _ _ _ _ (fetch_Ok data batch items x Hitems)).
      rewrite (bind_step _ _ _ (m1, o1, loss) x1)
        by (unfold lift_total; now rewrite Hstep).
      reflexivity. }
    cbn [for_fold]. rewrite (bind_step _ _ _ _ _ Hbody), Hrun.
    now rewrite <- app_assoc.
Qed.

Lemma train_epoch_Ok model (opt : Opt) epoch_loss k (x : X) :
  exists model' opt' mean x',
    train_epoch data size (model, opt, epoch_loss) k x
    = (Ok (model', opt', epoch_loss ++ [mean]), x').
Proof.
  destruct (Horder x) as (order & x1 & Hshuffle & Hperm).
  assert (Hall : Forall (Forall (fun i => i < ds_len data))
                   (batches order size)).
  { apply Forall_forall. intros batch Hbatch. apply Forall_forall.
    intros i Hi. apply list_elem_of_lookup in Hbatch as [j Hj].
    pose proof (elem_of_slice _ _ _ _ _ Hj Hi) as Hin.
    rewrite Hperm in Hin. apply elem_of_seq in Hin. lia. }
  destruct (train_batches_Ok (batches order size) model opt [] x1 Hall)
    as (m1 & o1 & new & x2 & Hrun & Hlen).
  assert (Hnew : 0 < length new).
  { rewrite Hlen. unfold batches. rewrite length_slices.
    apply batch_sizes_nonempty; [ | done].
    apply Permutation_length in Hperm. rewrite length_seq in Hperm. lia. }
  exists m1, o1, (sum_Qc new / Qc_of_nat (length new))%Qc, x2.
  unfold train_epoch.
  rewrite (bind_step _ _ _ _ _ Hshuffle), (bind_step _ _ _ _ _ Hrun).
  cbn [app]. unfold float_div.
  rewrite decide_False; [reflexivity | ].
  now apply not_eq_sym, Qclt_not_eq, Qc_of_nat_pos.
Qed.

Lemma train_epochs_Ok : forall (epochs : list nat) model (opt : Opt)
    epoch_loss (x : X),
  exists model' opt' new x',
    for_fold (train_epoch data size) epochs (model, opt, epoch_loss) x
    = (Ok (model', opt', epoch_loss ++ new), x')
    /\ length new = length epochs.
Proof.
  induction epochs as [|k epochs IH]; intros model opt epoch_loss x.
  - exists model, opt, [], x. now rewrite app_nil_r.
  - destruct (train_epoch_Ok model opt epoch_loss k x)
      as (m1 & o1 & mean & x1 & Hepoch).
    destruct (IH m1 o1 (epoch_loss ++ [mean]) x1)
      as (m2 & o2 & new & x2 & Hrun & Hlen).
    exists m2, o2, (mean :: new), x2. split; [ | simpl; lia].
    cbn [for_fold]. rewrite (bind_step _ _ _ _ _ Hepoch), Hrun.
    now rewrite <- app_assoc.
Qed.
End Training.

(** X12.  [local_training] raises nothing and returns a model and a loss
    when there is at least one epoch, the batch size is positive, the data
    are not empty, every item can be read, and the shuffling loader yields
    the items in some order. *)
Theorem local_training_returns (model : weights) (epochs : nat)
    (data : dataset Image) (batch_size : Z) (x : X) :
  0 < epochs ->
  (0 < batch_size)%Z ->
  0 < ds_len data ->
  (forall i, i < ds_len data -> exists r, ds_get data i = Ok r) ->
  (forall x : X,
      exists order x',
        shuffled_order (ds_len data) x = (Ok order, x')
        /\ order ≡ₚ seq 0 (ds_len data)) ->
  exists model' loss x',
    local_training model epochs data batch_size x = (Ok (model', loss), x').
Proof.
  intros Hepochs Hsize Hdata Hread Horder.
  destruct (train_epochs_Ok data (Z.to_nat batch_size) ltac:(lia) Hdata Hread
              Horder (seq 0 epochs) model (adam model) [] x)
    as (m1 & o1 & epoch_loss & x1 & Hrun & Hlen).
  rewrite length_seq in Hlen. cbn [app] in Hrun.
  exists m1, (sum_Qc epoch_loss / Qc_of_nat epochs)%Qc, x1.
  unfold local_training, shuffling_DataLoader, DataLoader.
  destruct (Nat.eqb_spec (ds_len data) 0) as [Hempty | _]; [lia | ].
  destruct (Z.leb_spec batch_size 0) as [Hle | _]; [lia | ].
  rewrite (bind_step _ _ _ (Z.to_nat batch_size) x) by done.
  rewrite (bind_step _ _ _ _ _ Hrun). unfold float_div.
  rewrite Hlen, decide_False; [reflexivity | ].
  now apply not_eq_sym, Qclt_not_eq, Qc_of_nat_pos.
Qed.

Lemma split_item_readable (data : dataset Image) (perm idxs : list nat) item :
  (forall i, i < ds_len data -> exists r, ds_get data i = Ok r) ->
  perm ≡ₚ seq 0 (ds_len data) ->
  idxs ⊆ perm ->
  item < ds_len (DatasetSplit data idxs) ->
  exists i r,
    i < ds_len data
    /\ ds_get data i = Ok r
    /\ ds_get (DatasetSplit data idxs) item = Ok r.
Proof.
  intros Hread Hperm Hsub Hitem. unfold DatasetSplit in *. cbn [ds_len] in Hitem.
  destruct (lookup_lt_is_Some_2 idxs item Hitem) as [i Hi].
  assert (Hlt : i < ds_len data).
  { pose proof (Hsub i (list_elem_of_lookup_2 _ _ _ Hi)) as Hin.
    rewrite Hperm in Hin. apply elem_of_seq in Hin. lia. }
  destruct (Hread i Hlt) as [r Hr].
  exists i, r. cbn [ds_get]. now rewrite Hi.
Qed.

(** X13.  The two sets that [train_val_split] returns read their items
    from [data]: when every item of [data] can be read, so can every item
    of the training set and of the validation set, and it is an item of
    [data]. *)
Theorem train_val_split_readable (data : dataset Image) (x : X)
    train val x' item :
  (forall i, i < ds_len data -> exists r, ds_get data i = Ok r) ->
  train_val_split data x = (Ok (train, val), x') ->
  (item < ds_len train ->
   exists i r,
     i < ds_len data /\ ds_get data i = Ok r /\ ds_get train item = Ok r)
  /\ (item < ds_len val ->
      exists i r,
        i < ds_len data /\ ds_get data i = Ok r /\ ds_get val item = Ok r).
Proof.
  intros Hread Hrun. unfold train_val_split in Hrun.
  inv_bind Hrun as Hperm binding perm.
  unfold lift_total in Hperm.
  pose proof (randperm_perm (ds_len data) x) as Hp.
  destruct (randperm (ds_len data) x) as [perm' x1]. simpl in Hp.
  injection Hperm as -> ->. injection Hrun as <- <- _.
  split; intros Hitem;
    apply (split_item_readable data perm _ item Hread Hp); try done.
  - intros i Hi. now apply elem_of_take in Hi as (j & Hj%list_elem_of_lookup_2 & _).
  - intros i Hi. apply list_elem_of_lookup in Hi as [j Hj].
    rewrite lookup_drop in Hj. eapply list_elem_of_lookup_2, Hj.
Qed.
End LearningFurther.

(** ** The aggregator *)

Lemma triple_average_weights_working base models :
  triple (fun s => s = base) (average_weights models)
    (fun r s => working base r s) (heap_extends base).
Proof.
  unfold average_weights.
  eapply triple_bind.
  { apply (triple_read (fun s => s = base) (heap_extends base));
      [apply list_index_read | intros s ->; apply heap_extends_refl]. }
  intros m0. eapply triple_bind.
  { eapply triple_conseq; [apply (triple_deepcopy base m0) | | | ]; simpl.
    - intros s ->. apply grown_refl.
    - intros w s Hw. exact Hw.
    - auto. }
  intros w. eapply triple_bind.
  { apply (triple_read (working base w) (kept base));
      [apply dict_keys_read | apply working_kept]. }
  intros keys. eapply triple_bind.
  { apply triple_for_each. intros key _. apply triple_average_key. }
  intros []. apply triple_ret. auto.
Qed.

(** X14.  What [average_weights] returns is new: the dict is an object
    that the store of the call did not hold, and so is every tensor in it.
    The result shares no object with the models. *)
Theorem average_weights_fresh (models : list nat) (h : heap) r h' :
  average_weights models h = (Ok r, h') ->
  length (dicts h) <= r
  /\ exists sd,
       dicts h' !! r = Some sd
       /\ Forall (fun p => length (tensors h) <= p.2) sd.
Proof.
  intros Hrun.
  pose proof (triple_average_weights_working h models h eq_refl) as Ht.
  rewrite Hrun in Ht. destruct Ht as (_ & Hr & sd & Hsd & Hall). eauto.
Qed.

(** On the empty list [average_weights] raises [IndexError]
    ([models[0]]) and leaves the store as it was. *)
Lemma average_weights_empty (h : heap) :
  average_weights [] h = (Raise IndexError, h).
Proof. reflexivity. Qed.

Lemma assoc_None_fst {V V'} key (sd : list (string * V))
    (w : list (string * V')) :
  sd.*1 = w.*1 -> assoc key w = None -> assoc key sd = None.
Proof.
  intros Hfst Hw. destruct (assoc key sd) as [a|] eqn:Ha; [ | done].
  apply assoc_Some_elem in Ha.
  destruct (elem_assoc_Some key w) as [v Hv]; [ | congruence].
  rewrite <- Hfst. apply list_elem_of_fmap. now exists (key, a).
Qed.

(** X15.  When the second mapping lacks the first parameter name of the
    first mapping, [average_weights] raises [KeyError]
    ([models[1][key]]). *)
Theorem average_weights_missing_name (key : string) (t : tensor)
    (P Q : weights) (rest : list weights) :
  assoc key Q = None ->
  average_weights_value (((key, t) :: P) :: Q :: rest) = Raise KeyError.
Proof.
  intros Hmissing.
  destruct (alloc_models_represents (((key, t) :: P) :: Q :: rest)
              (Heap [] [])) as (ms & h & Hrun & _ & Hreps).
  apply Forall2_cons_inv_r in Hreps as (m0 & ms' & Hrep0 & Hreps & ->).
  apply Forall2_cons_inv_r in Hreps as (m1 & mrest & Hrep1 & _ & ->).
  destruct Hrep0 as (sd0 & Hsd0 & Hfst0 & Hnd0 & Hall0).
  destruct Hrep1 as (sd1 & Hsd1 & Hfst1 & _).
  destruct sd0 as [|[k a0] sd0']; [done | ].
  injection Hfst0 as -> Hfst0.
  assert (Hts : Forall2 (fun p u => tensors h !! p.2 = Some u)
                  ((key, a0) :: sd0') (((key, t) :: P).*2)).
  { apply Forall2_fmap_l in Hall0. exact Hall0. }
  pose proof (deepcopy_items_exact _ [] _ h Hnd0
                (fun a _ => not_elem_of_nil a) Hts) as Hexact.
  set (sd := zip (((key, a0) :: sd0').*1)
               (seq (length (tensors h)) (length ((key, a0) :: sd0'))))
    in Hexact.
  set (s0 := Heap (tensors h ++ ((key, t) :: P).*2) (dicts h ++ [sd])).
  assert (Hcopy : deepcopy m0 h = (Ok (length (dicts h)), s0)).
  { unfold deepcopy. unfold bind at 1, load_dict. rewrite Hsd0.
    now rewrite (bind_step _ _ _ _ _ Hexact). }
  assert (Hsd : dicts s0 !! length (dicts h) = Some sd)
    by (simpl; now apply list_lookup_middle).
  assert (Hnames : dict_keys (length (dicts h)) s0 = (Ok (sd.*1), s0)).
  { unfold dict_keys, bind, load_dict. now rewrite Hsd. }
  assert (Hstep : accumulate (m0 :: m1 :: mrest) (length (dicts h)) key 1 s0
                  = (Raise KeyError, s0)).
  { unfold accumulate, dict_getitem.
    unfold bind at 1. unfold bind at 1, load_dict. rewrite Hsd.
    unfold sd at 1. cbn [fmap list_fmap fst length seq zip zip_with assoc].
    rewrite decide_True by done. unfold ret at 1.
    unfold bind at 1, list_index. cbn [lookup list_lookup]. unfold ret at 1.
    unfold bind at 1. unfold bind at 1.
    assert (Hsd1' : dicts s0 !! m1 = Some sd1)
      by (simpl; now apply lookup_app_l_Some).
    rewrite Hsd1', (assoc_None_fst key sd1 Q Hfst1 Hmissing). reflexivity. }
  assert (Hkey : average_key (m0 :: m1 :: mrest) (length (dicts h)) key s0
                 = (Raise KeyError, s0)).
  { unfold average_key. cbn [length Nat.sub seq]. unfold for_each.
    cbn [for_fold]. unfold bind at 1. unfold bind at 1. now rewrite Hstep. }
  unfold average_weights_value.
  rewrite (bind_step _ _ _ _ _ Hrun). unfold average_weights.
  rewrite (bind_step _ _ _ m0 h) by done.
  rewrite (bind_step _ _ _ _ _ Hcopy), (bind_step _ _ _ _ _ Hnames).
  unfold sd at 1. cbn [fmap list_fmap fst length seq zip zip_with].
  unfold for_each. cbn [for_fold].
  unfold bind at 1. unfold bind at 1. now rewrite Hkey.
Qed.

(** ** The script *)

Section OrchestratorFurther.
Context {G X Image Opt : Type} `{NumpyRandom G} `{Torch X Image Opt}.
Variable train_dataset : list (Image * nat).
Variable test_dataset : list (Image * nat).
Variable classes_count : nat.

Lemma with_numpy_stdout {A} (m : M G A) (w : world G X) r w' :
  with_numpy m w = (r, w') -> stdout w' = stdout w.
Proof.
  unfold with_numpy. destruct (m (np_rng w)). now intros [= <- <-].
Qed.

(** X16.  A round without device raises [IndexError]: the aggregator is
    called on the empty list, before any mean is taken. *)
Theorem round_body_no_devices (cfg : config) (mapping : index_mapping)
    (global_model : weights) (round : nat) (w : world G X) :
  devices cfg = 0 ->
  (round_body train_dataset cfg mapping global_model round w).1
  = Raise IndexError.
Proof.
  intros Hdevices. unfold round_body. rewrite Hdevices.
  unfold bind at 1, print at 1. cbn [seq for_fold].
  unfold bind at 1, ret at 1. reflexivity.
Qed.

Lemma with_torch_inv {A} (m : M X A) (w : world G X) r w' :
  with_torch m w = (r, w') ->
  exists x', m (torch_rng w) = (r, x')
             /\ w' = World (np_rng w) x' (stdout w).
Proof.
  unfold with_torch. destruct (m (torch_rng w)) as [r0 x0].
  intros [= <- <-]. eauto.
Qed.

Lemma with_numpy_inv {A} (m : M G A) (w : world G X) r w' :
  with_numpy m w = (r, w') ->
  exists g', m (np_rng w) = (r, g')
             /\ w' = World g' (torch_rng w) (stdout w).
Proof.
  unfold with_numpy. destruct (m (np_rng w)) as [r0 g0].
  intros [= <- <-]. eauto.
Qed.

(** X17.  A run of the script that completes: the mapping is the one the
    partitioner returns from NumPy's generator, the first global model the
    one [CNNMnist()] draws after [torch.manual_seed(1)], and [final] the
    global model the round loop returns from them.  The rounds write [out]
    (the devices [0], ..., [devices - 1] under each of the banners [1],
    ..., [global_rounds]); the accuracy that the script then prints after
    the testing banner, and returns, is the accuracy [evaluate] returns
    for [final] on the test set, in batches of 64. *)
Theorem main_transcript (cfg : config) (w : world G X) test_acc w' :
  main train_dataset test_dataset classes_count cfg w = (Ok test_acc, w') ->
  exists mapping g1 initial x1 final w2 test_loss x2 out,
    dataset_to_nodes_partitioning train_dataset classes_count
      (Z.of_nat (devices cfg)) (Z.of_nat (areas cfg)) (random_seed cfg)
      (shuffling cfg) (data_fraction cfg) (np_rng w)
    = (Ok mapping, g1)
    /\ cnn_mnist (torch_manual_seed 1) = (initial, x1)
    /\ round_loop train_dataset cfg mapping initial
         (World g1 x1 (stdout w))
       = (Ok final, w2)
    /\ evaluate final (list_dataset test_dataset) 64 (torch_rng w2)
       = (Ok (test_acc, test_loss), x2)
    /\ stdout w2 = stdout w ++ out
    /\ visits 0 out = schedule 1 (global_rounds cfg) (devices cfg)
    /\ w' = World (np_rng w2) x2
              (stdout w ++ out ++ [TestingBanner; TestAccuracy test_acc]).
Proof.
  unfold main. intros Hrun.
  inv_bind Hrun as Hseed binding [].
  apply with_torch_inv in Hseed as (x0 & Hput & ->).
  unfold put_state in Hput. injection Hput as <-.
  inv_bind Hrun as Hmapping binding mapping.
  apply with_numpy_inv in Hmapping as (g1 & Hpart & ->).
  cbn [np_rng torch_rng stdout] in *.
  inv_bind Hrun as Hinit binding initial.
  apply with_torch_inv in Hinit as (x1 & Hcnn & ->).
  cbn [np_rng torch_rng stdout] in *.
  unfold lift_total in Hcnn.
  destruct (cnn_mnist (torch_manual_seed 1)) as [initial' x1'] eqn:Hinit.
  injection Hcnn as -> ->.
  inv_bind Hrun as Hrounds binding final.
  pose proof Hrounds as Hloop. unfold round_loop in Hrounds.
  apply rounds_Ok in Hrounds as (globals & out & _ & _ & _ & Hout & Hvisits).
  cbn [stdout] in Hout.
  inv_bind Hrun as Heval binding [acc loss].
  apply with_torch_inv in Heval as (x2 & Heval & ->).
  inv_bind Hrun as Hp1 binding []. injection Hp1 as <-.
  inv_bind Hrun as Hp2 binding []. injection Hp2 as <-.
  inv_ret Hrun.
  eexists mapping, g1, initial, x1, final, _, loss, x2, out.
  split; [exact Hpart | ]. split; [reflexivity | ].
  split; [exact Hloop | ]. split; [exact Heval | ].
  split; [exact Hout | ].
  split; [now destruct (Hvisits 0) as [-> _] | ].
  cbn [np_rng torch_rng stdout]. rewrite Hout, <- !app_assoc. reflexivity.
Qed.

Lemma float_div_Ok {S} (a b q : Qc) (s s' : S) :
  float_div a b s = (Ok q, s') -> q = (a / b)%Qc /\ s' = s.
Proof.
  unfold float_div. destruct (decide (b = 0%Qc)); [done | ].
  now intros [= <- <-].
Qed.

(** [served cfg mapping global_model ids w results w']: the devices [ids]
    work one after the other, the first from the world [w] and each from
    the world the one before left, all of them on [global_model]; they
    return [results] (local model, training loss, validation loss,
    validation accuracy) and leave the world [w']. *)
Inductive served (cfg : config) (mapping : index_mapping)
    (global_model : weights)
  : list nat -> world G X -> list (weights * Qc * Qc * Qc) -> world G X
    -> Prop :=
  | served_nil w : served cfg mapping global_model [] w [] w
  | served_cons i ids w result w1 results w2 :
      device_step train_dataset cfg mapping global_model i w
      = (Ok result, w1) ->
      served cfg mapping global_model ids w1 results w2 ->
      served cfg mapping global_model (i :: ids) w (result :: results) w2.

(** The four values of a device's result. *)
Definition local_model_of (r : weights * Qc * Qc * Qc) : weights := r.1.1.1.
Definition train_loss_of (r : weights * Qc * Qc * Qc) : Qc := r.1.1.2.
Definition val_loss_of (r : weights * Qc * Qc * Qc) : Qc := r.1.2.
Definition val_accuracy_of (r : weights * Qc * Qc * Qc) : Qc := r.2.

Lemma served_length cfg mapping global_model ids w results w' :
  served cfg mapping global_model ids w results w' ->
  length results = length ids.
Proof. induction 1; simpl; congruence. Qed.

(** The lines and the values that the loop over the devices adds. *)
Lemma devices_loop_lines (cfg : config) (mapping : index_mapping)
    (global_model : weights) :
  forall ids local_weights local_losses val_losses val_accuracies
      (w : world G X) acc' w',
    for_fold (device_body train_dataset cfg mapping global_model) ids
      (local_weights, local_losses, val_losses, val_accuracies) w
    = (Ok acc', w') ->
    exists results sizes,
      acc' = (local_weights ++ (local_model_of <$> results),
              local_losses ++ (train_loss_of <$> results),
              val_losses ++ (val_loss_of <$> results),
              val_accuracies ++ (val_accuracy_of <$> results))
      /\ served cfg mapping global_model ids w results w'
      /\ Forall2 (fun i size =>
                    exists idxs labels,
                      mapping !! i = Some (idxs, labels)
                      /\ size = length idxs) ids sizes
      /\ stdout w' = stdout w ++ zip_with DeviceLine ids sizes.
Proof.
  induction ids as [|i ids IH]; intros lw ll vl va w acc' w' Hrun.
  - inv_ret Hrun. exists [], []. cbn [fmap list_fmap]. rewrite !app_nil_r.
    repeat split; constructor.
  - cbn [for_fold] in Hrun. inv_bind Hrun as Hbody binding acc1.
    unfold device_body in Hbody.
    inv_bind Hbody as Hstep binding [[[m tl] vloss] vacc].
    inv_ret Hbody.
    destruct (device_step_Ok _ _ _ _ _ _ _ _ Hstep)
      as (idxs & classes & Hi & Hout).
    destruct (IH _ _ _ _ _ _ _ Hrun)
      as (results & sizes & -> & Hserved & Hsizes & Hout').
    exists ((m, tl, vloss, vacc) :: results), (length idxs :: sizes).
    rewrite <- !app_assoc. split; [done | ].
    split; [econstructor; [exact Hstep | exact Hserved] | ].
    split; [constructor; [eauto | done] | ].
    rewrite Hout', Hout, <- app_assoc. reflexivity.
Qed.

(** X18.  A round that completes.  After the banner the devices [0], ...,
    [devices - 1] work one after the other on the round's global model
    ([served]); the round writes its banner, one line per device with the
    number of record indexes the mapping gives the device, and the
    arithmetic means, over the devices, of the training losses, the
    validation losses and the validation accuracies that the devices
    returned; the global model it returns is the average of the devices'
    local models. *)
Theorem round_transcript (cfg : config) (mapping : index_mapping)
    (global_model : weights) (round : nat) (w : world G X) g' w' :
  round_body train_dataset cfg mapping global_model round w = (Ok g', w') ->
  exists results sizes w1,
    served cfg mapping global_model (seq 0 (devices cfg))
      (World (np_rng w) (torch_rng w) (stdout w ++ [RoundBanner (round + 1)]))
      results w1
    /\ average_weights_value (local_model_of <$> results) = Ok g'
    /\ Forall2 (fun i size =>
                  exists idxs labels,
                    mapping !! i = Some (idxs, labels) /\ size = length idxs)
         (seq 0 (devices cfg)) sizes
    /\ stdout w'
       = stdout w
         ++ [RoundBanner (round + 1)]
         ++ zip_with DeviceLine (seq 0 (devices cfg)) sizes
         ++ [MeanTrainLoss
               (sum_Qc (train_loss_of <$> results)
                / Qc_of_nat (devices cfg))%Qc;
             MeanValLoss
               (sum_Qc (val_loss_of <$> results)
                / Qc_of_nat (devices cfg))%Qc;
             MeanValAccuracy
               (sum_Qc (val_accuracy_of <$> results)
                / Qc_of_nat (devices cfg))%Qc].
Proof.
  unfold round_body. intros Hrun.
  inv_bind Hrun as Hbanner binding []. injection Hbanner as <-.
  inv_bind Hrun as Hloop binding acc.
  apply devices_loop_lines in Hloop
    as (results & sizes & -> & Hserved & Hsizes & Hout).
  pose proof (served_length _ _ _ _ _ _ _ Hserved) as Hlen.
  rewrite length_seq in Hlen. cbn [app] in Hrun.
  inv_bind Hrun as Havg binding global_weights.
  unfold of_outcome in Havg.
  destruct (average_weights_value (local_model_of <$> results))
    as [gw|e] eqn:Hmean; [ | done].
  inv_ret Havg.
  inv_bind Hrun as Hload binding g.
  pose proof (with_torch_stdout _ _ _ _ Hload) as Hsame.
  apply with_torch_inv in Hload as (x' & Hload & _).
  unfold load_state_dict in Hload.
  destruct (arch_accepts global_weights); [ | done]. inv_ret Hload.
  inv_bind Hrun as Hd1 binding mean_train_loss.
  apply float_div_Ok in Hd1 as [-> ->].
  inv_bind Hrun as Hd2 binding mean_val_loss.
  apply float_div_Ok in Hd2 as [-> ->].
  inv_bind Hrun as Hd3 binding mean_val_accuracy.
  apply float_div_Ok in Hd3 as [-> ->].
  inv_bind Hrun as Hp1 binding []. injection Hp1 as <-.
  inv_bind Hrun as Hp2 binding []. injection Hp2 as <-.
  inv_bind Hrun as Hp3 binding []. injection Hp3 as <-.
  inv_ret Hrun.
  eexists results, sizes, _.
  split; [exact Hserved | ]. split; [exact Hmean | ]. split; [exact Hsizes | ].
  cbn [stdout]. rewrite Hsame, Hout, !length_fmap, Hlen. cbn [stdout].
  rewrite <- !app_assoc. reflexivity.
Qed.
End OrchestratorFurther.

(** ** Concrete runs of the further properties *)

Lemma partition_devices_witness :
  is_Some (small_mapping !! 3) <-> (Z.of_nat 3 < 4)%Z.
Proof.
  apply (partition_devices small_dataset 4 4 2 1 true half 0 small_mapping 7 3).
  vm_compute. reflexivity.
Defined.

Lemma partition_area_labels_witness :
  exists a nodes,
    array_split (np_arange 4) (Z.to_nat 2) !! a = Some nodes
    /\ 0 ∈ nodes
    /\ array_split (seq 0 4) (Z.to_nat 2) !! a = Some [0; 1].
Proof.
  apply (partition_area_labels small_dataset 4 4 2 1 true half 0
           small_mapping 7 0 [5] [0; 1]).
  - vm_compute. reflexivity.
  - vm_compute. reflexivity.
Defined.

Lemma partition_zero_areas_witness :
  dataset_to_nodes_partitioning small_dataset 4 4 0 1 true half 0
  = (Raise ZeroDivisionError, np_seeded 1).
Proof.
  apply (partition_zero_areas small_dataset 4 4 1 true half 0). lia.
Defined.

Lemma partition_invalid_seed_witness :
  dataset_to_nodes_partitioning small_dataset 4 4 2 (-1) true half 0
  = (Raise ValueError, 0).
Proof.
  apply (partition_invalid_seed small_dataset 4 4 2 (-1) true half 0). lia.
Defined.

Lemma partition_too_many_areas_witness :
  (dataset_to_nodes_partitioning small_dataset 4 3 5 1 true half 0).1
  = Raise ValueError.
Proof.
  apply (partition_too_many_areas small_dataset 4 3 5 1 true half 0); lia.
Defined.

Lemma device_dataset_items_witness :
  exists img lab,
    ds_get (get_dataset small_dataset [5]) 0 = Ok (img, lab)
    /\ lab ∈ [0; 1].
Proof.
  apply (device_dataset_items small_dataset 4 4 2 1 true half 0
           small_mapping 7 0 [5] [0; 1] 0).
  - vm_compute. reflexivity.
  - vm_compute. reflexivity.
  - simpl. lia.
Defined.

Lemma evaluate_empty_split_witness :
  (evaluate linear_init (list_dataset []) 2 0).1 = Raise ZeroDivisionError.
Proof.
  apply (evaluate_empty_split linear_init (list_dataset []) 2 0).
  - reflexivity.
  - lia.
  - reflexivity.
Defined.

Lemma evaluate_accuracy_any_batch_size_witness :
  exists accuracy loss1 loss2 x',
    evaluate linear_init (list_dataset small_dataset) 2 0
    = (Ok (accuracy, loss1), x')
    /\ evaluate linear_init (list_dataset small_dataset) 3 0
       = (Ok (accuracy, loss2), x').
Proof.
  apply (evaluate_accuracy_any_batch_size linear_init small_dataset
           (list_dataset small_dataset) 2 3 0).
  - reflexivity.
  - lia.
  - lia.
  - discriminate.
  - repeat constructor.
Defined.

Lemma local_training_no_epochs_witness :
  local_training linear_init 0 (list_dataset small_dataset) 2 0
  = (Raise ZeroDivisionError, 0).
Proof.
  apply (local_training_no_epochs linear_init (list_dataset small_dataset) 2 0).
  - lia.
  - simpl. lia.
Defined.

Lemma small_dataset_readable i :
  i < ds_len (list_dataset small_dataset) ->
  exists r, ds_get (list_dataset small_dataset) i = Ok r.
Proof.
  intros Hi. destruct (lookup_lt_is_Some_2 small_dataset i Hi) as [r Hr].
  exists r. unfold list_dataset. cbn [ds_get]. now rewrite Hr.
Qed.

Lemma local_training_returns_witness :
  exists model' loss x',
    local_training linear_init 1 (list_dataset small_dataset) 2 0
    = (Ok (model', loss), x').
Proof.
  apply (local_training_returns linear_init 1 (list_dataset small_dataset) 2 0).
  - lia.
  - lia.
  - simpl. lia.
  - exact small_dataset_readable.
  - intros x. eexists _, _. split; [reflexivity | apply reverse_Permutation].
Defined.

Lemma train_val_split_readable_witness :
  (0 < ds_len (DatasetSplit (list_dataset small_dataset)
                 (take 6 (reverse (seq 0 8)))) ->
   exists i r,
     i < ds_len (list_dataset small_dataset)
     /\ ds_get (list_dataset small_dataset) i = Ok r
     /\ ds_get (DatasetSplit (list_dataset small_dataset)
                  (take 6 (reverse (seq 0 8)))) 0 = Ok r)
  /\ (0 < ds_len (DatasetSplit (list_dataset small_dataset)
                    (drop 6 (reverse (seq 0 8)))) ->
      exists i r,
        i < ds_len (list_dataset small_dataset)
        /\ ds_get (list_dataset small_dataset) i = Ok r
        /\ ds_get (DatasetSplit (list_dataset small_dataset)
                     (drop 6 (reverse (seq 0 8)))) 0 = Ok r).
Proof.
  apply (train_val_split_readable (list_dataset small_dataset) 0
           (DatasetSplit (list_dataset small_dataset)
              (take 6 (reverse (seq 0 8))))
           (DatasetSplit (list_dataset small_dataset)
              (drop 6 (reverse (seq 0 8))))
           1 0).
  - exact small_dataset_readable.
  - reflexivity.
Defined.

(** A store with one model of one parameter. *)
Definition one_model_store : heap :=
  Heap [Tensor [1] [Q2Qc 1]] [[("weight"%string, 0)]].

Definition one_model_run : outcome nat * heap :=
  Eval vm_compute in average_weights [0] one_model_store.

Lemma average_weights_fresh_witness :
  length (dicts one_model_store) <= 1
  /\ exists sd,
       dicts one_model_run.2 !! 1 = Some sd
       /\ Forall (fun p => length (tensors one_model_store) <= p.2) sd.
Proof.
  apply (average_weights_fresh [0] one_model_store 1 one_model_run.2).
  vm_compute. reflexivity.
Defined.

Lemma average_weights_missing_name_witness :
  average_weights_value
    ((("weight"%string, Tensor [1] [Q2Qc 1])
        :: [("bias"%string, Tensor [1] [Q2Qc 0])])
       :: [("bias"%string, Tensor [1] [Q2Qc 1])] :: [])
  = Raise KeyError.
Proof.
  apply (average_weights_missing_name "weight" (Tensor [1] [Q2Qc 1])
           [("bias"%string, Tensor [1] [Q2Qc 0])]
           [("bias"%string, Tensor [1] [Q2Qc 1])] []).
  reflexivity.
Defined.

Definition no_device_config : config := Config 0 2 1 true half 2 1 2.

Lemma round_body_no_devices_witness :
  (round_body (G:=nat) small_dataset no_device_config ∅ linear_init 0
     small_world).1
  = Raise IndexError.
Proof.
  apply (round_body_no_devices small_dataset no_device_config ∅ linear_init 0
           small_world).
  reflexivity.
Defined.

Definition small_main : outcome Qc * world nat nat :=
  Eval vm_compute in main small_dataset small_dataset 4 small_config small_world.

Definition small_accuracy : Qc :=
  Eval vm_compute in match small_main.1 with Ok a => a | Raise _ => 0%Qc end.

Lemma main_transcript_witness :
  exists mapping g1 initial x1 final w2 test_loss x2 out,
    dataset_to_nodes_partitioning small_dataset 4
      (Z.of_nat (devices small_config)) (Z.of_nat (areas small_config))
      (random_seed small_config) (shuffling small_config)
      (data_fraction small_config) (np_rng small_world)
    = (Ok mapping, g1)
    /\ cnn_mnist (torch_manual_seed 1) = (initial, x1)
    /\ round_loop small_dataset small_config mapping initial
         (World g1 x1 (stdout small_world))
       = (Ok final, w2)
    /\ evaluate final (list_dataset small_dataset) 64 (torch_rng w2)
       = (Ok (small_accuracy, test_loss), x2)
    /\ stdout w2 = stdout small_world ++ out
    /\ visits 0 out
       = schedule 1 (global_rounds small_config) (devices small_config)
    /\ small_main.2
       = World (np_rng w2) x2
           (stdout small_world ++ out
            ++ [TestingBanner; TestAccuracy small_accuracy]).
Proof.
  apply (main_transcript small_dataset small_dataset 4 small_config
           small_world small_accuracy small_main.2).
  vm_compute. reflexivity.
Defined.

Definition small_round : outcome weights * world nat nat :=
  Eval vm_compute in
    round_body small_dataset small_config two_device_mapping linear_init 0
      small_world.

Definition small_round_model : weights :=
  Eval vm_compute in match small_round.1 with Ok g => g | Raise _ => [] end.

Lemma round_transcript_witness :
  exists results sizes w1,
    served small_dataset small_config two_device_mapping linear_init
      (seq 0 (devices small_config))
      (World (np_rng small_world) (torch_rng small_world)
         (stdout small_world ++ [RoundBanner (0 + 1)]))
      results w1
    /\ average_weights_value (local_model_of <$> results)
       = Ok small_round_model
    /\ Forall2 (fun i size =>
                  exists idxs labels,
                    two_device_mapping !! i = Some (idxs, labels)
                    /\ size = length idxs)
         (seq 0 (devices small_config)) sizes
    /\ stdout small_round.2
       = stdout small_world
         ++ [RoundBanner (0 + 1)]
         ++ zip_with DeviceLine (seq 0 (devices small_config)) sizes
         ++ [MeanTrainLoss
               (sum_Qc (train_loss_of <$> results)
                / Qc_of_nat (devices small_config))%Qc;
             MeanValLoss
               (sum_Qc (val_loss_of <$> results)
                / Qc_of_nat (devices small_config))%Qc;
             MeanValAccuracy
               (sum_Qc (val_accuracy_of <$> results)
                / Qc_of_nat (devices small_config))%Qc].
Proof.
  apply (round_transcript small_dataset small_config two_device_mapping
           linear_init 0 small_world small_round_model small_round.2).
  vm_compute. reflexivity.
Defined.
